(** * Aetherial asset generators: noise synthesis, compositors, batch driver

    A shallow embedding of [scripts/generate_cloud_noise.py] and
    [scripts/generate_block_textures.py].

    Conventions of the embedding:
    - Python and NumPy binary64 values are idealised as real numbers [R].
      Two places where IEEE arithmetic leaves the reals are modelled
      explicitly: the quotient 0/0 of the 2D normalisation, which NumPy
      evaluates to NaN with a warning and without raising, and the
      overflows of the grid-size computation of the 2D noise, which raise
      [OverflowError].
    - Arrays have any size: the memory limits of [np.zeros] and
      [np.random.rand] are not modelled.  The theorems that say which
      exceptions occur are stated for scales of ordinary size, at which
      the gradient arrays are small ([scale_in_range]).
    - Python integers are [Z]; sizes and loop indices, which are never
      negative, are [nat].
    - Raised exceptions are values of [exn] carried by the [result] monad.
    - Draws of [np.random] and [random] are supplied by explicit oracles. *)

From Stdlib Require Import Reals Lra Lia ZArith List String Ascii.
From stdpp Require Import base option list gmap strings.

Local Open Scope R_scope.

(** ** Python runtime: exceptions, numeric conversions, loops *)

Inductive exn : Type :=
  | ZeroDivisionError
  | OverflowError
  | ValueError
  | KeyError
  | IndexError
  | StructError
  | OSError.

Inductive result (A : Type) : Type :=
  | Ok (a : A)
  | Raise (e : exn).

Arguments Ok {A} a.
Arguments Raise {A} e.

#[global] Instance result_ret : MRet result := fun A a => Ok a.

#[global] Instance result_bind : MBind result := fun A B f m =>
  match m with
  | Ok a => f a
  | Raise e => Raise e
  end.

(** [for x in xs: s = body(x, s)], stopping at the first exception. *)
Fixpoint for_each {A S : Type} (body : A -> S -> result S) (xs : list A) (s : S)
  : result S :=
  match xs with
  | [] => Ok s
  | x :: xs' => s' ← body x s; for_each body xs' s'
  end.

(** [range(n)] *)
Definition range (n : nat) : list nat := seq 0 n.

(** [int(r)] on a float: truncation toward zero. *)
Definition py_int (r : R) : Z :=
  if Rle_dec 0 r then Zfloor r else Zceil r.

(** [np.clip(v, lo, hi)] = [minimum(maximum(v, lo), hi)]. *)
Definition np_clip (v lo hi : R) : R := Rmin (Rmax v lo) hi.

(** [a % 1.0] for floats: the result takes the sign of the divisor. *)
Definition float_mod1 (a : R) : R := a - IZR (Zfloor a).

(** [a % b] on Python integers. *)
Definition py_mod (a b : nat) : result nat :=
  if decide (b = 0%nat) then Raise ZeroDivisionError else Ok (a mod b)%nat.

(** Storing an integer into a [uint8] cell keeps its low eight bits. *)
Definition wrap_uint8 (v : Z) : Z := (v mod 256)%Z.

(** ** generate_cloud_noise.py *)

Module CloudNoise.

Definition hash_float (x : R) : R :=
  float_mod1 (Rabs (sin (x * 12.9898 + 78.233) * 43758.5453)).

Definition perlin_noise_3d (x y z : R) : R :=
  let xi := Z.land (Zfloor x) 255 in
  let yi := Z.land (Zfloor y) 255 in
  let zi := Z.land (Zfloor z) 255 in
  let xf := x - IZR (Zfloor x) in
  let yf := y - IZR (Zfloor y) in
  let zf := z - IZR (Zfloor z) in
  let u := xf * xf * (3.0 - 2.0 * xf) in
  let v := yf * yf * (3.0 - 2.0 * yf) in
  let w := zf * zf * (3.0 - 2.0 * zf) in
  let n000 := hash_float (IZR (xi + yi * 57 + zi * 113)) in
  let n001 := hash_float (IZR (xi + yi * 57 + (zi + 1) * 113)) in
  let n010 := hash_float (IZR (xi + (yi + 1) * 57 + zi * 113)) in
  let n011 := hash_float (IZR (xi + (yi + 1) * 57 + (zi + 1) * 113)) in
  let n100 := hash_float (IZR ((xi + 1) + yi * 57 + zi * 113)) in
  let n101 := hash_float (IZR ((xi + 1) + yi * 57 + (zi + 1) * 113)) in
  let n110 := hash_float (IZR ((xi + 1) + (yi + 1) * 57 + zi * 113)) in
  let n111 := hash_float (IZR ((xi + 1) + (yi + 1) * 57 + (zi + 1) * 113)) in
  let nx00 := n000 * (1 - u) + n100 * u in
  let nx01 := n001 * (1 - u) + n101 * u in
  let nx10 := n010 * (1 - u) + n110 * u in
  let nx11 := n011 * (1 - u) + n111 * u in
  let nxy0 := nx00 * (1 - v) + nx10 * v in
  let nxy1 := nx01 * (1 - v) + nx11 * v in
  nxy0 * (1 - w) + nxy1 * w.

(** The body of the innermost loop of the Worley search up to [dist]: the
    distance from the sample to the feature point of one neighbour cell. *)
Definition cell_distance (x y z cell_x cell_y cell_z : R) (dz dy dx : Z) : R :=
  let neighbor_x := cell_x + IZR dx in
  let neighbor_y := cell_y + IZR dy in
  let neighbor_z := cell_z + IZR dz in
  let hash_val :=
    hash_float (neighbor_x * 374761393.0 + neighbor_y * 668265263.0
                + neighbor_z * 1274126177.0) in
  let feature_x := hash_val in
  let feature_y := hash_float (hash_val * 2.0) in
  let feature_z := hash_float (hash_val * 3.0) in
  let diff_x := (neighbor_x + feature_x) - x in
  let diff_y := (neighbor_y + feature_y) - y in
  let diff_z := (neighbor_z + feature_z) - z in
  sqrt (diff_x * diff_x + diff_y * diff_y + diff_z * diff_z).

Definition offsets : list Z := [-1; 0; 1]%Z.

(** The neighbour cells in the order the three loops visit them. *)
Definition neighbours : list (Z * Z * Z) :=
  dz ← offsets; dy ← offsets; dx ← offsets; [(dz, dy, dx)].

Definition worley_noise_3d (x y z : R) : R :=
  let cell_x := IZR (Zfloor x) in
  let cell_y := IZR (Zfloor y) in
  let cell_z := IZR (Zfloor z) in
  let min_dist :=
    fold_left (fun min_dist dz =>
      fold_left (fun min_dist dy =>
        fold_left (fun min_dist dx =>
          let dist := cell_distance x y z cell_x cell_y cell_z dz dy dx in
          Rmin min_dist dist)
          offsets min_dist)
        offsets min_dist)
      offsets 1.0 in
  1.0 - min_dist.

(** A [uint8] array of shape [(size, size, size)], indexed [a[z, y, x]]. *)
Abbreviation ndarray3 := (list (list (list Z))).

Definition zeros3 (size : nat) : ndarray3 :=
  replicate size (replicate size (replicate size 0%Z)).

Definition getitem3 (a : ndarray3) (z y x : nat) : option Z :=
  plane ← a !! z; row ← plane !! y; row !! x.

(** [a[z, y, x] = v]; an index outside the shape raises. *)
Definition setitem3 (a : ndarray3) (z y x : nat) (v : Z) : result ndarray3 :=
  match a !! z with
  | Some plane =>
      match plane !! y with
      | Some row =>
          if decide (x < length row)%nat
          then Ok (<[z := <[y := <[x := wrap_uint8 v]> row]> plane]> a)
          else Raise IndexError
      | None => Raise IndexError
      end
  | None => Raise IndexError
  end.

(** The value computed for voxel [(x, y, z)] before it is stored. *)
Definition voxel_value (size x y z : nat) : Z :=
  let nx := INR x / INR size in
  let ny := INR y / INR size in
  let nz := INR z / INR size in
  let perlin := perlin_noise_3d (nx * 4.0) (ny * 4.0) (nz * 4.0) in
  let worley := worley_noise_3d (nx * 2.0) (ny * 2.0) (nz * 2.0) in
  let noise := perlin * 0.6 + worley * 0.4 in
  let noise := np_clip noise 0.0 1.0 in
  py_int (noise * 255).

Definition generate_3d_noise (size : nat) : result ndarray3 :=
  let noise_data := zeros3 size in
  let total_voxels := (size * size * size)%nat in
  let progress_interval := (total_voxels / 20)%nat in
  for_each (fun z noise_data =>
    for_each (fun y noise_data =>
      for_each (fun x noise_data =>
        let idx := (x + y * size + z * size * size)%nat in
        _ ← py_mod idx progress_interval;
        setitem3 noise_data z y x (voxel_value size x y z))
        (range size) noise_data)
      (range size) noise_data)
    (range size) noise_data.

(** [data.tobytes()]: the cells in C order, last index fastest. *)
Definition tobytes (data : ndarray3) : list Z := concat (concat data).

(** Byte order of the machine that runs the script ([sys.byteorder]). *)
Inductive byteorder : Type := LittleEndian | BigEndian.

Definition le_bytes32 (v : Z) : list Z :=
  [ (v mod 256); (v / 256 mod 256); (v / 65536 mod 256); (v / 16777216 mod 256) ]%Z.

(** [struct.pack('I', v)]: native size and byte order, and an error for a
    value that does not fit an unsigned int. *)
Definition struct_pack_I (host : byteorder) (v : Z) : result (list Z) :=
  if decide (0 <= v < 2 ^ 32)%Z
  then Ok (match host with
           | LittleEndian => le_bytes32 v
           | BigEndian => rev (le_bytes32 v)
           end)
  else Raise StructError.

Definition bytes_of_string (s : string) : list Z :=
  map (fun c => Z.of_N (N_of_ascii c)) (list_ascii_of_string s).

(** The bytes written to the output file. *)
Definition save_binary_texture (host : byteorder) (data : ndarray3)
  : result (list Z) :=
  let size := length data in
  packed ← struct_pack_I host (Z.of_nat size);
  Ok (bytes_of_string "CN3D" ++ packed ++ tobytes data).

(** The shape [(size, size, size)]. *)
Definition has_shape3 (size : nat) (a : ndarray3) : Prop :=
  length a = size /\
  Forall (fun plane => length plane = size /\
                       Forall (fun row : list Z => length row = size) plane) a.

(** The invariant of the voxel loops: the array has its shape and every
    cell selected by [P] already holds its final value. *)
Definition written (size : nat) (P : nat -> nat -> nat -> Prop) (a : ndarray3)
  : Prop :=
  has_shape3 size a /\
  forall z y x, P z y x ->
    getitem3 a z y x = Some (wrap_uint8 (voxel_value size x y z)).

(** The unsigned integer that four bytes denote, least significant first. *)
Definition decode_le32 (bs : list Z) : option Z :=
  match bs with
  | [b0; b1; b2; b3] => Some (b0 + 256 * b1 + 65536 * b2 + 16777216 * b3)%Z
  | _ => None
  end.

Definition is_byte (b : Z) : Prop := (0 <= b < 256)%Z.

(** [main()]: the bytes of [cloud_noise_3d.bin]. *)
Definition main (host : byteorder) : result (list Z) :=
  let size := 128%nat in
  noise_data ← generate_3d_noise size;
  save_binary_texture host noise_data.

End CloudNoise.

(** ** generate_block_textures.py *)

Module BlockTextures.

(** A binary64 sample that may be NaN ([None]). *)
Abbreviation float := (option R).

(** [a / b] on array entries: NumPy does not raise on a zero divisor.  The
    quotient then is NaN or an infinity; at the only call site the
    numerator is zero whenever the divisor is, so it is NaN. *)
Definition np_divide (a b : R) : float :=
  if Req_dec_T b 0 then None else Some (a / b).

(** [v > c] on floats; every comparison with NaN is false. *)
Definition float_gt (v : float) (c : R) : bool :=
  match v with
  | Some r => if Rlt_dec c r then true else false
  | None => false
  end.

(** [int(np.clip(v, 0, 255))]; [int] of NaN raises [ValueError]. *)
Definition int_clip (v : float) : result Z :=
  match v with
  | Some r => Ok (py_int (np_clip r 0 255))
  | None => Raise ValueError
  end.

Definition interpolate (a b x : R) : R :=
  let ft := x * PI in
  let f := (1 - cos ft) * 0.5 in
  a * (1 - f) + b * f.

(** The least magnitude that binary64 rounds to an infinity,
    [2^1024 - 2^970]: an integer from there on does not convert to a float,
    and a quotient from there on is [inf]. *)
Definition overflow_threshold : R := IZR (2 ^ 1024 - 2 ^ 970).

(** [max(2, int(width / (10 * scale * freq)))], where [scale] is a float and
    [freq = 2 ** octave] an integer.  The product converts [freq] to a
    float, which raises [OverflowError] for an integer beyond the binary64
    range; the float division raises [ZeroDivisionError] on a zero
    divisor; a quotient beyond the range is [inf], and [int(inf)] raises
    [OverflowError].  The quotient itself is taken over the reals: where
    the binary64 quotient rounds across an integer, the code's grid
    differs from this one by one cell. *)
Definition grid_size (width : nat) (scale : R) (freq : nat) : result nat :=
  if Rle_dec overflow_threshold (INR freq) then Raise OverflowError
  else
    let d := 10 * scale * INR freq in
    if Req_dec_T d 0 then Raise ZeroDivisionError
    else
      let q := INR width / d in
      if Rle_dec overflow_threshold (Rabs q) then Raise OverflowError
      else Ok (Z.to_nat (Z.max 2 (py_int q))).

(** The value added to [noise[y, x]] by one octave. *)
Definition octave_sample (gradients : nat -> nat -> R)
    (width height grid_size : nat) (amp : R) (y x : nat) : R :=
  let grid_x := INR x / INR width * INR grid_size in
  let grid_y := INR y / INR height * INR grid_size in
  let x0 := Z.to_nat (py_int grid_x) in
  let y0 := Z.to_nat (py_int grid_y) in
  let x1 := (x0 + 1)%nat in
  let y1 := (y0 + 1)%nat in
  let sx := grid_x - INR x0 in
  let sy := grid_y - INR y0 in
  let ix0 := interpolate (gradients y0 x0) (gradients y0 x1) sx in
  let ix1 := interpolate (gradients y1 x0) (gradients y1 x1) sx in
  interpolate ix0 ix1 sy * amp.

(** [arr.min()] and [arr.max()]; a zero-size array has no extremum. *)
Definition field_min (noise : list (list R)) : result R :=
  match concat noise with
  | [] => Raise ValueError
  | v :: vs => Ok (fold_left Rmin vs v)
  end.

Definition field_max (noise : list (list R)) : result R :=
  match concat noise with
  | [] => Raise ValueError
  | v :: vs => Ok (fold_left Rmax vs v)
  end.

(** The octave loop: [rand octave] is the draw of
    [np.random.rand(grid_size + 2, grid_size + 2)] made in that octave. *)
Definition accumulate (rand : nat -> nat -> nat -> R)
    (width height : nat) (scale : R) (octaves : nat)
  : result (list (list R)) :=
  for_each (fun octave noise =>
    let freq := (2 ^ octave)%nat in
    let amp := 1 / INR (2 ^ octave) in
    gs ← grid_size width scale freq;
    let gradients := fun r c => rand octave r c * 2 - 1 in
    Ok (imap (fun y row =>
          imap (fun x v => v + octave_sample gradients width height gs amp y x)
               row)
          noise))
    (range octaves) (replicate height (replicate width 0)).

Definition normalize (noise : list (list R)) : result (list (list float)) :=
  mn ← field_min noise;
  mx ← field_max noise;
  Ok (fmap (M := list) (fmap (M := list) (fun v => np_divide (v - mn) (mx - mn))) noise).

Definition perlin_noise_2d (rand : nat -> nat -> nat -> R)
    (width height : nat) (scale : R) (octaves : nat)
  : result (list (list float)) :=
  noise ← accumulate rand width height scale octaves;
  normalize noise.

(** The random draws of one texture: [noise_rand k] feeds the [k]-th call
    of [perlin_noise_2d], [grain_rand] is [np.random.rand(height, width)],
    [sparkle_rand y x] is the [random.random()] drawn at pixel [(y, x)]. *)
Record randomness : Type := {
  noise_rand : nat -> nat -> nat -> nat -> R;
  grain_rand : nat -> nat -> R;
  sparkle_rand : nat -> nat -> R
}.

Record rgb : Type := RGB { chan_r : Z; chan_g : Z; chan_b : Z }.

(** [img[y][x]], a [uint8] array of shape [(height, width, 3)]. *)
Abbreviation image := (list (list rgb)).

(** [noise[y, x]] for an index inside the shape. *)
Definition sample (noise : list (list float)) (y x : nat) : float :=
  row ← noise !! y; v ← row !! x; v.

(** [img[y, x]] for an index inside the shape. *)
Definition getpixel (img : image) (y x : nat) : option rgb :=
  row ← img !! y; row !! x.

Fixpoint traverse {A B : Type} (f : A -> result B) (xs : list A)
  : result (list B) :=
  match xs with
  | [] => Ok []
  | x :: xs' => b ← f x; bs ← traverse f xs'; Ok (b :: bs)
  end.

(** The pixel loops: [for y in range(height): for x in range(width):
    img[y, x] = pixel(y, x)]. *)
Definition build_image (height width : nat) (pixel : nat -> nat -> result rgb)
  : result image :=
  traverse (fun y => traverse (fun x => pixel y x) (range width)) (range height).

Definition store_pixel (r g b : Z) : rgb :=
  RGB (wrap_uint8 r) (wrap_uint8 g) (wrap_uint8 b).

Definition generate_organic_pattern (rng : randomness) (width height : nat)
    (base_color : rgb) (variation : Z) (noise_scale : R) : result image :=
  noise ← perlin_noise_2d (noise_rand rng 0) width height noise_scale 4;
  build_image height width (fun y x =>
    let n := sample noise y x in
    r ← int_clip ((fun n => IZR (chan_r base_color) + (n - 0.5) * IZR variation * 2) <$> n);
    g ← int_clip ((fun n => IZR (chan_g base_color) + (n - 0.5) * IZR variation * 2) <$> n);
    b ← int_clip ((fun n => IZR (chan_b base_color) + (n - 0.5) * IZR variation * 2) <$> n);
    Ok (store_pixel r g b)).

Definition generate_rocky_pattern (rng : randomness) (width height : nat)
    (base_color : rgb) (variation : Z) (noise_scale : R) : result image :=
  noise ← perlin_noise_2d (noise_rand rng 0) width height noise_scale 5;
  crack_noise ← perlin_noise_2d (noise_rand rng 1) width height 0.5 2;
  build_image height width (fun y x =>
    let n := sample noise y x in
    let crack := sample crack_noise y x in
    let darkness := if float_gt crack 0.85 then 0.3 else 1.0 in
    r ← int_clip ((fun n => IZR (chan_r base_color) * darkness + (n - 0.5) * IZR variation * 2) <$> n);
    g ← int_clip ((fun n => IZR (chan_g base_color) * darkness + (n - 0.5) * IZR variation * 2) <$> n);
    b ← int_clip ((fun n => IZR (chan_b base_color) * darkness + (n - 0.5) * IZR variation * 2) <$> n);
    Ok (store_pixel r g b)).

Definition generate_grainy_pattern (rng : randomness) (width height : nat)
    (base_color : rgb) (variation : Z) (noise_scale : R) : result image :=
  noise ← perlin_noise_2d (noise_rand rng 0) width height noise_scale 6;
  let grain := fun y x => grain_rand rng y x * 0.2 in
  build_image height width (fun y x =>
    let n := (fun v => v + grain y x) <$> sample noise y x in
    r ← int_clip ((fun n => IZR (chan_r base_color) + (n - 0.5) * IZR variation * 2) <$> n);
    g ← int_clip ((fun n => IZR (chan_g base_color) + (n - 0.5) * IZR variation * 2) <$> n);
    b ← int_clip ((fun n => IZR (chan_b base_color) + (n - 0.5) * IZR variation * 2) <$> n);
    Ok (store_pixel r g b)).

Definition generate_crystalline_pattern (rng : randomness) (width height : nat)
    (base_color : rgb) (variation : Z) (noise_scale : R) (sparkle : bool)
  : result image :=
  noise ← perlin_noise_2d (noise_rand rng 0) width height noise_scale 3;
  build_image height width (fun y x =>
    let n := sample noise y x in
    let brightness :=
      if float_gt n 0.7 then 1.3
      else if float_gt n 0.4 then 1.0
      else 0.8 in
    let brightness :=
      if sparkle && float_gt (Some (sparkle_rand rng y x)) 0.95 then 1.8
      else brightness in
    r ← int_clip (Some (IZR (chan_r base_color) * brightness));
    g ← int_clip (Some (IZR (chan_g base_color) * brightness));
    b ← int_clip (Some (IZR (chan_b base_color) * brightness));
    Ok (store_pixel r g b)).

Definition generate_metallic_pattern (rng : randomness) (width height : nat)
    (base_color : rgb) (variation : Z) (noise_scale : R) (ore_color : rgb)
  : result image :=
  noise ← perlin_noise_2d (noise_rand rng 0) width height noise_scale 3;
  vein_noise ← perlin_noise_2d (noise_rand rng 1) width height 0.15 2;
  build_image height width (fun y x =>
    let n := sample noise y x in
    let vein := sample vein_noise y x in
    let brightness := if float_gt n 0.6 then 1.2 else 0.9 in
    if float_gt vein 0.6 then
      r ← int_clip (Some (IZR (chan_r ore_color) * brightness));
      g ← int_clip (Some (IZR (chan_g ore_color) * brightness));
      b ← int_clip (Some (IZR (chan_b ore_color) * brightness));
      Ok (store_pixel r g b)
    else
      r ← int_clip ((fun n => IZR (chan_r base_color) * brightness + (n - 0.5) * IZR variation) <$> n);
      g ← int_clip ((fun n => IZR (chan_g base_color) * brightness + (n - 0.5) * IZR variation) <$> n);
      b ← int_clip ((fun n => IZR (chan_b base_color) * brightness + (n - 0.5) * IZR variation) <$> n);
      Ok (store_pixel r g b)).

Definition generate_ore_pattern (rng : randomness) (width height : nat)
    (base_color : rgb) (variation : Z) (noise_scale : R) (ore_color : rgb)
  : result image :=
  noise ← perlin_noise_2d (noise_rand rng 0) width height noise_scale 4;
  build_image height width (fun y x =>
    let n := sample noise y x in
    r ← int_clip ((fun n => IZR (chan_r ore_color) + (n - 0.5) * IZR variation * 2) <$> n);
    g ← int_clip ((fun n => IZR (chan_g ore_color) + (n - 0.5) * IZR variation * 2) <$> n);
    b ← int_clip ((fun n => IZR (chan_b ore_color) + (n - 0.5) * IZR variation * 2) <$> n);
    Ok (store_pixel r g b)).

(** The brightness of a fluid pixel; NaN in either field makes it NaN. *)
Definition fluid_brightness (glow : bool) (n wave : float) : float :=
  if glow then n' ← n; w ← wave; Some (0.8 + w * 0.5 + n' * 0.3)
  else w ← wave; Some (0.9 + w * 0.3).

Definition generate_fluid_pattern (rng : randomness) (width height : nat)
    (base_color : rgb) (variation : Z) (noise_scale : R) (glow : bool)
  : result image :=
  noise ← perlin_noise_2d (noise_rand rng 0) width height noise_scale 4;
  wave_noise ← perlin_noise_2d (noise_rand rng 1) width height 0.4 2;
  build_image height width (fun y x =>
    let n := sample noise y x in
    let wave := sample wave_noise y x in
    let brightness := fluid_brightness glow n wave in
    r ← int_clip (br ← brightness; n' ← n; Some (IZR (chan_r base_color) * br + (n' - 0.5) * IZR variation));
    g ← int_clip (br ← brightness; n' ← n; Some (IZR (chan_g base_color) * br + (n' - 0.5) * IZR variation));
    b ← int_clip (br ← brightness; n' ← n; Some (IZR (chan_b base_color) * br + (n' - 0.5) * IZR variation));
    Ok (store_pixel r g b)).

(** One entry of [BLOCK_TEXTURES]; the optional keys are the ones read
    with [config.get] or present only for some patterns. *)
Record config : Type := {
  base_color : rgb;
  variation : Z;
  noise_scale : R;
  pattern : string;
  ore_color : option rgb;
  sparkle : option bool;
  glow : option bool
}.

(** [config["ore_color"]] *)
Definition lookup_ore_color (c : config) : result rgb :=
  match ore_color c with
  | Some col => Ok col
  | None => Raise KeyError
  end.

Definition generate_texture (rng : randomness) (block_name : string)
    (c : config) (width height : nat) : result image :=
  let pattern := pattern c in
  let base_color := base_color c in
  let variation := variation c in
  let noise_scale := noise_scale c in
  if String.eqb pattern "organic" then
    generate_organic_pattern rng width height base_color variation noise_scale
  else if String.eqb pattern "rocky" then
    generate_rocky_pattern rng width height base_color variation noise_scale
  else if String.eqb pattern "grainy" then
    generate_grainy_pattern rng width height base_color variation noise_scale
  else if String.eqb pattern "crystalline" then
    let sparkle := default false (sparkle c) in
    generate_crystalline_pattern rng width height base_color variation noise_scale sparkle
  else if String.eqb pattern "metallic" then
    ore_color ← lookup_ore_color c;
    generate_metallic_pattern rng width height base_color variation noise_scale ore_color
  else if String.eqb pattern "ore" then
    ore_color ← lookup_ore_color c;
    generate_ore_pattern rng width height base_color variation noise_scale ore_color
  else if String.eqb pattern "fluid" then
    let glow := default false (glow c) in
    generate_fluid_pattern rng width height base_color variation noise_scale glow
  else
    generate_organic_pattern rng width height base_color variation noise_scale.

(** *** The batch driver *)

(** Lines printed by the script; its banner and the blank lines are left
    out. *)
Inductive message : Type :=
  | MsgSkipping (block_name : string)
  | MsgGenerating (block_name : string)
  | MsgComplete (generated skipped total : nat)
  | MsgError (e : exn).

(** The texture directory together with the driver's counters; [writes]
    lists the paths handed to [texture.save], latest first, and [stdout]
    the printed lines, latest first. *)
Record driver_state : Type := {
  files : gmap string image;
  generated : nat;
  skipped : nat;
  writes : list string;
  stdout : list message
}.

Definition initial_state (dir : gmap string image) : driver_state :=
  {| files := dir; generated := 0; skipped := 0; writes := []; stdout := [] |}.

(** [TEXTURE_DIR / f"{block_name}.png"] *)
Definition output_path (block_name : string) : string :=
  (block_name +:+ ".png")%string.

Section Driver.

(** The random draws made for each block, and the paths at which the image
    encoder fails ([texture.save] raising [OSError]). *)
Variable rng : string -> randomness.
Variable save_fails : string -> bool.

(** The [for block_name, config in BLOCK_TEXTURES.items()] loop; an
    exception leaves the loop with the state reached so far. *)
Fixpoint main_loop (catalog : list (string * config)) (st : driver_state)
  : driver_state * option exn :=
  match catalog with
  | [] => (st, None)
  | (block_name, c) :: rest =>
      let path := output_path block_name in
      if decide (is_Some (files st !! path)) then
        main_loop rest
          {| files := files st; generated := generated st;
             skipped := S (skipped st); writes := writes st;
             stdout := MsgSkipping block_name :: stdout st |}
      else
        let out := MsgGenerating block_name :: stdout st in
        let st1 := {| files := files st; generated := generated st;
                      skipped := skipped st; writes := writes st;
                      stdout := out |} in
        match generate_texture (rng block_name) block_name c 32 32 with
        | Raise e => (st1, Some e)
        | Ok texture =>
            if save_fails path then (st1, Some OSError)
            else
              main_loop rest
                {| files := <[path := texture]> (files st);
                   generated := S (generated st); skipped := skipped st;
                   writes := path :: writes st; stdout := out |}
        end
  end.

Definition main (catalog : list (string * config)) (dir : gmap string image)
  : driver_state * option exn :=
  match main_loop catalog (initial_state dir) with
  | (st, None) =>
      ({| files := files st; generated := generated st;
          skipped := skipped st; writes := writes st;
          stdout := MsgComplete (generated st) (skipped st) (length catalog)
                    :: stdout st |}, None)
  | (st, Some e) => (st, Some e)
  end.

(** The [__main__] guard: any exception is printed and the process exits
    with status 1. *)
Definition script (catalog : list (string * config)) (dir : gmap string image)
  : driver_state * nat :=
  match main catalog dir with
  | (st, None) => (st, 0%nat)
  | (st, Some e) =>
      ({| files := files st; generated := generated st;
          skipped := skipped st; writes := writes st;
          stdout := MsgError e :: stdout st |}, 1%nat)
  end.

(** Processing one entry fails with [e]: the compositor raises [e], or
    the image is built and the encoder fails on it. *)
Definition entry_fails (block_name : string) (c : config) (e : exn) : Prop :=
  generate_texture (rng block_name) block_name c 32 32 = Raise e \/
  (exists texture,
     generate_texture (rng block_name) block_name c 32 32 = Ok texture /\
     save_fails (output_path block_name) = true /\ e = OSError).

End Driver.

(** A scale of ordinary size for rows of [width] pixels:
    [width / (10 * |scale|) < 1000], so that the gradient grid of every
    octave has at most 1000 cells a side.  This is far from the scales at
    which the grid size overflows or the gradient array is too large to
    allocate, and it excludes the zero scale. *)
Definition scale_in_range (width : nat) (scale : R) : Prop :=
  INR width < 10 * Rabs scale * 1000.

(** The shape [(height, width)] of a 2D array. *)
Definition has_shape2 {A : Type} (height width : nat) (a : list (list A)) : Prop :=
  length a = height /\ Forall (fun row => length row = width) a.

(** An integer clamped to the range of a colour channel. *)
Definition clamp_channel (k : Z) : Z := Z.min (Z.max k 0) 255.

(** *** A run on two pixels

    Draws for a texture of width 2 and height 1: every gradient grid has
    0 in its first column and 0.5 elsewhere, so the gradients are -1 in
    the first column and 0 elsewhere. *)
Definition ramp_rand : nat -> nat -> nat -> R :=
  fun _ _ c => if (c =? 0)%nat then 0 else 0.5.

Definition ramp_rng : randomness :=
  {| noise_rand := fun _ => ramp_rand;
     grain_rand := fun _ _ => 0;
     sparkle_rand := fun _ _ => 0 |}.

(** The coal descriptor of the design document's scenario. *)
Definition coal : config :=
  {| base_color := RGB 30 30 30; variation := 15; noise_scale := 0.3;
     pattern := "ore"; ore_color := Some (RGB 10 10 10);
     sparkle := None; glow := None |}.

(** Two entries of [BLOCK_TEXTURES]. *)
Definition grass : config :=
  {| base_color := RGB 60 120 40; variation := 30; noise_scale := 0.3;
     pattern := "organic"; ore_color := None; sparkle := None; glow := None |}.

Definition dirt : config :=
  {| base_color := RGB 120 80 50; variation := 25; noise_scale := 0.4;
     pattern := "organic"; ore_color := None; sparkle := None; glow := None |}.

(** The entry ["ice"] of [BLOCK_TEXTURES]. *)
Definition ice : config :=
  {| base_color := RGB 200 220 255; variation := 15; noise_scale := 0.2;
     pattern := "crystalline"; ore_color := None; sparkle := None;
     glow := None |}.

(** A pixel whose three channels fit a byte. *)
Definition valid_pixel (px : rgb) : Prop :=
  (0 <= chan_r px <= 255)%Z /\ (0 <= chan_g px <= 255)%Z /\
  (0 <= chan_b px <= 255)%Z.

(** The pattern names [generate_texture] tests for. *)
Definition known_patterns : list string :=
  ["organic"; "rocky"; "grainy"; "crystalline"; "metallic"; "ore"; "fluid"]%string.

(** [BLOCK_TEXTURES], in the order of the dictionary literal; the key
    ["recipe"], which no function reads, is left out. *)
Definition BLOCK_TEXTURES : list (string * config) :=
  [
    ("grass", {| base_color := RGB 60 120 40; variation := 30; noise_scale := 0.3;
        pattern := "organic"; ore_color := None; sparkle := None; glow := None |});
    ("dirt", {| base_color := RGB 120 80 50; variation := 25; noise_scale := 0.4;
        pattern := "organic"; ore_color := None; sparkle := None; glow := None |});
    ("stone", {| base_color := RGB 100 100 100; variation := 20; noise_scale := 0.25;
        pattern := "rocky"; ore_color := None; sparkle := None; glow := None |});
    ("sand", {| base_color := RGB 220 190 120; variation := 15; noise_scale := 0.35;
        pattern := "grainy"; ore_color := None; sparkle := None; glow := None |});
    ("gravel", {| base_color := RGB 130 130 130; variation := 25; noise_scale := 0.4;
        pattern := "grainy"; ore_color := None; sparkle := None; glow := None |});
    ("clay", {| base_color := RGB 160 130 110; variation := 20; noise_scale := 0.3;
        pattern := "organic"; ore_color := None; sparkle := None; glow := None |});
    ("moss", {| base_color := RGB 40 90 40; variation := 25; noise_scale := 0.35;
        pattern := "organic"; ore_color := None; sparkle := None; glow := None |});
    ("ice", {| base_color := RGB 200 220 255; variation := 15; noise_scale := 0.2;
        pattern := "crystalline"; ore_color := None; sparkle := None; glow := None |});
    ("packed_ice", {| base_color := RGB 160 200 240; variation := 10; noise_scale := 0.15;
        pattern := "crystalline"; ore_color := None; sparkle := None; glow := None |});
    ("snow", {| base_color := RGB 245 250 255; variation := 8; noise_scale := 0.25;
        pattern := "grainy"; ore_color := None; sparkle := None; glow := None |});
    ("sandstone", {| base_color := RGB 210 170 100; variation := 18; noise_scale := 0.28;
        pattern := "rocky"; ore_color := None; sparkle := None; glow := None |});
    ("granite", {| base_color := RGB 140 120 110; variation := 22; noise_scale := 0.22;
        pattern := "rocky"; ore_color := None; sparkle := None; glow := None |});
    ("basalt", {| base_color := RGB 60 60 65; variation := 18; noise_scale := 0.2;
        pattern := "rocky"; ore_color := None; sparkle := None; glow := None |});
    ("limestone", {| base_color := RGB 220 220 200; variation := 20; noise_scale := 0.3;
        pattern := "rocky"; ore_color := None; sparkle := None; glow := None |});
    ("marble", {| base_color := RGB 240 240 245; variation := 15; noise_scale := 0.18;
        pattern := "crystalline"; ore_color := None; sparkle := None; glow := None |});
    ("obsidian", {| base_color := RGB 20 15 30; variation := 12; noise_scale := 0.15;
        pattern := "crystalline"; ore_color := None; sparkle := Some true; glow := None |});
    ("lava_rock", {| base_color := RGB 80 40 30; variation := 20; noise_scale := 0.25;
        pattern := "rocky"; ore_color := None; sparkle := None; glow := None |});
    ("volcanic_ash", {| base_color := RGB 70 70 75; variation := 15; noise_scale := 0.35;
        pattern := "grainy"; ore_color := None; sparkle := None; glow := None |});
    ("magma", {| base_color := RGB 200 80 20; variation := 35; noise_scale := 0.2;
        pattern := "fluid"; ore_color := None; sparkle := None; glow := Some true |});
    ("lava", {| base_color := RGB 255 100 0; variation := 40; noise_scale := 0.18;
        pattern := "fluid"; ore_color := None; sparkle := None; glow := Some true |});
    ("coal", {| base_color := RGB 30 30 30; variation := 15; noise_scale := 0.2;
        pattern := "ore"; ore_color := Some (RGB 10 10 10); sparkle := None; glow := None |});
    ("iron_block", {| base_color := RGB 180 180 190; variation := 20; noise_scale := 0.15;
        pattern := "metallic"; ore_color := Some (RGB 160 140 130); sparkle := None; glow := None |});
    ("copper_block", {| base_color := RGB 184 115 51; variation := 20; noise_scale := 0.15;
        pattern := "metallic"; ore_color := Some (RGB 150 90 40); sparkle := None; glow := None |});
    ("gold_block", {| base_color := RGB 255 215 0; variation := 25; noise_scale := 0.15;
        pattern := "metallic"; ore_color := Some (RGB 220 180 0); sparkle := None; glow := None |});
    ("diamond_block", {| base_color := RGB 100 200 255; variation := 30; noise_scale := 0.1;
        pattern := "crystalline"; ore_color := None; sparkle := Some true; glow := None |});
    ("emerald_block", {| base_color := RGB 50 205 50; variation := 28; noise_scale := 0.12;
        pattern := "crystalline"; ore_color := None; sparkle := Some true; glow := None |});
    ("ruby_block", {| base_color := RGB 224 17 95; variation := 30; noise_scale := 0.12;
        pattern := "crystalline"; ore_color := None; sparkle := Some true; glow := None |});
    ("sapphire_block", {| base_color := RGB 15 82 186; variation := 28; noise_scale := 0.12;
        pattern := "crystalline"; ore_color := None; sparkle := Some true; glow := None |});
    ("amethyst", {| base_color := RGB 153 102 204; variation := 30; noise_scale := 0.12;
        pattern := "crystalline"; ore_color := None; sparkle := Some true; glow := None |});
    ("quartz", {| base_color := RGB 230 230 240; variation := 18; noise_scale := 0.15;
        pattern := "crystalline"; ore_color := None; sparkle := None; glow := None |});
    ("crystal_blue", {| base_color := RGB 80 150 255; variation := 25; noise_scale := 0.12;
        pattern := "crystalline"; ore_color := None; sparkle := Some true; glow := None |});
    ("crystal_green", {| base_color := RGB 50 255 150; variation := 25; noise_scale := 0.12;
        pattern := "crystalline"; ore_color := None; sparkle := Some true; glow := None |});
    ("crystal_purple", {| base_color := RGB 180 100 255; variation := 25; noise_scale := 0.12;
        pattern := "crystalline"; ore_color := None; sparkle := Some true; glow := None |});
    ("crystal_pink", {| base_color := RGB 255 120 200; variation := 25; noise_scale := 0.12;
        pattern := "crystalline"; ore_color := None; sparkle := Some true; glow := None |});
    ("salt_block", {| base_color := RGB 240 240 250; variation := 10; noise_scale := 0.15;
        pattern := "crystalline"; ore_color := None; sparkle := None; glow := None |});
    ("mushroom_block", {| base_color := RGB 200 180 160; variation := 25; noise_scale := 0.3;
        pattern := "organic"; ore_color := None; sparkle := None; glow := None |});
    ("coral", {| base_color := RGB 255 127 80; variation := 30; noise_scale := 0.25;
        pattern := "organic"; ore_color := None; sparkle := None; glow := None |});
    ("water", {| base_color := RGB 40 80 180; variation := 20; noise_scale := 0.2;
        pattern := "fluid"; ore_color := None; sparkle := None; glow := None |})
  ]%string.

(** A descriptor as the catalog is meant to hold them: a known pattern, an
    ore colour exactly for the patterns that read it, the optional flags
    only where they are read, a positive scale and amplitude, and colours
    that fit a byte. *)
Definition well_formed (c : config) : Prop :=
  pattern c ∈ known_patterns /\
  (is_Some (ore_color c) <->
   pattern c = "metallic"%string \/ pattern c = "ore"%string) /\
  (is_Some (sparkle c) -> pattern c = "crystalline"%string) /\
  (is_Some (glow c) -> pattern c = "fluid"%string) /\
  0 < noise_scale c /\ (0 < variation c)%Z /\
  valid_pixel (base_color c) /\
  (forall col, ore_color c = Some col -> valid_pixel col).

End BlockTextures.

(** ** The 3D smooth noise as the design document words it *)

Module Reference.

(** [a mod 1.0] for a non-negative real: its fractional part. *)
Definition mod1 (a : R) : R := frac_part a.

Definition hash (v : R) : R :=
  mod1 (Rabs (sin (v * 12.9898 + 78.233) * 43758.5453)).

Definition smooth (t : R) : R := t * t * (3 - 2 * t).

(** Linear interpolation from [a] (at [t = 0]) to [b] (at [t = 1]). *)
Definition lerp (a b t : R) : R := a + t * (b - a).

Definition perlinNoise3D (x y z : R) : R :=
  let ix := (Zfloor x mod 256)%Z in
  let iy := (Zfloor y mod 256)%Z in
  let iz := (Zfloor z mod 256)%Z in
  let u := smooth (x - IZR (Zfloor x)) in
  let v := smooth (y - IZR (Zfloor y)) in
  let w := smooth (z - IZR (Zfloor z)) in
  let corner (dx dy dz : Z) : R :=
    hash (IZR ((ix + dx) + (iy + dy) * 57 + (iz + dz) * 113)) in
  let along_x (dy dz : Z) : R :=
    lerp (corner 0%Z dy dz) (corner 1%Z dy dz) u in
  let along_y (dz : Z) : R := lerp (along_x 0%Z dz) (along_x 1%Z dz) v in
  lerp (along_y 0%Z) (along_y 1%Z) w.

End Reference.

(** * Properties *)

(** ** Numeric conversions *)

Lemma float_mod1_range (a : R) : 0 <= float_mod1 a < 1.
Proof.
  unfold float_mod1. pose proof (Zfloor_bound a) as [Hlo Hhi]. lra.
Qed.

Lemma np_clip_range (v lo hi : R) : lo <= hi -> lo <= np_clip v lo hi <= hi.
Proof.
  intros Hle. unfold np_clip, Rmin, Rmax.
  destruct (Rle_dec v lo); destruct (Rle_dec _ hi); lra.
Qed.

Lemma np_clip_id (v lo hi : R) : lo <= v <= hi -> np_clip v lo hi = v.
Proof.
  intros [Hlo Hhi]. unfold np_clip, Rmin, Rmax.
  destruct (Rle_dec v lo); destruct (Rle_dec _ hi); lra.
Qed.

Lemma py_int_nonneg (r : R) : 0 <= r -> py_int r = Zfloor r.
Proof. intros H. unfold py_int. destruct (Rle_dec 0 r); [reflexivity | lra]. Qed.

Lemma py_int_range (r : R) (lo hi : Z) :
  (0 <= lo)%Z -> IZR lo <= r <= IZR hi -> (lo <= py_int r <= hi)%Z.
Proof.
  intros Hlo [H1 H2].
  assert (0 <= r) by (apply IZR_le in Hlo; lra).
  rewrite py_int_nonneg by assumption. split.
  - now apply Zfloor_lub.
  - rewrite <- (ZfloorZ hi). now apply Zfloor_le.
Qed.

Lemma py_int_IZR (k : Z) : py_int (IZR k) = k.
Proof.
  unfold py_int. destruct (Rle_dec 0 (IZR k)).
  - apply ZfloorZ.
  - unfold Zceil. rewrite <- opp_IZR, ZfloorZ. lia.
Qed.

Lemma wrap_uint8_id (v : Z) : (0 <= v <= 255)%Z -> wrap_uint8 v = v.
Proof. intros H. unfold wrap_uint8. apply Z.mod_small. lia. Qed.

(** ** Loops *)

(** A loop whose body never raises and preserves [P] ends in a state
    satisfying [P]. *)
Lemma for_each_invariant {A S : Type} (P : S -> Prop) (Q : A -> Prop)
    (body : A -> S -> result S) (xs : list A) (s : S) :
  (forall x s0, Q x -> P s0 -> exists s1, body x s0 = Ok s1 /\ P s1) ->
  Forall Q xs -> P s ->
  exists s', for_each body xs s = Ok s' /\ P s'.
Proof.
  intros Hbody HQ. revert s. induction HQ as [|x xs Hx HQ IH]; intros s Hs; simpl.
  - eauto.
  - destruct (Hbody x s Hx Hs) as (s1 & -> & Hs1). simpl. now apply IH.
Qed.

Lemma fold_left_invariant {A B : Type} (P : A -> Prop) (f : A -> B -> A)
    (l : list B) (a : A) :
  (forall a0 b, P a0 -> P (f a0 b)) -> P a -> P (fold_left f l a).
Proof.
  intros Hf. revert a. induction l as [|b l IH]; intros a Ha; simpl; auto.
Qed.

(** ** The noise primitives of the cloud generator *)

Module CloudNoiseFacts.
Import CloudNoise.

Lemma hash_float_range (x : R) : 0 <= hash_float x < 1.
Proof. apply float_mod1_range. Qed.

Lemma smoothstep_range (t : R) : 0 <= t < 1 -> 0 <= t * t * (3.0 - 2.0 * t) < 1.
Proof.
  intros [H0 H1].
  assert (0 < (1 - t) * (1 - t) * (1 + 2 * t)) as Hpos.
  { apply Rmult_lt_0_compat; [apply Rmult_lt_0_compat|]; lra. }
  assert (0 <= t * t * (3 - 2 * t)) as Hnn.
  { apply Rmult_le_pos; [apply Rmult_le_pos|]; lra. }
  split; lra.
Qed.

Lemma mix_range (a b t : R) :
  0 <= a < 1 -> 0 <= b < 1 -> 0 <= t < 1 -> 0 <= a * (1 - t) + b * t < 1.
Proof. intros [? ?] [? ?] [? ?]. split; nra. Qed.

Lemma perlin_noise_3d_range (x y z : R) : 0 <= perlin_noise_3d x y z < 1.
Proof.
  unfold perlin_noise_3d.
  pose proof (Zfloor_bound x) as Hx.
  pose proof (Zfloor_bound y) as Hy.
  pose proof (Zfloor_bound z) as Hz.
  cbv zeta.
  repeat apply mix_range;
    try apply hash_float_range; apply smoothstep_range; lra.
Qed.

Lemma cell_distance_nonneg (x y z cx cy cz : R) (dz dy dx : Z) :
  0 <= cell_distance x y z cx cy cz dz dy dx.
Proof. unfold cell_distance. cbv zeta. apply sqrt_pos. Qed.

Lemma Rmin_unit_range (md d : R) : 0 <= md <= 1 -> 0 <= d -> 0 <= Rmin md d <= 1.
Proof. intros [H0 H1] Hd. unfold Rmin. destruct (Rle_dec _ _); lra. Qed.

Lemma worley_noise_3d_unfold (x y z : R) :
  worley_noise_3d x y z =
  1 - fold_left Rmin
        (map (fun '(dz, dy, dx) =>
                cell_distance x y z (IZR (Zfloor x)) (IZR (Zfloor y))
                  (IZR (Zfloor z)) dz dy dx) neighbours) 1.
Proof.
  assert (1.0 = 1) as H10 by lra.
  unfold worley_noise_3d, neighbours, offsets. rewrite !H10.
  cbn -[cell_distance Rmin IZR Zfloor]. reflexivity.
Qed.

Lemma fold_Rmin_unit_range (ds : list R) (md : R) :
  Forall (fun d => 0 <= d) ds -> 0 <= md <= 1 -> 0 <= fold_left Rmin ds md <= 1.
Proof.
  intros Hds. revert md. induction Hds as [|d ds Hd Hds IH]; intros md Hmd; simpl.
  - assumption.
  - apply IH. now apply Rmin_unit_range.
Qed.

Lemma worley_noise_3d_unit_range (x y z : R) : 0 <= worley_noise_3d x y z <= 1.
Proof.
  rewrite worley_noise_3d_unfold.
  match goal with |- context [fold_left Rmin ?ds 1] =>
    pose proof (fold_Rmin_unit_range ds 1) as Hr end.
  assert (0 <= 1 <= 1) as H1 by lra.
  specialize (fun H => Hr H H1).
  match type of Hr with ?P -> _ => assert P as Hnn end.
  { apply Forall_map, Forall_forall. intros [[dz dy] dx] _.
    apply cell_distance_nonneg. }
  specialize (Hr Hnn). lra.
Qed.

Lemma voxel_value_range (size x y z : nat) :
  (0 <= voxel_value size x y z <= 255)%Z.
Proof.
  unfold voxel_value. cbv zeta.
  match goal with |- context [np_clip ?b _ _] =>
    pose proof (np_clip_range b 0.0 1.0 ltac:(lra)) as Hc end.
  apply py_int_range; [lia|]. lra.
Qed.

Lemma progress_interval_nonzero (size : nat) :
  (20 <= size * size * size)%nat -> (size * size * size / 20 <> 0)%nat.
Proof. intros H. rewrite Nat.div_small_iff by lia. lia. Qed.

End CloudNoiseFacts.

(** ** Claims about the 3D noise primitives *)

(** C6. For all real inputs the 3D smooth noise of the script equals the
    reference definition of the design document: the cell coordinates are
    the floors taken mod 256, the fractional offsets are smoothed by
    [t*t*(3 - 2*t)], the eight corners are hashed at
    [ix + iy*57 + iz*113] (with the +1 offsets per axis), and the corners
    are interpolated linearly along x, then y, then z; the scalar hash is
    [|sin(v*12.9898 + 78.233) * 43758.5453| mod 1.0]. *)
Theorem perlin_noise_3d_refines_reference :
  (forall v : R, CloudNoise.hash_float v = Reference.hash v) /\
  (forall x y z : R,
     CloudNoise.perlin_noise_3d x y z = Reference.perlinNoise3D x y z).
Proof.
  split; [reflexivity|].
  intros x y z.
  unfold CloudNoise.perlin_noise_3d, Reference.perlinNoise3D.
  cbv zeta.
  change 255%Z with (Z.ones 8).
  rewrite !Z.land_ones by lia.
  change (2 ^ 8)%Z with 256%Z.
  fold (Reference.hash).
  unfold Reference.lerp, Reference.smooth.
  change CloudNoise.hash_float with Reference.hash.
  rewrite !Z.add_0_r.
  lra.
Qed.

(** C7. The Worley noise is [1 - m] where [m] is the minimum of the initial
    bound 1 and the 27 non-negative distances to the feature points of the
    neighbour cells, so it lies in [[0, 1]] for all real coordinates. *)
Theorem worley_noise_3d_range (x y z : R) :
  let distances :=
    map (fun '(dz, dy, dx) =>
           CloudNoise.cell_distance x y z (IZR (Zfloor x)) (IZR (Zfloor y))
             (IZR (Zfloor z)) dz dy dx) CloudNoise.neighbours in
  length distances = 27%nat /\
  Forall (fun d => 0 <= d) distances /\
  CloudNoise.worley_noise_3d x y z = 1 - fold_left Rmin distances 1 /\
  0 <= CloudNoise.worley_noise_3d x y z <= 1.
Proof.
  intros distances.
  assert (Forall (fun d => 0 <= d) distances) as Hnn.
  { unfold distances. apply Forall_map, Forall_forall.
    intros [[dz dy] dx] _. apply CloudNoiseFacts.cell_distance_nonneg. }
  assert (CloudNoise.worley_noise_3d x y z = 1 - fold_left Rmin distances 1) as Heq.
  { apply CloudNoiseFacts.worley_noise_3d_unfold. }
  split; [reflexivity|]. split; [assumption|]. split; [assumption|].
  apply CloudNoiseFacts.worley_noise_3d_unit_range.
Qed.

(** C10. The 3D smooth noise lies in [[0, 1)] for all real inputs; hence at
    every voxel the blend [0.6*perlin + 0.4*worley] already lies in
    [[0, 1]] before the clamp (the clamp leaves it unchanged), the
    quantised intensity lies in [[0, 255]], and storing it in an 8-bit
    cell does not wrap. *)
Theorem perlin_range_and_voxel_no_wrap :
  (forall x y z : R, 0 <= CloudNoise.perlin_noise_3d x y z < 1) /\
  (forall x y z x' y' z' : R,
     let blend := CloudNoise.perlin_noise_3d x y z * 0.6
                  + CloudNoise.worley_noise_3d x' y' z' * 0.4 in
     0 <= blend <= 1 /\ np_clip blend 0.0 1.0 = blend /\
     (0 <= py_int (blend * 255) <= 255)%Z) /\
  (forall size x y z : nat,
     (0 <= CloudNoise.voxel_value size x y z <= 255)%Z /\
     wrap_uint8 (CloudNoise.voxel_value size x y z)
     = CloudNoise.voxel_value size x y z).
Proof.
  assert (forall x y z x' y' z' : R,
            0 <= CloudNoise.perlin_noise_3d x y z * 0.6
                 + CloudNoise.worley_noise_3d x' y' z' * 0.4 <= 1) as Hblend.
  { intros x y z x' y' z'.
    pose proof (CloudNoiseFacts.perlin_noise_3d_range x y z) as Hp.
    pose proof (CloudNoiseFacts.worley_noise_3d_unit_range x' y' z') as Hw.
    lra. }
  split; [apply CloudNoiseFacts.perlin_noise_3d_range|]. split.
  - intros x y z x' y' z' blend. specialize (Hblend x y z x' y' z').
    fold blend in Hblend. split; [assumption|]. split.
    + apply np_clip_id. lra.
    + apply py_int_range; [lia|]. lra.
  - intros size x y z.
    pose proof (CloudNoiseFacts.voxel_value_range size x y z) as Hr.
    split; [assumption|]. now apply wrap_uint8_id.
Qed.

(** ** The voxel array and its serialisation *)

Module VolumeFacts.
Import CloudNoise.

Section Uniform.
Context {A : Type}.
Variable n : nat.

Lemma concat_lookup_uniform (ls : list (list A)) (j i : nat) :
  Forall (fun l => length l = n) ls -> (i < n)%nat ->
  concat ls !! (j * n + i)%nat = (l ← ls !! j; l !! i).
Proof.
  intros Hls Hi. revert j.
  induction Hls as [|l ls Hl Hls IH]; intros j; [now destruct j|].
  destruct j as [|j]; simpl.
  - now rewrite lookup_app_l by lia.
  - rewrite lookup_app_r by lia.
    replace (n + j * n + i - length l)%nat with (j * n + i)%nat by lia.
    apply IH.
Qed.

Lemma concat_length_uniform (ls : list (list A)) :
  Forall (fun l => length l = n) ls ->
  length (concat ls) = (length ls * n)%nat.
Proof.
  induction 1 as [|l ls Hl Hls IH]; simpl; [reflexivity|].
  rewrite length_app, IH, Hl. reflexivity.
Qed.
End Uniform.

Lemma has_shape3_planes (size : nat) (a : ndarray3) :
  has_shape3 size a -> Forall (fun plane => length plane = size) a.
Proof. intros [_ H]. eapply Forall_impl; [exact H|]. now intros plane [? _]. Qed.

Lemma has_shape3_rows (size : nat) (a : ndarray3) :
  has_shape3 size a -> Forall (fun row => length row = size) (concat a).
Proof.
  intros [_ H]. apply Forall_concat.
  eapply Forall_impl; [exact H|]. now intros plane [_ ?].
Qed.

Lemma zeros3_shape (size : nat) : has_shape3 size (zeros3 size).
Proof.
  unfold zeros3. split; [apply length_replicate|].
  apply Forall_replicate. split; [apply length_replicate|].
  apply Forall_replicate, length_replicate.
Qed.

Lemma tobytes_length (size : nat) (a : ndarray3) :
  has_shape3 size a -> length (tobytes a) = (size * size * size)%nat.
Proof.
  intros Ha. unfold tobytes.
  rewrite (concat_length_uniform size) by now apply has_shape3_rows.
  rewrite (concat_length_uniform size) by now apply has_shape3_planes.
  destruct Ha as [-> _]. reflexivity.
Qed.

(** C order: cell [(z, y, x)] is serialised at offset
    [x + y*size + z*size*size]. *)
Lemma tobytes_lookup (size : nat) (a : ndarray3) (z y x : nat) :
  has_shape3 size a -> (y < size)%nat -> (x < size)%nat ->
  tobytes a !! (x + y * size + z * size * size)%nat = getitem3 a z y x.
Proof.
  intros Ha Hy Hx. unfold tobytes, getitem3.
  replace (x + y * size + z * size * size)%nat
    with ((z * size + y) * size + x)%nat by lia.
  rewrite (concat_lookup_uniform size) by (auto using has_shape3_rows).
  rewrite (concat_lookup_uniform size) by (auto using has_shape3_planes).
  destruct (a !! z) as [plane|]; simpl; reflexivity.
Qed.

Lemma getitem3_in_shape (size : nat) (a : ndarray3) (z y x : nat) :
  has_shape3 size a -> (z < size)%nat -> (y < size)%nat -> (x < size)%nat ->
  exists plane row,
    a !! z = Some plane /\ plane !! y = Some row /\
    length plane = size /\ length row = size /\
    Forall (fun row => length row = size) plane.
Proof.
  intros [Hlen Hall] Hz Hy Hx.
  destruct (lookup_lt_is_Some_2 a z) as [plane Hplane]; [lia|].
  pose proof (proj1 (Forall_lookup _ _) Hall z plane Hplane) as [Hpl Hrows].
  destruct (lookup_lt_is_Some_2 plane y) as [row Hrow]; [lia|].
  pose proof (proj1 (Forall_lookup _ _) Hrows y row Hrow) as Hrl.
  exists plane, row. auto.
Qed.

(** An assignment inside the shape succeeds, keeps the shape, stores the
    wrapped value, and leaves every other cell alone. *)
Lemma setitem3_spec (size : nat) (a : ndarray3) (z y x : nat) (v : Z) :
  has_shape3 size a -> (z < size)%nat -> (y < size)%nat -> (x < size)%nat ->
  exists a',
    setitem3 a z y x v = Ok a' /\ has_shape3 size a' /\
    getitem3 a' z y x = Some (wrap_uint8 v) /\
    (forall z' y' x', (z', y', x') <> (z, y, x) ->
       getitem3 a' z' y' x' = getitem3 a z' y' x').
Proof.
  intros Ha Hz Hy Hx.
  destruct (getitem3_in_shape size a z y x Ha Hz Hy Hx)
    as (plane & row & Hplane & Hrow & Hpl & Hrl & Hrows).
  unfold setitem3. rewrite Hplane, Hrow.
  destruct (decide (x < length row)%nat) as [_|Hn]; [|lia].
  eexists. split; [reflexivity|].
  destruct Ha as [Hlen Hall].
  split; [|split].
  - split; [now rewrite length_insert|].
    apply Forall_insert; [assumption|].
    split; [now rewrite length_insert|].
    apply Forall_insert; [assumption|]. now rewrite length_insert.
  - unfold getitem3.
    rewrite list_lookup_insert_eq by lia. simpl.
    rewrite list_lookup_insert_eq by lia. simpl.
    apply list_lookup_insert_eq. lia.
  - intros z' y' x' Hne. unfold getitem3.
    destruct (decide (z = z')) as [<-|Hzz].
    2:{ now rewrite list_lookup_insert_ne by assumption. }
    rewrite list_lookup_insert_eq by lia. rewrite Hplane. simpl.
    destruct (decide (y = y')) as [<-|Hyy].
    2:{ now rewrite list_lookup_insert_ne by assumption. }
    rewrite list_lookup_insert_eq by lia. rewrite Hrow. simpl.
    apply list_lookup_insert_ne. congruence.
Qed.

End VolumeFacts.

(** ** The voxel loops *)

Lemma for_each_prefix_invariant {A S : Type} (I : list A -> S -> Prop)
    (Q : A -> Prop) (body : A -> S -> result S) (xs : list A) (s : S) :
  (forall pre x s0, Q x -> I pre s0 ->
     exists s1, body x s0 = Ok s1 /\ I (pre ++ [x]) s1) ->
  Forall Q xs -> I [] s ->
  exists s', for_each body xs s = Ok s' /\ I xs s'.
Proof.
  intros Hbody HQ Hs.
  enough (forall pre s0, I pre s0 ->
            exists s', for_each body xs s0 = Ok s' /\ I (pre ++ xs) s') as Hgen
    by (apply (Hgen [] s Hs)).
  clear s Hs. induction HQ as [|x xs Hx HQ IH]; intros pre s0 Hs0; simpl.
  - rewrite app_nil_r. eauto.
  - destruct (Hbody pre x s0 Hx Hs0) as (s1 & -> & Hs1). simpl.
    replace (pre ++ x :: xs) with ((pre ++ [x]) ++ xs)
      by (rewrite <- app_assoc; reflexivity).
    now apply IH.
Qed.

Lemma range_bounded (n : nat) : Forall (fun i => (i < n)%nat) (range n).
Proof. apply Forall_forall. intros i Hi. apply elem_of_seq in Hi. lia. Qed.

Lemma elem_of_range (n i : nat) : i ∈ range n <-> (i < n)%nat.
Proof. unfold range. rewrite elem_of_seq. lia. Qed.

Module GenerateFacts.
Import CloudNoise VolumeFacts.

Lemma written_weaken (size : nat) (P P' : nat -> nat -> nat -> Prop) (a : ndarray3) :
  (forall z y x, P' z y x -> P z y x) -> written size P a -> written size P' a.
Proof. intros Hsub [Hsh Hval]. split; auto. Qed.

Section Loops.
Variable size : nat.
Hypothesis progress_interval_pos : (size * size * size / 20 <> 0)%nat.

Lemma voxel_step (P : nat -> nat -> nat -> Prop) (a : ndarray3) (z y x : nat) :
  written size P a -> (z < size)%nat -> (y < size)%nat -> (x < size)%nat ->
  exists a',
    (_ ← py_mod (x + y * size + z * size * size) (size * size * size / 20);
     setitem3 a z y x (voxel_value size x y z)) = Ok a' /\
    written size (fun z' y' x' => P z' y' x' \/ (z', y', x') = (z, y, x)) a'.
Proof.
  intros [Hsh Hval] Hz Hy Hx.
  destruct (setitem3_spec size a z y x (voxel_value size x y z) Hsh Hz Hy Hx)
    as (a' & Hset & Hsh' & Hnew & Hold).
  exists a'. split.
  - unfold py_mod. destruct (decide _) as [H0|_]; [contradiction|].
    simpl. exact Hset.
  - split; [assumption|].
    intros z' y' x' [HP|Heq].
    + destruct (decide ((z', y', x') = (z, y, x))) as [E|E].
      * injection E as -> -> ->. exact Hnew.
      * rewrite Hold by assumption. now apply Hval.
    + injection Heq as -> -> ->. exact Hnew.
Qed.

Lemma x_loop (P : nat -> nat -> nat -> Prop) (a : ndarray3) (z y : nat) :
  written size P a -> (z < size)%nat -> (y < size)%nat ->
  exists a',
    for_each (fun x noise_data =>
        _ ← py_mod (x + y * size + z * size * size) (size * size * size / 20);
        setitem3 noise_data z y x (voxel_value size x y z))
      (range size) a = Ok a' /\
    written size
      (fun z' y' x' => P z' y' x' \/ (z' = z /\ y' = y /\ (x' < size)%nat)) a'.
Proof.
  intros Ha Hz Hy.
  edestruct (for_each_prefix_invariant
    (fun pre a0 => written size
       (fun z' y' x' => P z' y' x' \/ (z' = z /\ y' = y /\ x' ∈ pre)) a0)
    (fun x => (x < size)%nat)) as (a' & Hrun & Ha');
    [| apply range_bounded | | exists a'; split; [exact Hrun|]].
  - intros pre x a0 Hx Ha0.
    destruct (voxel_step _ a0 z y x Ha0 Hz Hy Hx) as (a1 & -> & Ha1).
    exists a1. split; [reflexivity|].
    eapply written_weaken; [|exact Ha1].
    intros z' y' x' [HP|(-> & -> & Hin)]; [tauto|].
    apply elem_of_app in Hin as [Hin|Hin]; [tauto|].
    apply list_elem_of_singleton in Hin as ->. now right.
  - eapply written_weaken; [|exact Ha].
    intros z' y' x' [HP|(_ & _ & Hin)]; [assumption|].
    now apply elem_of_nil in Hin.
  - eapply written_weaken; [|exact Ha'].
    intros z' y' x' [HP|(-> & -> & Hlt)]; [tauto|].
    right. rewrite elem_of_range. tauto.
Qed.

Lemma y_loop (P : nat -> nat -> nat -> Prop) (a : ndarray3) (z : nat) :
  written size P a -> (z < size)%nat ->
  exists a',
    for_each (fun y noise_data =>
      for_each (fun x noise_data =>
          _ ← py_mod (x + y * size + z * size * size) (size * size * size / 20);
          setitem3 noise_data z y x (voxel_value size x y z))
        (range size) noise_data)
      (range size) a = Ok a' /\
    written size
      (fun z' y' x' =>
         P z' y' x' \/ (z' = z /\ (y' < size)%nat /\ (x' < size)%nat)) a'.
Proof.
  intros Ha Hz.
  edestruct (for_each_prefix_invariant
    (fun pre a0 => written size
       (fun z' y' x' =>
          P z' y' x' \/ (z' = z /\ y' ∈ pre /\ (x' < size)%nat)) a0)
    (fun y => (y < size)%nat)) as (a' & Hrun & Ha');
    [| apply range_bounded | | exists a'; split; [exact Hrun|]].
  - intros pre y a0 Hy Ha0.
    destruct (x_loop _ a0 z y Ha0 Hz Hy) as (a1 & -> & Ha1).
    exists a1. split; [reflexivity|].
    eapply written_weaken; [|exact Ha1].
    intros z' y' x' [HP|(-> & Hin & Hlt)]; [tauto|].
    apply elem_of_app in Hin as [Hin|Hin]; [tauto|].
    apply list_elem_of_singleton in Hin as ->. now right.
  - eapply written_weaken; [|exact Ha].
    intros z' y' x' [HP|(_ & Hin & _)]; [assumption|].
    now apply elem_of_nil in Hin.
  - eapply written_weaken; [|exact Ha'].
    intros z' y' x' [HP|(-> & Hy & Hx)]; [tauto|].
    right. rewrite elem_of_range. tauto.
Qed.

(** The generator returns: every voxel of the array it returns holds the
    value computed for it. *)
Lemma generate_3d_noise_written :
  exists data,
    generate_3d_noise size = Ok data /\
    written size
      (fun z y x => (z < size)%nat /\ (y < size)%nat /\ (x < size)%nat) data.
Proof.
  unfold generate_3d_noise. cbv zeta.
  edestruct (for_each_prefix_invariant
    (fun pre a0 => written size
       (fun z' y' x' => z' ∈ pre /\ (y' < size)%nat /\ (x' < size)%nat) a0)
    (fun z => (z < size)%nat)) as (a' & Hrun & Ha');
    [| apply range_bounded | | exists a'; split; [exact Hrun|]].
  - intros pre z a0 Hz Ha0.
    destruct (y_loop _ a0 z Ha0 Hz) as (a1 & -> & Ha1).
    exists a1. split; [reflexivity|].
    eapply written_weaken; [|exact Ha1].
    intros z' y' x' (Hin & Hy & Hx).
    apply elem_of_app in Hin as [Hin|Hin]; [tauto|].
    apply list_elem_of_singleton in Hin as ->. now right.
  - split; [apply zeros3_shape|].
    intros z y x (Hin & _). now apply elem_of_nil in Hin.
  - eapply written_weaken; [|exact Ha'].
    intros z' y' x' (Hz & Hy & Hx). rewrite elem_of_range. tauto.
Qed.
End Loops.

End GenerateFacts.

(** ** The file header *)

Module SerialiseFacts.
Import CloudNoise VolumeFacts.

Lemma decode_le_bytes32 (v : Z) :
  (0 <= v < 2 ^ 32)%Z -> decode_le32 (le_bytes32 v) = Some v.
Proof.
  intros Hv. unfold decode_le32, le_bytes32. f_equal.
  change (2 ^ 32)%Z with 4294967296%Z in Hv. Z.div_mod_to_equations. lia.
Qed.

Lemma le_bytes32_bytes (v : Z) : Forall is_byte (le_bytes32 v).
Proof.
  unfold le_bytes32, is_byte.
  repeat (apply Forall_cons; split; [apply Z.mod_pos_bound; lia|]).
  apply Forall_nil_2.
Qed.

Lemma magic_bytes : bytes_of_string "CN3D" = [67; 78; 51; 68]%Z.
Proof. reflexivity. Qed.

(** The header word: four bytes that denote [v], read in the host's order. *)
Lemma struct_pack_I_spec (host : byteorder) (v : Z) :
  (0 <= v < 2 ^ 32)%Z ->
  exists hdr,
    struct_pack_I host v = Ok hdr /\ length hdr = 4%nat /\ Forall is_byte hdr /\
    decode_le32 (match host with LittleEndian => hdr | BigEndian => rev hdr end)
    = Some v.
Proof.
  intros Hv. unfold struct_pack_I.
  destruct (decide _) as [_|Hn]; [|contradiction].
  eexists. split; [reflexivity|].
  destruct host.
  - split; [reflexivity|]. split; [apply le_bytes32_bytes|].
    now apply decode_le_bytes32.
  - split; [reflexivity|]. split.
    + apply Forall_rev, le_bytes32_bytes.
    + rewrite rev_involutive. now apply decode_le_bytes32.
Qed.

Lemma save_binary_texture_spec (host : byteorder) (size : nat) (data : ndarray3) :
  has_shape3 size data -> (Z.of_nat size < 2 ^ 32)%Z ->
  exists hdr,
    struct_pack_I host (Z.of_nat size) = Ok hdr /\
    save_binary_texture host data
    = Ok (bytes_of_string "CN3D" ++ hdr ++ tobytes data).
Proof.
  intros Hsh Hsize.
  destruct (struct_pack_I_spec host (Z.of_nat size)) as (hdr & Hpack & _);
    [lia|].
  exists hdr. split; [assumption|].
  unfold save_binary_texture. destruct Hsh as [-> _]. now rewrite Hpack.
Qed.

Lemma payload_after_header (hdr payload : list Z) :
  length hdr = 4%nat ->
  drop 8 (bytes_of_string "CN3D" ++ hdr ++ payload) = payload.
Proof.
  intros Hlen. rewrite app_assoc. apply drop_app_length'.
  rewrite length_app, Hlen. reflexivity.
Qed.

End SerialiseFacts.

(** ** Claims about the volumetric generator and its file *)

Lemma voxel_value_blend (size x y z : nat) :
  CloudNoise.voxel_value size x y z =
  py_int
    (np_clip
       (0.6 * CloudNoise.perlin_noise_3d (4 * INR x / INR size)
                (4 * INR y / INR size) (4 * INR z / INR size)
        + 0.4 * CloudNoise.worley_noise_3d (2 * INR x / INR size)
                  (2 * INR y / INR size) (2 * INR z / INR size)) 0 1 * 255).
Proof.
  unfold CloudNoise.voxel_value. cbv zeta.
  replace (INR x / INR size * 4.0) with (4 * INR x / INR size) by lra.
  replace (INR y / INR size * 4.0) with (4 * INR y / INR size) by lra.
  replace (INR z / INR size * 4.0) with (4 * INR z / INR size) by lra.
  replace (INR x / INR size * 2.0) with (2 * INR x / INR size) by lra.
  replace (INR y / INR size * 2.0) with (2 * INR y / INR size) by lra.
  replace (INR z / INR size * 2.0) with (2 * INR z / INR size) by lra.
  replace 0.0 with 0 by lra. replace 1.0 with 1 by lra.
  do 3 f_equal. lra.
Qed.

Lemma INR_128 : INR 128 = 128.
Proof. rewrite INR_IZR_INZ. reflexivity. Qed.

(** C1. With grid side 128 the generator returns an array in which every
    voxel [(x, y, z)] holds
    [int(clamp(0.6*perlin(4x/128, 4y/128, 4z/128)
               + 0.4*worley(2x/128, 2y/128, 2z/128), 0, 1) * 255)]
    (truncated), and in the file written from it the payload byte at offset
    [x + y*128 + z*128^2] is that voxel: z is the slowest index, x the
    fastest. *)
Theorem generate_3d_noise_128_layout (x y z : nat) :
  (x < 128)%nat -> (y < 128)%nat -> (z < 128)%nat ->
  let intensity :=
    py_int
      (np_clip
         (0.6 * CloudNoise.perlin_noise_3d (4 * INR x / 128) (4 * INR y / 128)
                  (4 * INR z / 128)
          + 0.4 * CloudNoise.worley_noise_3d (2 * INR x / 128) (2 * INR y / 128)
                    (2 * INR z / 128)) 0 1 * 255) in
  exists data,
    CloudNoise.generate_3d_noise 128 = Ok data /\
    CloudNoise.getitem3 data z y x = Some intensity /\
    forall host, exists file,
      CloudNoise.save_binary_texture host data = Ok file /\
      drop 8 file !! (x + y * 128 + z * 128 ^ 2)%nat = Some intensity.
Proof.
  intros Hx Hy Hz intensity.
  destruct (GenerateFacts.generate_3d_noise_written 128) as (data & Hgen & Hsh & Hval);
    [apply CloudNoiseFacts.progress_interval_nonzero; lia|].
  assert (CloudNoise.getitem3 data z y x = Some intensity) as Hcell.
  { rewrite (Hval z y x) by auto. f_equal.
    rewrite wrap_uint8_id by apply CloudNoiseFacts.voxel_value_range.
    rewrite voxel_value_blend, INR_128. reflexivity. }
  exists data. split; [exact Hgen|]. split; [exact Hcell|].
  intros host.
  destruct (SerialiseFacts.save_binary_texture_spec host 128 data Hsh)
    as (hdr & Hpack & Hsave); [lia|].
  destruct (SerialiseFacts.struct_pack_I_spec host (Z.of_nat 128))
    as (hdr' & Hpack' & Hlen & _); [lia|].
  assert (hdr' = hdr) as -> by congruence.
  exists (CloudNoise.bytes_of_string "CN3D" ++ hdr ++ CloudNoise.tobytes data).
  split; [exact Hsave|].
  rewrite SerialiseFacts.payload_after_header by assumption.
  replace (z * 128 ^ 2)%nat with (z * 128 * 128)%nat
    by (rewrite Nat.pow_2_r; lia).
  rewrite <- Hcell. now apply (VolumeFacts.tobytes_lookup 128).
Qed.

(** A voxel of the 128-cube, with the array that holds it and the files
    written from that array. *)
Lemma generate_3d_noise_128_layout_witness :
  let intensity :=
    py_int
      (np_clip
         (0.6 * CloudNoise.perlin_noise_3d (4 * INR 5 / 128) (4 * INR 7 / 128)
                  (4 * INR 11 / 128)
          + 0.4 * CloudNoise.worley_noise_3d (2 * INR 5 / 128) (2 * INR 7 / 128)
                    (2 * INR 11 / 128)) 0 1 * 255) in
  exists data,
    CloudNoise.generate_3d_noise 128 = Ok data /\
    CloudNoise.getitem3 data 11 7 5 = Some intensity /\
    forall host, exists file,
      CloudNoise.save_binary_texture host data = Ok file /\
      drop 8 file !! (5 + 7 * 128 + 11 * 128 ^ 2)%nat = Some intensity.
Proof. apply (generate_3d_noise_128_layout 5 7 11); lia. Defined.

(** C2 (as amended). Serialising a voxel array of side [size] (below
    [2^32]) writes the four ASCII bytes of ["CN3D"], then [size] as a
    4-byte unsigned integer in the byte order of the machine running the
    script (least significant byte first on a little-endian machine, most
    significant first on a big-endian one), then the [size^3] payload
    bytes: [8 + size^3] bytes in all, 72 for [size = 4]. *)
Theorem save_binary_texture_layout
    (host : CloudNoise.byteorder) (size : nat) (data : list (list (list Z))) :
  CloudNoise.has_shape3 size data -> (Z.of_nat size < 2 ^ 32)%Z ->
  exists hdr,
    let file := ([67; 78; 51; 68]%Z ++ hdr ++ CloudNoise.tobytes data) in
    CloudNoise.save_binary_texture host data = Ok file /\
    CloudNoise.bytes_of_string "CN3D" = [67; 78; 51; 68]%Z /\
    length hdr = 4%nat /\ Forall CloudNoise.is_byte hdr /\
    CloudNoise.decode_le32
      (match host with
       | CloudNoise.LittleEndian => hdr
       | CloudNoise.BigEndian => rev hdr
       end) = Some (Z.of_nat size) /\
    length (CloudNoise.tobytes data) = (size ^ 3)%nat /\
    length file = (8 + size ^ 3)%nat /\
    (size = 4%nat -> length file = 72%nat).
Proof.
  intros Hsh Hsize.
  destruct (SerialiseFacts.save_binary_texture_spec host size data Hsh Hsize)
    as (hdr & Hpack & Hsave).
  destruct (SerialiseFacts.struct_pack_I_spec host (Z.of_nat size))
    as (hdr' & Hpack' & Hlen & Hbytes & Hdec); [lia|].
  assert (hdr' = hdr) as -> by congruence.
  pose proof (VolumeFacts.tobytes_length size data Hsh) as Hpayload.
  assert (size ^ 3 = size * size * size)%nat as Hcube by (simpl; lia).
  exists hdr. cbv zeta.
  split; [exact Hsave|]. split; [reflexivity|]. split; [exact Hlen|].
  split; [exact Hbytes|]. split; [exact Hdec|].
  split; [congruence|].
  assert (length ([67; 78; 51; 68]%Z ++ hdr ++ CloudNoise.tobytes data)
          = (8 + size ^ 3)%nat) as Htotal.
  { rewrite !length_app, Hlen, Hpayload, Hcube. reflexivity. }
  split; [exact Htotal|].
  intros ->. rewrite Htotal. reflexivity.
Qed.

(** The all-zero volume of side 4 written on a little-endian machine. *)
Lemma save_binary_texture_layout_witness :
  exists hdr,
    let file := ([67; 78; 51; 68]%Z ++ hdr
                 ++ CloudNoise.tobytes (CloudNoise.zeros3 4)) in
    CloudNoise.save_binary_texture CloudNoise.LittleEndian (CloudNoise.zeros3 4)
    = Ok file /\
    CloudNoise.bytes_of_string "CN3D" = [67; 78; 51; 68]%Z /\
    length hdr = 4%nat /\ Forall CloudNoise.is_byte hdr /\
    CloudNoise.decode_le32 hdr = Some (Z.of_nat 4) /\
    length (CloudNoise.tobytes (CloudNoise.zeros3 4)) = (4 ^ 3)%nat /\
    length file = (8 + 4 ^ 3)%nat /\
    (4%nat = 4%nat -> length file = 72%nat).
Proof.
  apply (save_binary_texture_layout CloudNoise.LittleEndian 4
           (CloudNoise.zeros3 4)).
  - apply VolumeFacts.zeros3_shape.
  - vm_compute. reflexivity.
Defined.

(** On a big-endian machine the size word of the side-4 volume is
    [00 00 00 04], not the little-endian [04 00 00 00]. *)
Lemma save_binary_texture_big_endian_host :
  CloudNoise.has_shape3 4 (CloudNoise.zeros3 4) /\
  CloudNoise.save_binary_texture CloudNoise.BigEndian (CloudNoise.zeros3 4)
  = Ok (CloudNoise.bytes_of_string "CN3D" ++ [0; 0; 0; 4]%Z ++ replicate 64 0%Z) /\
  CloudNoise.save_binary_texture CloudNoise.BigEndian (CloudNoise.zeros3 4)
  <> Ok (CloudNoise.bytes_of_string "CN3D" ++ CloudNoise.le_bytes32 4
         ++ CloudNoise.tobytes (CloudNoise.zeros3 4)).
Proof.
  split; [apply VolumeFacts.zeros3_shape|].
  split; [vm_compute; reflexivity|].
  vm_compute. intros H. discriminate H.
Qed.

(** ** The 2D multi-octave noise *)

Module Noise2DFacts.
Import BlockTextures.

Lemma fold_Rmin_lower (vs : list R) (v0 : R) :
  fold_left Rmin vs v0 <= v0 /\ Forall (fun v => fold_left Rmin vs v0 <= v) vs.
Proof.
  revert v0. induction vs as [|v vs IH]; intros v0; simpl.
  - split; [lra | constructor].
  - destruct (IH (Rmin v0 v)) as [H0 Hall].
    pose proof (Rmin_l v0 v). pose proof (Rmin_r v0 v).
    split; [lra|]. constructor; [lra | assumption].
Qed.

Lemma fold_Rmax_upper (vs : list R) (v0 : R) :
  v0 <= fold_left Rmax vs v0 /\ Forall (fun v => v <= fold_left Rmax vs v0) vs.
Proof.
  revert v0. induction vs as [|v vs IH]; intros v0; simpl.
  - split; [lra | constructor].
  - destruct (IH (Rmax v0 v)) as [H0 Hall].
    pose proof (Rmax_l v0 v). pose proof (Rmax_r v0 v).
    split; [lra|]. constructor; [lra | assumption].
Qed.

Lemma field_min_lower (noise : list (list R)) (mn : R) :
  field_min noise = Ok mn -> Forall (fun v => mn <= v) (concat noise).
Proof.
  unfold field_min. destruct (concat noise) as [|v vs]; [discriminate|].
  intros [= <-]. destruct (fold_Rmin_lower vs v). now constructor.
Qed.

Lemma field_max_upper (noise : list (list R)) (mx : R) :
  field_max noise = Ok mx -> Forall (fun v => v <= mx) (concat noise).
Proof.
  unfold field_max. destruct (concat noise) as [|v vs]; [discriminate|].
  intros [= <-]. destruct (fold_Rmax_upper vs v). now constructor.
Qed.

Lemma lookup_in_concat {A : Type} (ls : list (list A)) (y x : nat) (row : list A) (v : A) :
  ls !! y = Some row -> row !! x = Some v -> v ∈ concat ls.
Proof.
  intros Hrow Hv. apply list_elem_of_In, in_concat. exists row.
  split; apply list_elem_of_In; eapply list_elem_of_lookup_2; eassumption.
Qed.

(** What [normalize] returns, entry by entry. *)
Lemma normalize_inv (noise : list (list R)) (field : list (list float)) :
  normalize noise = Ok field ->
  exists mn mx,
    field_min noise = Ok mn /\ field_max noise = Ok mx /\
    field = fmap (M := list) (fmap (M := list) (fun v => np_divide (v - mn) (mx - mn))) noise.
Proof.
  unfold normalize.
  destruct (field_min noise) as [mn|e]; simpl; [|discriminate].
  destruct (field_max noise) as [mx|e]; simpl; [|discriminate].
  intros [= <-]. eauto.
Qed.

Lemma sample_fmap (f : R -> float) (noise : list (list R)) (y x : nat) :
  sample (fmap (M := list) (fmap (M := list) f) noise) y x
  = (row ← noise !! y; v ← row !! x; f v).
Proof.
  unfold sample. rewrite list_lookup_fmap.
  destruct (noise !! y) as [row|]; simpl; [|reflexivity].
  rewrite list_lookup_fmap. now destruct (row !! x).
Qed.

(** Every sample of a normalised field that is a number lies in [[0, 1]]. *)
Lemma normalize_sample_range (noise : list (list R)) (field : list (list float))
    (y x : nat) (n : R) :
  normalize noise = Ok field -> sample field y x = Some n -> 0 <= n <= 1.
Proof.
  intros Hnorm Hn.
  destruct (normalize_inv _ _ Hnorm) as (mn & mx & Hmn & Hmx & ->).
  rewrite sample_fmap in Hn.
  destruct (noise !! y) as [row|] eqn:Hrow; simpl in Hn; [|discriminate].
  destruct (row !! x) as [v|] eqn:Hv; simpl in Hn; [|discriminate].
  pose proof (lookup_in_concat _ _ _ _ _ Hrow Hv) as Hin.
  pose proof (proj1 (Forall_forall _ _) (field_min_lower _ _ Hmn) v Hin) as Hlo.
  pose proof (proj1 (Forall_forall _ _) (field_max_upper _ _ Hmx) v Hin) as Hhi.
  simpl in Hlo, Hhi.
  unfold np_divide in Hn. destruct (Req_dec_T (mx - mn) 0) as [|Hne]; [discriminate|].
  injection Hn as <-.
  assert (0 < mx - mn) as Hpos by lra.
  split.
  - apply Rmult_le_pos; [lra|]. left. now apply Rinv_0_lt_compat.
  - apply Rmult_le_reg_r with (r := mx - mn); [assumption|].
    unfold Rdiv. rewrite Rmult_assoc, Rinv_l by lra. lra.
Qed.

Lemma perlin_noise_2d_sample_range (rand : nat -> nat -> nat -> R)
    (width height : nat) (scale : R) (octaves : nat)
    (field : list (list float)) (y x : nat) (n : R) :
  perlin_noise_2d rand width height scale octaves = Ok field ->
  sample field y x = Some n -> 0 <= n <= 1.
Proof.
  unfold perlin_noise_2d.
  destruct (accumulate rand width height scale octaves) as [noise|e]; simpl;
    [|discriminate].
  apply normalize_sample_range.
Qed.

Lemma pow2_INR_pos (k : nat) : 0 < INR (2 ^ k).
Proof. apply lt_0_INR. pose proof (Nat.pow_nonzero 2 k). lia. Qed.

Lemma pow2_INR_ge_1 (k : nat) : 1 <= INR (2 ^ k).
Proof.
  change 1 with (INR 1). apply le_INR.
  pose proof (Nat.pow_nonzero 2 k). lia.
Qed.

Lemma pow2_INR (k : nat) : INR (2 ^ k) = 2 ^ k.
Proof. rewrite pow_INR. reflexivity. Qed.

Lemma thousand_below_threshold : 1000 < overflow_threshold.
Proof. unfold overflow_threshold. apply IZR_lt. vm_compute. reflexivity. Qed.

(** [2 ** octave] converts to a float exactly for the octaves below 1024. *)
Lemma pow2_below_threshold (k : nat) :
  (k < 1024)%nat -> INR (2 ^ k) < overflow_threshold.
Proof.
  intros Hk. rewrite pow2_INR.
  apply Rle_lt_trans with (r2 := 2 ^ 1023).
  - apply Rle_pow; [lra | lia].
  - unfold overflow_threshold. rewrite (pow_IZR 2 1023).
    apply IZR_lt. vm_compute. reflexivity.
Qed.

Lemma pow2_above_threshold (k : nat) :
  (1024 <= k)%nat -> overflow_threshold <= INR (2 ^ k).
Proof.
  intros Hk. rewrite pow2_INR.
  apply Rle_trans with (r2 := 2 ^ 1024).
  - unfold overflow_threshold. rewrite (pow_IZR 2 1024).
    apply IZR_le. vm_compute. discriminate.
  - apply Rle_pow; [lra | lia].
Qed.

Lemma scale_in_range_nonzero (width : nat) (scale : R) :
  scale_in_range width scale -> scale <> 0.
Proof.
  unfold scale_in_range. intros Hr ->. rewrite Rabs_R0 in Hr.
  pose proof (pos_INR width). lra.
Qed.

(** A sufficient bound: [width < 640 * |scale|]. *)
Lemma scale_in_range_of_bound (width : nat) (scale : R) :
  INR width < 640 * Rabs scale -> scale_in_range width scale.
Proof.
  intros Hb. unfold scale_in_range.
  pose proof (Rabs_pos scale) as Habs. lra.
Qed.

(** Proves [scale_in_range width scale] for a literal scale and width. *)
Ltac ordinary_scale :=
  apply scale_in_range_of_bound; rewrite Rabs_pos_eq by lra; simpl; lra.

(** In range, the quotient does not overflow at any frequency. *)
Lemma quotient_in_range (width : nat) (scale : R) (k : nat) :
  scale_in_range width scale ->
  Rabs (INR width / (10 * scale * INR (2 ^ k))) < overflow_threshold.
Proof.
  intros Hr. pose proof (scale_in_range_nonzero _ _ Hr) as Hs.
  unfold scale_in_range in Hr.
  pose proof (pow2_INR_ge_1 k) as Hf. pose proof (pos_INR width) as Hw.
  pose proof (Rabs_pos_lt scale Hs) as Habs.
  apply Rlt_trans with (r2 := 1000); [|apply thousand_below_threshold].
  assert (Rabs (10 * scale * INR (2 ^ k)) = 10 * Rabs scale * INR (2 ^ k)) as Hd.
  { rewrite !Rabs_mult, (Rabs_pos_eq 10), (Rabs_pos_eq (INR _)) by lra.
    reflexivity. }
  unfold Rdiv. rewrite Rabs_mult, Rabs_inv, Hd, (Rabs_pos_eq (INR width)) by lra.
  apply Rmult_lt_reg_r with (r := 10 * Rabs scale * INR (2 ^ k)); [nra|].
  rewrite Rmult_assoc, Rinv_l by nra. nra.
Qed.

Lemma grid_size_ok (width : nat) (scale : R) (k : nat) :
  (k < 1024)%nat -> scale_in_range width scale ->
  exists gs, grid_size width scale (2 ^ k) = Ok gs.
Proof.
  intros Hk Hr. unfold grid_size. cbv zeta.
  pose proof (pow2_below_threshold k Hk) as Hf.
  pose proof (quotient_in_range width scale k Hr) as Hq.
  pose proof (scale_in_range_nonzero _ _ Hr) as Hs.
  pose proof (pow2_INR_pos k) as Hp.
  destruct (Rle_dec _ (INR (2 ^ k))) as [H|_]; [lra|].
  destruct (Req_dec_T _ 0) as [H0|_].
  { exfalso. apply Rmult_integral in H0 as [H0|H0]; [|lra].
    apply Rmult_integral in H0 as [H0|H0]; [lra|contradiction]. }
  destruct (Rle_dec _ (Rabs _)) as [H|_]; [lra|]. eauto.
Qed.

(** The two ways the grid size raises. *)
Lemma grid_size_raise (width : nat) (scale : R) (k : nat) (e : exn) :
  grid_size width scale (2 ^ k) = Raise e ->
  (e = ZeroDivisionError /\ scale = 0 /\ (k < 1024)%nat) \/
  (e = OverflowError /\
   ((1024 <= k)%nat \/ (scale <> 0 /\ ~ scale_in_range width scale))).
Proof.
  unfold grid_size. cbv zeta.
  destruct (Rle_dec _ (INR (2 ^ k))) as [Hf|Hf].
  { intros [= <-]. right. split; [reflexivity|]. left.
    destruct (le_lt_dec 1024 k) as [H|H]; [exact H|].
    pose proof (pow2_below_threshold k H). lra. }
  assert (k < 1024)%nat as Hk.
  { destruct (le_lt_dec 1024 k) as [H|H]; [|exact H].
    pose proof (pow2_above_threshold k H). lra. }
  destruct (Req_dec_T _ 0) as [H0|Hd].
  { intros [= <-]. left. split; [reflexivity|]. split; [|exact Hk].
    pose proof (pow2_INR_pos k).
    apply Rmult_integral in H0 as [H0|H0]; [|lra].
    apply Rmult_integral in H0 as [H0|H0]; lra. }
  destruct (Rle_dec _ (Rabs _)) as [Hq|_]; [|discriminate].
  intros [= <-]. right. split; [reflexivity|]. right. split.
  - intros ->. apply Hd. lra.
  - intros Hr. pose proof (quotient_in_range width scale k Hr). lra.
Qed.

Lemma imap_rows_shape {A B : Type} (height width : nat)
    (g : nat -> nat -> A -> B) (a : list (list A)) :
  has_shape2 height width a ->
  has_shape2 height width (imap (fun y row => imap (g y) row) a).
Proof.
  intros [Hlen Hrows]. split; [now rewrite length_imap|].
  apply Forall_forall. intros row' Hin.
  apply elem_of_lookup_imap in Hin as (y & row & -> & Hrow).
  rewrite length_imap.
  apply (proj1 (Forall_forall _ _) Hrows). eapply list_elem_of_lookup_2, Hrow.
Qed.

(** With a scale of ordinary size and at most 1024 octaves the octave loop
    returns, and the field it returns has the requested shape. *)
Lemma accumulate_shape (rand : nat -> nat -> nat -> R) (width height : nat)
    (scale : R) (octaves : nat) :
  (octaves <= 1024)%nat -> scale_in_range width scale ->
  exists noise,
    accumulate rand width height scale octaves = Ok noise /\
    has_shape2 height width noise.
Proof.
  intros Hoct Hs. unfold accumulate.
  apply (for_each_invariant (has_shape2 height width)
           (fun octave => (octave < 1024)%nat)).
  - intros octave noise Hk Hshape.
    destruct (grid_size_ok width scale octave Hk Hs) as (gs & ->). simpl.
    eexists. split; [reflexivity|]. now apply imap_rows_shape.
  - apply Forall_forall. intros octave Hin.
    apply elem_of_seq in Hin. lia.
  - split; [apply length_replicate|].
    apply Forall_replicate, length_replicate.
Qed.

Lemma concat_nonempty {A : Type} (height width : nat) (a : list (list A)) :
  has_shape2 height width a -> (1 <= height)%nat -> (1 <= width)%nat ->
  exists v vs, concat a = v :: vs.
Proof.
  intros [Hlen Hrows] Hh Hw.
  destruct a as [|row a]; simpl in *; [lia|].
  apply Forall_cons in Hrows as [Hrow _].
  destruct row as [|v row]; simpl in *; [lia|]. eauto.
Qed.

(** For positive dimensions, a scale of ordinary size and at most 1024
    octaves the function returns a field of the requested shape without
    raising; its entries are either all NaN (the accumulated field is
    flat: maximum equals minimum) or all numbers in [[0, 1]]. *)
Lemma perlin_noise_2d_outcome (rand : nat -> nat -> nat -> R)
    (width height : nat) (scale : R) (octaves : nat) :
  (1 <= width)%nat -> (1 <= height)%nat ->
  (octaves <= 1024)%nat -> scale_in_range width scale ->
  exists noise mn mx field,
    accumulate rand width height scale octaves = Ok noise /\
    field_min noise = Ok mn /\ field_max noise = Ok mx /\
    perlin_noise_2d rand width height scale octaves = Ok field /\
    has_shape2 height width field /\
    (mx = mn -> Forall (Forall (fun v => v = None)) field) /\
    (mx <> mn ->
     Forall (Forall (fun v => exists n, v = Some n /\ 0 <= n <= 1)) field).
Proof.
  intros Hw Hh Hoct Hs.
  destruct (accumulate_shape rand width height scale octaves Hoct Hs)
    as (noise & Hacc & Hshape).
  destruct (concat_nonempty _ _ _ Hshape Hh Hw) as (v & vs & Hcat).
  assert (exists mn, field_min noise = Ok mn) as [mn Hmn]
    by (unfold field_min; rewrite Hcat; eauto).
  assert (exists mx, field_max noise = Ok mx) as [mx Hmx]
    by (unfold field_max; rewrite Hcat; eauto).
  assert (normalize noise
          = Ok (fmap (M := list)
                  (fmap (M := list) (fun v => np_divide (v - mn) (mx - mn)))
                  noise)) as Hnorm
    by (unfold normalize; rewrite Hmn, Hmx; reflexivity).
  exists noise, mn, mx. eexists.
  split; [exact Hacc|]. split; [exact Hmn|]. split; [exact Hmx|].
  split; [unfold perlin_noise_2d; rewrite Hacc; exact Hnorm|].
  split; [|split].
  - destruct Hshape as [Hlen Hrows]. split; [now rewrite length_fmap|].
    apply Forall_fmap. eapply Forall_impl; [exact Hrows|].
    intros row Hrow. simpl. now rewrite length_fmap.
  - intros ->. apply Forall_fmap, Forall_forall. intros row _. simpl.
    apply Forall_fmap, Forall_forall. intros w _. simpl.
    unfold np_divide. destruct (Req_dec_T (mn - mn) 0); [reflexivity|lra].
  - intros Hne. apply Forall_forall. intros frow Hfrow.
    apply Forall_forall. intros fv Hfv.
    apply list_elem_of_lookup in Hfrow as [y Hy].
    apply list_elem_of_lookup in Hfv as [x Hx].
    assert (sample
              (fmap (M := list)
                 (fmap (M := list) (fun v => np_divide (v - mn) (mx - mn)))
                 noise) y x = fv) as Hsample
      by (unfold sample; rewrite Hy; simpl; rewrite Hx; now destruct fv).
    destruct fv as [n|].
    + exists n. split; [reflexivity|].
      eapply normalize_sample_range; [exact Hnorm | exact Hsample].
    + exfalso. rewrite sample_fmap in Hsample.
      rewrite list_lookup_fmap in Hy.
      destruct (noise !! y) as [row|]; simpl in *; [|discriminate].
      injection Hy as <-. rewrite list_lookup_fmap in Hx.
      destruct (row !! x) as [w|]; simpl in *; [|discriminate].
      unfold np_divide in Hsample.
      destruct (Req_dec_T (mx - mn) 0); [lra|discriminate].
Qed.

(** A single-pixel field is flat, whatever was drawn. *)
Lemma perlin_noise_2d_single_pixel (rand : nat -> nat -> nat -> R)
    (scale : R) (octaves : nat) :
  (octaves <= 1024)%nat -> scale_in_range 1 scale ->
  perlin_noise_2d rand 1 1 scale octaves = Ok [[None]].
Proof.
  intros Hoct Hs.
  destruct (accumulate_shape rand 1 1 scale octaves Hoct Hs)
    as (noise & Hacc & Hlen & Hrows).
  destruct noise as [|row [|row' noise]]; simpl in Hlen; try discriminate.
  apply Forall_cons in Hrows as [Hrow _].
  destruct row as [|v [|v' row]]; simpl in Hrow; try discriminate.
  unfold perlin_noise_2d. rewrite Hacc. simpl.
  unfold normalize, field_min, field_max. simpl.
  unfold np_divide. destruct (Req_dec_T (v - v) 0); [reflexivity|lra].
Qed.

Lemma interpolate_0 (a b : R) : interpolate a b 0 = a.
Proof.
  unfold interpolate. cbv zeta. rewrite Rmult_0_l, cos_0. lra.
Qed.

(** A pixel that falls on a node of the gradient grid takes the gradient
    of that node. *)
Lemma octave_sample_node (gradients : nat -> nat -> R)
    (width height gs : nat) (amp : R) (y x ky kx : nat) :
  INR x / INR width * INR gs = INR kx ->
  INR y / INR height * INR gs = INR ky ->
  octave_sample gradients width height gs amp y x = gradients ky kx * amp.
Proof.
  intros Hx Hy. unfold octave_sample. cbv zeta. rewrite Hx, Hy.
  rewrite !INR_IZR_INZ, !py_int_IZR, !Nat2Z.id, !Rminus_diag.
  now rewrite !interpolate_0.
Qed.

Lemma ramp_scale_in_range (scale : R) :
  1 / 15 < scale -> scale_in_range 2 scale.
Proof.
  intros Hs. apply scale_in_range_of_bound.
  rewrite Rabs_pos_eq by lra. simpl. lra.
Qed.

Lemma grid_size_two (scale : R) (k : nat) :
  1 / 15 < scale -> (k < 1024)%nat -> grid_size 2 scale (2 ^ k) = Ok 2%nat.
Proof.
  intros Hs Hk. unfold grid_size. cbv zeta.
  pose proof (pow2_INR_ge_1 k) as Hp.
  pose proof (pow2_below_threshold k Hk) as Hfreq.
  pose proof (quotient_in_range 2 scale k (ramp_scale_in_range scale Hs)) as Hquot.
  assert (2 / 3 < 10 * scale * INR (2 ^ k)) as Hd by nra.
  destruct (Rle_dec _ (INR (2 ^ k))) as [H|_]; [lra|].
  destruct (Req_dec_T _ 0) as [H0|_]; [lra|].
  destruct (Rle_dec _ (Rabs _)) as [H|_]; [lra|].
  do 2 f_equal.
  assert (0 <= INR 2 / (10 * scale * INR (2 ^ k)) < 3) as [Hq0 Hq3].
  { replace (INR 2) with 2 by (simpl; lra). split.
    - apply Rmult_le_pos; [lra|]. left. apply Rinv_0_lt_compat. lra.
    - apply Rmult_lt_reg_r with (r := 10 * scale * INR (2 ^ k)); [lra|].
      unfold Rdiv. rewrite Rmult_assoc, Rinv_l by lra. lra. }
  rewrite py_int_nonneg by assumption.
  pose proof (Zfloor_bound (INR 2 / (10 * scale * INR (2 ^ k)))) as [Hf _].
  assert (Zfloor (INR 2 / (10 * scale * INR (2 ^ k))) < 3)%Z
    by (apply lt_IZR; lra).
  lia.
Qed.

(** One octave on the two-pixel field: the first entry decreases by the
    amplitude, the second stays 0. *)
Lemma ramp_octave (scale : R) (octave : nat) (a : R) :
  1 / 15 < scale -> (octave < 1024)%nat ->
  (gs ← grid_size 2 scale (2 ^ octave);
   Ok (imap (fun y row =>
         imap (fun x v =>
                 v + octave_sample (fun r c => ramp_rand octave r c * 2 - 1)
                       2 1 gs (1 / INR (2 ^ octave)) y x) row)
         [[a; 0]]))
  = Ok [[a - 1 / INR (2 ^ octave); 0]].
Proof.
  intros Hs Hk. rewrite grid_size_two by assumption. simpl.
  rewrite (octave_sample_node _ 2 1 2 _ 0 0 0 0) by (simpl; lra).
  rewrite (octave_sample_node _ 2 1 2 _ 0 1 0 1) by (simpl; lra).
  unfold ramp_rand. simpl. do 3 f_equal; [lra|]. f_equal. lra.
Qed.

Lemma ramp_accumulate (scale : R) (octaves : nat) :
  1 / 15 < scale -> (1 <= octaves <= 1024)%nat ->
  exists a, a < 0 /\ accumulate ramp_rand 2 1 scale octaves = Ok [[a; 0]].
Proof.
  intros Hs Hoct. unfold accumulate.
  destruct octaves as [|k]; [lia|].
  change (range (S k)) with (0%nat :: seq 1 k).
  change (replicate 1 (replicate 2 0)) with [[0; 0]].
  cbn [for_each]. rewrite ramp_octave by (assumption || lia). simpl mbind.
  edestruct (for_each_invariant
    (fun noise : list (list R) => exists a, a < 0 /\ noise = [[a; 0]])
    (fun octave : nat => (octave < 1024)%nat))
    as (noise & Hrun & a & Ha & ->);
    [| | | exists a; split; [exact Ha | exact Hrun]].
  - intros octave noise Hk (a & Ha & ->).
    rewrite ramp_octave by assumption.
    eexists. split; [reflexivity|].
    exists (a - 1 / INR (2 ^ octave)). split; [|reflexivity].
    pose proof (pow2_INR_pos octave) as Hp.
    assert (0 < 1 / INR (2 ^ octave))
      by (apply Rdiv_lt_0_compat; lra).
    lra.
  - apply Forall_forall. intros octave Hin. apply elem_of_seq in Hin. lia.
  - eexists. split; [|reflexivity].
    pose proof (pow2_INR_pos 0) as Hp.
    assert (0 < 1 / INR (2 ^ 0)) by (apply Rdiv_lt_0_compat; lra).
    lra.
Qed.

(** The two-pixel run normalises to the ramp 0, 1. *)
Lemma ramp_perlin_noise_2d (scale : R) (octaves : nat) :
  1 / 15 < scale -> (1 <= octaves <= 1024)%nat ->
  perlin_noise_2d ramp_rand 2 1 scale octaves = Ok [[Some 0; Some 1]].
Proof.
  intros Hs Hoct.
  destruct (ramp_accumulate scale octaves Hs Hoct) as (a & Ha & Hacc).
  unfold perlin_noise_2d. rewrite Hacc. simpl.
  unfold normalize, field_min, field_max. simpl.
  assert (Rmin a 0 = a) as -> by (apply Rmin_left; lra).
  assert (Rmax a 0 = 0) as -> by (apply Rmax_right; lra).
  unfold np_divide. destruct (Req_dec_T (0 - a) 0) as [E|_]; [lra|].
  do 3 f_equal; [f_equal; field; lra|].
  do 2 f_equal. field. lra.
Qed.

End Noise2DFacts.

(** ** Claim about the normalisation of the 2D noise *)

(** C4. A flat accumulated field is not special-cased.  For one pixel
    ([width = height = 1], scale 0.3, 4 octaves) the maximum equals the
    minimum whatever was drawn, and the normalisation divides 0 by 0: the
    function returns the field whose only entry is NaN, not a field of a
    defined fallback value. *)
Theorem perlin_noise_2d_flat_field_is_nan (rand : nat -> nat -> nat -> R) :
  BlockTextures.perlin_noise_2d rand 1 1 0.3 4 = Ok [[None]].
Proof.
  apply Noise2DFacts.perlin_noise_2d_single_pixel;
    [lia | Noise2DFacts.ordinary_scale].
Qed.


(** ** The pattern compositors *)

Module CompositorFacts.
Import BlockTextures.

Lemma traverse_lookup {A B : Type} (f : A -> result B) (xs : list A) (ys : list B) :
  traverse f xs = Ok ys ->
  length ys = length xs /\
  forall i x, xs !! i = Some x -> exists y, ys !! i = Some y /\ f x = Ok y.
Proof.
  revert ys. induction xs as [|x xs IH]; intros ys; simpl.
  - intros [= <-]. split; [reflexivity|]. intros i x Hx. discriminate.
  - destruct (f x) as [b|e] eqn:Hfx; simpl; [|discriminate].
    destruct (traverse f xs) as [bs|e]; simpl; [|discriminate].
    intros [= <-]. destruct (IH bs eq_refl) as [Hlen Hall].
    split; [simpl; now rewrite Hlen|].
    intros [|i] x' Hx'; simpl in *.
    + injection Hx' as <-. eauto.
    + now apply Hall.
Qed.

Lemma lookup_range (n i : nat) : (i < n)%nat -> range n !! i = Some i.
Proof. intros Hi. unfold range. now apply lookup_seq. Qed.

(** The image returned by the pixel loops holds, at every index of its
    shape, the pixel computed for that index. *)
Lemma build_image_pixel (height width : nat) (pixel : nat -> nat -> result rgb)
    (img : image) (y x : nat) :
  build_image height width pixel = Ok img ->
  (y < height)%nat -> (x < width)%nat ->
  exists px, getpixel img y x = Some px /\ pixel y x = Ok px.
Proof.
  intros Himg Hy Hx. unfold build_image in Himg.
  destruct (traverse_lookup _ _ _ Himg) as [_ Hrows].
  destruct (Hrows y y (lookup_range _ _ Hy)) as (row & Hrow & Hrun).
  destruct (traverse_lookup _ _ _ Hrun) as [_ Hpx].
  destruct (Hpx x x (lookup_range _ _ Hx)) as (px & Hlook & Hpix).
  exists px. split; [|exact Hpix].
  unfold getpixel. rewrite Hrow. exact Hlook.
Qed.

Lemma store_pixel_channels (r g b : Z) :
  (0 <= r <= 255)%Z -> (0 <= g <= 255)%Z -> (0 <= b <= 255)%Z ->
  store_pixel r g b = RGB r g b.
Proof.
  intros Hr Hg Hb. unfold store_pixel. now rewrite !wrap_uint8_id.
Qed.


Lemma np_clip_IZR (k : Z) : np_clip (IZR k) 0 255 = IZR (clamp_channel k).
Proof.
  unfold clamp_channel, np_clip, Rmin, Rmax.
  destruct (Rle_dec (IZR k) 0) as [H|H].
  - destruct (Rle_dec 0 255); [|lra].
    apply (le_IZR k 0) in H. f_equal. lia.
  - assert (0 < k)%Z by (apply lt_IZR; simpl; lra).
    destruct (Rle_dec (IZR k) 255) as [H'|H'].
    + apply (le_IZR k 255) in H'. f_equal. lia.
    + assert (255 < k)%Z by (apply lt_IZR; simpl; lra). f_equal. lia.
Qed.


Lemma py_int_clip_IZR (e : R) (k : Z) :
  e = IZR k -> py_int (np_clip e 0 255) = clamp_channel k.
Proof. intros ->. now rewrite np_clip_IZR, py_int_IZR. Qed.

(** Evaluates the pixel loops of a compositor on explicit noise fields. *)
Ltac run_pixel_loops :=
  unfold build_image, range;
  cbn [seq traverse sample lookup list_lookup mbind option_bind result_bind
       fmap option_fmap option_map int_clip chan_r chan_g chan_b
       fluid_brightness float_gt].

(** Replaces every quantised channel whose argument is one of the given
    integers by that integer, clamped. *)
Ltac quantise a b c d e f :=
  repeat match goal with
  | |- context [py_int (np_clip ?x 0 255)] =>
      first [ rewrite (py_int_clip_IZR x a) by lra
            | rewrite (py_int_clip_IZR x b) by lra
            | rewrite (py_int_clip_IZR x c) by lra
            | rewrite (py_int_clip_IZR x d) by lra
            | rewrite (py_int_clip_IZR x e) by lra
            | rewrite (py_int_clip_IZR x f) by lra ]
  end.

Tactic Notation "run_pixel" "in" hyp(H) :=
  cbn [mbind option_bind result_bind fmap option_fmap option_map int_clip
       fluid_brightness float_gt] in H.

Lemma py_int_clip_range (e : R) : (0 <= py_int (np_clip e 0 255) <= 255)%Z.
Proof.
  pose proof (np_clip_range e 0 255 ltac:(lra)).
  apply py_int_range; [lia|]. lra.
Qed.

Lemma traverse_total {A B : Type} (f : A -> result B) (xs : list A) :
  (forall x, exists b, f x = Ok b) -> exists bs, traverse f xs = Ok bs.
Proof.
  intros Hf. induction xs as [|x xs [bs IH]]; simpl; [eauto|].
  destruct (Hf x) as [b ->]. rewrite IH. simpl. eauto.
Qed.

Lemma build_image_total (height width : nat) (pixel : nat -> nat -> result rgb) :
  (forall y x, exists px, pixel y x = Ok px) ->
  exists img, build_image height width pixel = Ok img.
Proof.
  intros Hpixel. unfold build_image.
  apply traverse_total. intros y. apply traverse_total. intros x. apply Hpixel.
Qed.

(** A crystalline descriptor with a scale of ordinary size always yields
    a texture of a non-empty size: a NaN sample is only compared, never
    converted. *)
Lemma crystalline_texture_ok (rng : randomness) (block_name : string)
    (c : config) (width height : nat) :
  pattern c = "crystalline"%string -> scale_in_range width (noise_scale c) ->
  (0 < width)%nat -> (0 < height)%nat ->
  exists img, generate_texture rng block_name c width height = Ok img.
Proof.
  intros Hpat Hscale Hw Hh.
  assert (generate_texture rng block_name c width height =
          generate_crystalline_pattern rng width height (base_color c)
            (variation c) (noise_scale c) (default false (sparkle c))) as ->
    by (unfold generate_texture; rewrite Hpat; reflexivity).
  unfold generate_crystalline_pattern.
  destruct (Noise2DFacts.perlin_noise_2d_outcome (noise_rand rng 0) width
              height (noise_scale c) 3)
    as (_ & _ & _ & field & _ & _ & _ & -> & _); [lia | lia | lia | exact Hscale |].
  cbn [mbind result_bind].
  apply build_image_total. intros y x. cbv zeta. simpl. eauto.
Qed.


Lemma generate_metallic_pattern_pixel (rng : randomness) (width height : nat)
    (base_color : rgb) (variation : Z) (noise_scale : R) (ore_color : rgb)
    (img : image) (y x : nat) :
  generate_metallic_pattern rng width height base_color variation noise_scale
    ore_color = Ok img ->
  (y < height)%nat -> (x < width)%nat ->
  exists noise vein_noise,
    perlin_noise_2d (noise_rand rng 0) width height noise_scale 3 = Ok noise /\
    perlin_noise_2d (noise_rand rng 1) width height 0.15 2 = Ok vein_noise /\
    (float_gt (sample vein_noise y x) 0.6 = false ->
     exists n,
       sample noise y x = Some n /\ 0 <= n <= 1 /\
       let brightness := if Rlt_dec 0.6 n then 1.2 else 0.9 in
       getpixel img y x =
       Some (RGB (py_int (np_clip (IZR (chan_r base_color) * brightness + (n - 0.5) * IZR variation) 0 255))
                 (py_int (np_clip (IZR (chan_g base_color) * brightness + (n - 0.5) * IZR variation) 0 255))
                 (py_int (np_clip (IZR (chan_b base_color) * brightness + (n - 0.5) * IZR variation) 0 255)))).
Proof.
  intros Himg Hy Hx. unfold generate_metallic_pattern in Himg.
  destruct (perlin_noise_2d _ width height noise_scale 3) as [noise|e] eqn:Hnoise;
    simpl in Himg; [|discriminate].
  destruct (perlin_noise_2d _ width height 0.15 2) as [vein_noise|e] eqn:Hvein;
    simpl in Himg; [|discriminate].
  destruct (build_image_pixel _ _ _ _ y x Himg Hy Hx) as (px & Hpx & Hrun).
  cbv zeta in Hrun.
  exists noise, vein_noise. split; [reflexivity|]. split; [reflexivity|].
  intros Hlow. rewrite Hlow in Hrun.
  destruct (sample noise y x) as [n|] eqn:Hn; [|simpl in Hrun; discriminate].
  exists n. split; [reflexivity|].
  split; [exact (Noise2DFacts.perlin_noise_2d_sample_range _ _ _ _ _ _ _ _ _ Hnoise Hn)|].
  cbv zeta. rewrite Hpx. f_equal.
  run_pixel in Hrun. injection Hrun as <-.
  rewrite store_pixel_channels by apply py_int_clip_range.
  now destruct (Rlt_dec 0.6 n).
Qed.

Lemma generate_fluid_pattern_pixel (rng : randomness) (width height : nat)
    (base_color : rgb) (variation : Z) (noise_scale : R) (glow : bool)
    (img : image) (y x : nat) :
  generate_fluid_pattern rng width height base_color variation noise_scale
    glow = Ok img ->
  (y < height)%nat -> (x < width)%nat ->
  exists noise wave_noise n wave,
    perlin_noise_2d (noise_rand rng 0) width height noise_scale 4 = Ok noise /\
    perlin_noise_2d (noise_rand rng 1) width height 0.4 2 = Ok wave_noise /\
    sample noise y x = Some n /\ 0 <= n <= 1 /\
    sample wave_noise y x = Some wave /\ 0 <= wave <= 1 /\
    let brightness :=
      if glow then 0.8 + wave * 0.5 + n * 0.3 else 0.9 + wave * 0.3 in
    getpixel img y x =
    Some (RGB (py_int (np_clip (IZR (chan_r base_color) * brightness + (n - 0.5) * IZR variation) 0 255))
              (py_int (np_clip (IZR (chan_g base_color) * brightness + (n - 0.5) * IZR variation) 0 255))
              (py_int (np_clip (IZR (chan_b base_color) * brightness + (n - 0.5) * IZR variation) 0 255))).
Proof.
  intros Himg Hy Hx. unfold generate_fluid_pattern in Himg.
  destruct (perlin_noise_2d _ width height noise_scale 4) as [noise|e] eqn:Hnoise;
    simpl in Himg; [|discriminate].
  destruct (perlin_noise_2d _ width height 0.4 2) as [wave_noise|e] eqn:Hwave;
    simpl in Himg; [|discriminate].
  destruct (build_image_pixel _ _ _ _ y x Himg Hy Hx) as (px & Hpx & Hrun).
  cbv zeta in Hrun.
  destruct (sample noise y x) as [n|] eqn:Hn;
    [|destruct glow, (sample wave_noise y x); discriminate].
  destruct (sample wave_noise y x) as [wave|] eqn:Hw;
    [|destruct glow; discriminate].
  exists noise, wave_noise, n, wave.
  split; [reflexivity|]. split; [reflexivity|]. split; [assumption|].
  split; [exact (Noise2DFacts.perlin_noise_2d_sample_range _ _ _ _ _ _ _ _ _ Hnoise Hn)|].
  split; [assumption|].
  split; [exact (Noise2DFacts.perlin_noise_2d_sample_range _ _ _ _ _ _ _ _ _ Hwave Hw)|].
  cbv zeta. rewrite Hpx. f_equal.
  destruct glow; run_pixel in Hrun; injection Hrun as <-;
    now rewrite store_pixel_channels by apply py_int_clip_range.
Qed.

End CompositorFacts.

(** ** The compositors on the two-pixel run *)

Module RampRun.
Import BlockTextures CompositorFacts.

Lemma ore_run :
  generate_ore_pattern ramp_rng 2 1 (RGB 30 30 30) 15 0.3 (RGB 10 10 10)
  = Ok [[RGB 0 0 0; RGB 25 25 25]].
Proof.
  unfold generate_ore_pattern.
  change (noise_rand ramp_rng 0) with ramp_rand.
  rewrite Noise2DFacts.ramp_perlin_noise_2d by (lra || lia).
  cbn [mbind result_bind]. run_pixel_loops.
  quantise (-5)%Z 25%Z 0%Z 0%Z 0%Z 0%Z. reflexivity.
Qed.

Lemma metallic_run :
  generate_metallic_pattern ramp_rng 2 1 (RGB 40 80 180) 20 0.2 (RGB 200 120 80)
  = Ok [[RGB 26 62 152; RGB 240 144 96]].
Proof.
  unfold generate_metallic_pattern.
  change (noise_rand ramp_rng 0) with ramp_rand.
  change (noise_rand ramp_rng 1) with ramp_rand.
  rewrite !Noise2DFacts.ramp_perlin_noise_2d by (lra || lia).
  cbn [mbind result_bind]. run_pixel_loops.
  destruct (Rlt_dec 0.6 0) as [H|_]; [lra|].
  destruct (Rlt_dec 0.6 1) as [_|H]; [|lra].
  run_pixel_loops.
  quantise 26%Z 62%Z 152%Z 240%Z 144%Z 96%Z. reflexivity.
Qed.

Lemma fluid_run :
  generate_fluid_pattern ramp_rng 2 1 (RGB 40 80 180) 20 0.2 false
  = Ok [[RGB 26 62 152; RGB 58 106 226]].
Proof.
  unfold generate_fluid_pattern.
  change (noise_rand ramp_rng 0) with ramp_rand.
  change (noise_rand ramp_rng 1) with ramp_rand.
  rewrite !Noise2DFacts.ramp_perlin_noise_2d by (lra || lia).
  cbn [mbind result_bind]. run_pixel_loops.
  quantise 26%Z 62%Z 152%Z 58%Z 106%Z 226%Z. reflexivity.
Qed.

End RampRun.

(** ** Claims about the compositors *)

Module LawFacts.
Import BlockTextures CompositorFacts.


Lemma generate_texture_ore (rng : randomness) (block_name : string) (c : config)
    (width height : nat) :
  pattern c = "ore"%string ->
  generate_texture rng block_name c width height =
  (ore ← lookup_ore_color c;
   generate_ore_pattern rng width height (base_color c) (variation c)
     (noise_scale c) ore).
Proof. intros Hp. unfold generate_texture. rewrite Hp. reflexivity. Qed.

End LawFacts.



(** C3 (as amended). In the metallic compositor, at every pixel where the
    vein field does not exceed 0.6, and in the fluid compositor at every
    pixel, each colour channel is
    [int(clamp(baseColor * brightness + (n - 0.5) * variation, 0, 255))],
    where [n] is the pixel's sample of the compositor's own noise field:
    the additive term on top of the brightness-scaled base colour is
    [(n - 0.5) * variation], without the factor 2 of the other
    compositors.  The brightness is 1.2 or 0.9 (metallic, by [n > 0.6]) and
    [0.8 + wave*0.5 + n*0.3] or [0.9 + wave*0.3] (fluid, by [glow]).  Each
    law holds of every image its compositor returns, whatever the other
    compositor does. *)
Theorem metallic_and_fluid_additive_law
    (base_color : BlockTextures.rgb) (variation : Z) :
  let law (base : Z) (brightness n : R) :=
    py_int (np_clip (IZR base * brightness + (n - 0.5) * IZR variation) 0 255) in
  let pixel (brightness n : R) :=
    BlockTextures.RGB (law (BlockTextures.chan_r base_color) brightness n)
                      (law (BlockTextures.chan_g base_color) brightness n)
                      (law (BlockTextures.chan_b base_color) brightness n) in
  (forall (rng : BlockTextures.randomness) (width height : nat)
          (noise_scale : R) (ore_color : BlockTextures.rgb)
          (img_metallic : list (list BlockTextures.rgb)) (y x : nat),
     BlockTextures.generate_metallic_pattern rng width height base_color
       variation noise_scale ore_color = Ok img_metallic ->
     (y < height)%nat -> (x < width)%nat ->
     exists noise vein_noise,
       BlockTextures.perlin_noise_2d (BlockTextures.noise_rand rng 0) width
         height noise_scale 3 = Ok noise /\
       BlockTextures.perlin_noise_2d (BlockTextures.noise_rand rng 1) width
         height 0.15 2 = Ok vein_noise /\
       (BlockTextures.float_gt (BlockTextures.sample vein_noise y x) 0.6 = false ->
        exists n,
          BlockTextures.sample noise y x = Some n /\ 0 <= n <= 1 /\
          BlockTextures.getpixel img_metallic y x
          = Some (pixel (if Rlt_dec 0.6 n then 1.2 else 0.9) n))) /\
  (forall (rng : BlockTextures.randomness) (width height : nat)
          (noise_scale : R) (glow : bool)
          (img_fluid : list (list BlockTextures.rgb)) (y x : nat),
     BlockTextures.generate_fluid_pattern rng width height base_color
       variation noise_scale glow = Ok img_fluid ->
     (y < height)%nat -> (x < width)%nat ->
     exists noise wave_noise n wave,
       BlockTextures.perlin_noise_2d (BlockTextures.noise_rand rng 0) width
         height noise_scale 4 = Ok noise /\
       BlockTextures.perlin_noise_2d (BlockTextures.noise_rand rng 1) width
         height 0.4 2 = Ok wave_noise /\
       BlockTextures.sample noise y x = Some n /\ 0 <= n <= 1 /\
       BlockTextures.sample wave_noise y x = Some wave /\ 0 <= wave <= 1 /\
       BlockTextures.getpixel img_fluid y x
       = Some (pixel (if glow then 0.8 + wave * 0.5 + n * 0.3
                      else 0.9 + wave * 0.3) n)).
Proof.
  intros law pixel. split.
  - intros rng width height noise_scale ore_color img_metallic y x
      Hmetallic Hy Hx.
    destruct (CompositorFacts.generate_metallic_pattern_pixel _ _ _ _ _ _ _ _
                y x Hmetallic Hy Hx) as (noise & vein & Hnoise & Hvein & Hlaw).
    exists noise, vein. split; [exact Hnoise|]. split; [exact Hvein|].
    intros Hlow. destruct (Hlaw Hlow) as (n & Hsample & Hn & Hpx).
    exists n. split; [exact Hsample|]. split; [exact Hn|]. exact Hpx.
  - intros rng width height noise_scale glow img_fluid y x Hfluid Hy Hx.
    destruct (CompositorFacts.generate_fluid_pattern_pixel _ _ _ _ _ _ _ _
                y x Hfluid Hy Hx)
      as (noise & wave_noise & n & wave & Hnoise & Hwave & Hn & Hnr & Hw & Hwr & Hpx).
    exists noise, wave_noise, n, wave. repeat (split; [assumption|]). exact Hpx.
Qed.

(** The water descriptor (with an ore colour for the metallic run) on the
    two-pixel run: the metallic law at the first pixel, and the fluid law
    at the second, each from its own run. *)
Lemma metallic_and_fluid_additive_law_witness :
  let base_color := BlockTextures.RGB 40 80 180 in
  let img_metallic :=
    [[BlockTextures.RGB 26 62 152; BlockTextures.RGB 240 144 96]] in
  let img_fluid :=
    [[BlockTextures.RGB 26 62 152; BlockTextures.RGB 58 106 226]] in
  let law (base : Z) (brightness n : R) :=
    py_int (np_clip (IZR base * brightness + (n - 0.5) * IZR 20) 0 255) in
  let pixel (brightness n : R) :=
    BlockTextures.RGB (law (BlockTextures.chan_r base_color) brightness n)
                      (law (BlockTextures.chan_g base_color) brightness n)
                      (law (BlockTextures.chan_b base_color) brightness n) in
  (exists noise vein_noise,
     BlockTextures.perlin_noise_2d
       (BlockTextures.noise_rand BlockTextures.ramp_rng 0) 2 1 0.2 3 = Ok noise /\
     BlockTextures.perlin_noise_2d
       (BlockTextures.noise_rand BlockTextures.ramp_rng 1) 2 1 0.15 2
     = Ok vein_noise /\
     (BlockTextures.float_gt (BlockTextures.sample vein_noise 0 0) 0.6 = false ->
      exists n,
        BlockTextures.sample noise 0 0 = Some n /\ 0 <= n <= 1 /\
        BlockTextures.getpixel img_metallic 0 0
        = Some (pixel (if Rlt_dec 0.6 n then 1.2 else 0.9) n))) /\
  (exists noise wave_noise n wave,
     BlockTextures.perlin_noise_2d
       (BlockTextures.noise_rand BlockTextures.ramp_rng 0) 2 1 0.2 4 = Ok noise /\
     BlockTextures.perlin_noise_2d
       (BlockTextures.noise_rand BlockTextures.ramp_rng 1) 2 1 0.4 2
     = Ok wave_noise /\
     BlockTextures.sample noise 0 1 = Some n /\ 0 <= n <= 1 /\
     BlockTextures.sample wave_noise 0 1 = Some wave /\ 0 <= wave <= 1 /\
     BlockTextures.getpixel img_fluid 0 1
     = Some (pixel (if false then 0.8 + wave * 0.5 + n * 0.3
                    else 0.9 + wave * 0.3) n)).
Proof.
  split.
  - apply (proj1 (metallic_and_fluid_additive_law
                    (BlockTextures.RGB 40 80 180) 20)
             BlockTextures.ramp_rng 2%nat 1%nat 0.2 (BlockTextures.RGB 200 120 80)
             _ 0%nat 0%nat RampRun.metallic_run); lia.
  - apply (proj2 (metallic_and_fluid_additive_law
                    (BlockTextures.RGB 40 80 180) 20)
             BlockTextures.ramp_rng 2%nat 1%nat 0.2 false
             _ 0%nat 1%nat RampRun.fluid_run); lia.
Defined.

(** On the two-pixel run of the water descriptor the first pixel has noise
    0, wave 0 and vein 0, hence brightness 0.9; its red channel is
    [int(40*0.9 - 0.5*20) = 26] in both compositors, not the
    [40*0.9 - 0.5*20*2 = 16] of the law with the factor 2. *)
Lemma additive_term_not_doubled :
  BlockTextures.perlin_noise_2d
    (BlockTextures.noise_rand BlockTextures.ramp_rng 0) 2 1 0.2 4
  = Ok [[Some 0; Some 1]] /\
  BlockTextures.perlin_noise_2d
    (BlockTextures.noise_rand BlockTextures.ramp_rng 0) 2 1 0.2 3
  = Ok [[Some 0; Some 1]] /\
  BlockTextures.perlin_noise_2d
    (BlockTextures.noise_rand BlockTextures.ramp_rng 1) 2 1 0.4 2
  = Ok [[Some 0; Some 1]] /\
  BlockTextures.perlin_noise_2d
    (BlockTextures.noise_rand BlockTextures.ramp_rng 1) 2 1 0.15 2
  = Ok [[Some 0; Some 1]] /\
  BlockTextures.generate_fluid_pattern BlockTextures.ramp_rng 2 1
    (BlockTextures.RGB 40 80 180) 20 0.2 false
  = Ok [[BlockTextures.RGB 26 62 152; BlockTextures.RGB 58 106 226]] /\
  BlockTextures.generate_metallic_pattern BlockTextures.ramp_rng 2 1
    (BlockTextures.RGB 40 80 180) 20 0.2 (BlockTextures.RGB 200 120 80)
  = Ok [[BlockTextures.RGB 26 62 152; BlockTextures.RGB 240 144 96]] /\
  np_clip (IZR 40 * (0.9 + 0 * 0.3) + (0 - 0.5) * IZR 20 * 2) 0 255 = 16 /\
  np_clip (IZR 40 * 0.9 + (0 - 0.5) * IZR 20 * 2) 0 255 = 16 /\
  IZR (BlockTextures.chan_r (BlockTextures.RGB 26 62 152)) <> 16.
Proof.
  change (BlockTextures.noise_rand BlockTextures.ramp_rng 0)
    with BlockTextures.ramp_rand.
  change (BlockTextures.noise_rand BlockTextures.ramp_rng 1)
    with BlockTextures.ramp_rand.
  repeat (split; [apply Noise2DFacts.ramp_perlin_noise_2d; (lra || lia)|]).
  split; [exact RampRun.fluid_run|]. split; [exact RampRun.metallic_run|].
  split; [rewrite np_clip_id by lra; lra|].
  split; [rewrite np_clip_id by lra; lra|]. simpl. lra.
Qed.

(** ** The batch driver *)

Module DriverFacts.
Import BlockTextures.

Section Run.
Variable rng : string -> randomness.
Variable save_fails : string -> bool.

Lemma main_loop_app (pre rest : list (string * config)) (st : driver_state) :
  main_loop rng save_fails (pre ++ rest) st =
  match main_loop rng save_fails pre st with
  | (st', None) => main_loop rng save_fails rest st'
  | (st', Some e) => (st', Some e)
  end.
Proof.
  revert st. induction pre as [|[name c] pre IH]; intros st; [reflexivity|].
  simpl. destruct (decide _); [apply IH|].
  destruct (generate_texture _ _ _ _ _); [|reflexivity].
  destruct (save_fails _); [reflexivity | apply IH].
Qed.

(** A file that is present when the loop starts is still there, with the
    same content, when it ends; and it is not among the paths written. *)
Lemma main_loop_keeps_files (catalog : list (string * config))
    (st st' : driver_state) (r : option exn) (p : string) :
  main_loop rng save_fails catalog st = (st', r) ->
  is_Some (files st !! p) ->
  files st' !! p = files st !! p /\
  (p ∉ writes st -> p ∉ writes st').
Proof.
  revert st. induction catalog as [|[name c] catalog IH]; intros st; simpl.
  - intros [= <- <-] _. auto.
  - destruct (decide _) as [Hex|Hnew].
    + intros Hrun Hp. apply (IH _ Hrun Hp).
    + destruct (generate_texture _ _ _ _ _) as [texture|e].
      2:{ intros [= <- <-] _. auto. }
      destruct (save_fails _).
      { intros [= <- <-] _. auto. }
      intros Hrun Hp.
      assert (output_path name <> p) as Hne
        by (intros E; apply Hnew; rewrite E; exact Hp).
      destruct (IH _ Hrun) as [Hfiles Hwrites]; simpl.
      * now rewrite lookup_insert_ne.
      * simpl in Hfiles, Hwrites. rewrite lookup_insert_ne in Hfiles by assumption.
        split; [assumption|]. intros Hnot. apply Hwrites.
        rewrite not_elem_of_cons. auto.
Qed.

(** A block whose file is present when the loop starts is never announced
    as generated. *)
Lemma main_loop_never_regenerates (catalog : list (string * config))
    (st st' : driver_state) (r : option exn) (block_name : string) :
  main_loop rng save_fails catalog st = (st', r) ->
  is_Some (files st !! output_path block_name) ->
  MsgGenerating block_name ∉ stdout st ->
  MsgGenerating block_name ∉ stdout st'.
Proof.
  revert st. induction catalog as [|[name c] catalog IH]; intros st; simpl.
  - now intros [= <- <-] _.
  - destruct (decide _) as [Hex|Hnew].
    + intros Hrun Hp Hout. apply (IH _ Hrun Hp). simpl.
      rewrite not_elem_of_cons. split; [discriminate | assumption].
    + intros Hrun Hp Hout.
      assert (MsgGenerating block_name <> MsgGenerating name) as Hne
        by (intros [= ->]; contradiction).
      assert (MsgGenerating block_name ∉ MsgGenerating name :: stdout st)
        as Hout' by (rewrite not_elem_of_cons; auto).
      destruct (generate_texture _ _ _ _ _) as [texture|e];
        [|now injection Hrun as <- <-].
      destruct (save_fails _); [now injection Hrun as <- <-|].
      apply (IH _ Hrun); simpl; [|assumption].
      rewrite lookup_insert_ne; [assumption|].
      intros E. apply Hnew. now rewrite E.
Qed.

(** After a run that completes, every catalog entry has its file. *)
Lemma main_loop_all_present (catalog : list (string * config))
    (st st' : driver_state) :
  main_loop rng save_fails catalog st = (st', None) ->
  Forall (fun entry => is_Some (files st' !! output_path entry.1)) catalog.
Proof.
  revert st. induction catalog as [|[name c] catalog IH]; intros st; simpl;
    [constructor|].
  destruct (decide _) as [Hex|Hnew].
  - intros Hrun. constructor; [|now apply (IH _ Hrun)].
    simpl. destruct (main_loop_keeps_files _ _ _ _ _ Hrun Hex) as [-> _].
    assumption.
  - destruct (generate_texture _ _ _ _ _) as [texture|e]; [|discriminate].
    destruct (save_fails _); [discriminate|].
    intros Hrun. constructor; [|now apply (IH _ Hrun)].
    simpl.
    assert (is_Some (<[output_path name := texture]> (files st)
                     !! output_path name)) as Hex
      by (rewrite lookup_insert_eq; eauto).
    destruct (main_loop_keeps_files _ _ _ _ _ Hrun Hex) as [-> _].
    assumption.
Qed.

End Run.

(** When every entry already has its file the loop only skips. *)
Lemma main_loop_all_skipped (rng : string -> randomness)
    (save_fails : string -> bool) (catalog : list (string * config))
    (st : driver_state) :
  Forall (fun entry => is_Some (files st !! output_path entry.1)) catalog ->
  exists st',
    main_loop rng save_fails catalog st = (st', None) /\
    files st' = files st /\ writes st' = writes st /\
    generated st' = generated st /\
    skipped st' = (skipped st + length catalog)%nat /\
    stdout st' = rev (map (fun entry => MsgSkipping entry.1) catalog) ++ stdout st.
Proof.
  intros Hall. revert st Hall.
  induction catalog as [|[name c] catalog IH]; intros st Hall; simpl.
  - exists st. repeat split; lia.
  - apply Forall_cons in Hall as [Hex Hall]. simpl in Hex.
    destruct (decide _) as [_|Hn]; [|contradiction].
    edestruct IH as (st' & -> & Hf & Hw & Hg & Hs & Hout); [exact Hall|].
    exists st'. simpl in *. repeat split; try assumption; [lia|].
    now rewrite Hout, <- app_assoc.
Qed.

(** The loop leaves at the entry that fails: the state is the one reached
    before that entry, plus its "Generating" line; the entries after it are
    not looked at. *)
Lemma main_loop_abort (rng : string -> randomness) (save_fails : string -> bool)
    (pre rest : list (string * config)) (block_name : string) (c : config)
    (st0 st : driver_state) (e : exn) :
  main_loop rng save_fails pre st0 = (st, None) ->
  ~ is_Some (files st !! output_path block_name) ->
  entry_fails rng save_fails block_name c e ->
  main_loop rng save_fails (pre ++ (block_name, c) :: rest) st0 =
  ({| files := files st; generated := generated st; skipped := skipped st;
      writes := writes st;
      stdout := MsgGenerating block_name :: stdout st |}, Some e).
Proof.
  intros Hpre Hnew Hfail. rewrite main_loop_app, Hpre. simpl.
  destruct (decide _) as [Hex|_]; [contradiction|].
  destruct Hfail as [->|(texture & -> & -> & ->)]; reflexivity.
Qed.

Lemma main_abort (rng : string -> randomness) (save_fails : string -> bool)
    (pre rest : list (string * config)) (block_name : string) (c : config)
    (dir : gmap string image) (st : driver_state) (e : exn) :
  main_loop rng save_fails pre (initial_state dir) = (st, None) ->
  ~ is_Some (files st !! output_path block_name) ->
  entry_fails rng save_fails block_name c e ->
  let aborted :=
    {| files := files st; generated := generated st; skipped := skipped st;
       writes := writes st;
       stdout := MsgGenerating block_name :: stdout st |} in
  main rng save_fails (pre ++ (block_name, c) :: rest) dir = (aborted, Some e) /\
  script rng save_fails (pre ++ (block_name, c) :: rest) dir =
  ({| files := files st; generated := generated st; skipped := skipped st;
      writes := writes st;
      stdout := MsgError e :: MsgGenerating block_name :: stdout st |}, 1%nat).
Proof.
  intros Hpre Hnew Hfail aborted.
  assert (main rng save_fails (pre ++ (block_name, c) :: rest) dir
          = (aborted, Some e)) as Hmain.
  { unfold main.
    now rewrite (main_loop_abort _ _ pre rest block_name c _ st e). }
  split; [exact Hmain|]. unfold script. now rewrite Hmain.
Qed.

(** The first entry of a run on an empty directory, with an encoder that
    fails on its file, fails. *)
Lemma first_entry_fails (rng : string -> randomness) (block_name : string)
    (c : config) :
  exists e,
    entry_fails rng (fun p => String.eqb p (output_path block_name))
      block_name c e.
Proof.
  unfold entry_fails.
  destruct (generate_texture (rng block_name) block_name c 32 32)
    as [texture|e] eqn:Hgen.
  - exists OSError. right. exists texture.
    split; [reflexivity|]. split; [apply String.eqb_refl | reflexivity].
  - exists e. now left.
Qed.

(** The crystalline texture of [ice] is always built. *)
Lemma ice_texture (rng : randomness) :
  exists img, generate_texture rng "ice" ice 32 32 = Ok img.
Proof.
  apply CompositorFacts.crystalline_texture_ok;
    [reflexivity | unfold ice; cbn [noise_scale]; Noise2DFacts.ordinary_scale
    | lia | lia].
Qed.

(** A run over the catalog [ice] on an empty directory with an encoder that
    never fails. *)
Lemma ice_run (rng : string -> randomness) :
  exists img,
    main_loop rng (fun _ => false) [("ice", ice)]%string (initial_state ∅)
    = ({| files := <[output_path "ice" := img]> ∅; generated := 1;
          skipped := 0; writes := [output_path "ice"];
          stdout := [MsgGenerating "ice"] |}, None).
Proof.
  destruct (ice_texture (rng "ice"%string)) as [img Himg].
  exists img. cbn [main_loop].
  destruct (decide _) as [[? H]|_];
    [cbn [initial_state files] in H; rewrite lookup_empty in H; discriminate H|].
  rewrite Himg. reflexivity.
Qed.

(** The same catalog with an encoder that always fails: the run aborts and
    writes nothing. *)
Lemma ice_run_encoder_fails (rng : string -> randomness) :
  main rng (fun _ => true) [("ice", ice)]%string ∅
  = ({| files := ∅; generated := 0; skipped := 0; writes := [];
        stdout := [MsgGenerating "ice"] |}, Some OSError).
Proof.
  destruct (ice_texture (rng "ice"%string)) as [img Himg].
  unfold main. cbn [main_loop].
  destruct (decide _) as [[? H]|_];
    [cbn [initial_state files] in H; rewrite lookup_empty in H; discriminate H|].
  rewrite Himg. reflexivity.
Qed.

(** A run over [coal, ice] on a directory that holds [coal.png] only:
    [coal] is skipped and [ice] is generated. *)
Lemma coal_ice_run (rng : string -> randomness) :
  let dir : gmap string image := {[ output_path "coal" := [[RGB 0 0 0]] ]} in
  exists img,
    main rng (fun _ => false) [("coal", coal); ("ice", ice)]%string dir
    = ({| files := <[output_path "ice" := img]> dir; generated := 1;
          skipped := 1; writes := [output_path "ice"];
          stdout := [MsgComplete 1 1 2; MsgGenerating "ice";
                     MsgSkipping "coal"] |}, None).
Proof.
  intros dir. destruct (ice_texture (rng "ice"%string)) as [img Himg].
  exists img. unfold main. cbn [main_loop].
  destruct (decide _) as [_|Hn].
  2:{ exfalso. apply Hn. cbn [initial_state files]. unfold dir.
      rewrite lookup_singleton_eq. eauto. }
  cbn [files generated skipped writes stdout initial_state].
  destruct (decide _) as [[? H]|_].
  { unfold dir in H. rewrite lookup_singleton_ne in H by discriminate.
    discriminate H. }
  rewrite Himg. reflexivity.
Qed.

End DriverFacts.

(** ** Claims about the batch driver *)

(** C5 (as amended). If generating or encoding one material's texture fails,
    the driver does not go on: the exception leaves the loop, the top-level
    handler reports it and the script exits with status 1.  The textures
    generated before the failing entry stay; the failing entry and every
    entry after it are not written, whatever they are. *)
Theorem batch_driver_aborts_on_failure
    (rng : string -> BlockTextures.randomness) (save_fails : string -> bool)
    (pre rest : list (string * BlockTextures.config)) (block_name : string)
    (c : BlockTextures.config) (dir : gmap string (list (list BlockTextures.rgb)))
    (st : BlockTextures.driver_state) (e : exn) :
  BlockTextures.main_loop rng save_fails pre (BlockTextures.initial_state dir)
  = (st, None) ->
  ~ is_Some (BlockTextures.files st !! BlockTextures.output_path block_name) ->
  BlockTextures.entry_fails rng save_fails block_name c e ->
  let catalog := pre ++ (block_name, c) :: rest in
  let aborted :=
    {| BlockTextures.files := BlockTextures.files st;
       BlockTextures.generated := BlockTextures.generated st;
       BlockTextures.skipped := BlockTextures.skipped st;
       BlockTextures.writes := BlockTextures.writes st;
       BlockTextures.stdout :=
         BlockTextures.MsgGenerating block_name :: BlockTextures.stdout st |} in
  BlockTextures.main rng save_fails catalog dir = (aborted, Some e) /\
  BlockTextures.script rng save_fails catalog dir =
  ({| BlockTextures.files := BlockTextures.files st;
      BlockTextures.generated := BlockTextures.generated st;
      BlockTextures.skipped := BlockTextures.skipped st;
      BlockTextures.writes := BlockTextures.writes st;
      BlockTextures.stdout :=
        BlockTextures.MsgError e :: BlockTextures.MsgGenerating block_name
        :: BlockTextures.stdout st |}, 1%nat).
Proof. intros Hpre Hnew Hfail. now apply DriverFacts.main_abort. Qed.

(** The catalog [grass, dirt] on an empty directory, with an encoder that
    fails on [grass.png]. *)
Lemma batch_driver_aborts_on_failure_witness :
  let rng := fun _ : string => BlockTextures.ramp_rng in
  let save_fails := fun p => String.eqb p (BlockTextures.output_path "grass") in
  let catalog := [("grass", BlockTextures.grass); ("dirt", BlockTextures.dirt)]%string in
  exists e,
    BlockTextures.entry_fails rng save_fails "grass" BlockTextures.grass e /\
    BlockTextures.main rng save_fails catalog ∅
    = ({| BlockTextures.files := ∅; BlockTextures.generated := 0;
          BlockTextures.skipped := 0; BlockTextures.writes := [];
          BlockTextures.stdout := [BlockTextures.MsgGenerating "grass"] |},
       Some e) /\
    BlockTextures.script rng save_fails catalog ∅
    = ({| BlockTextures.files := ∅; BlockTextures.generated := 0;
          BlockTextures.skipped := 0; BlockTextures.writes := [];
          BlockTextures.stdout :=
            [BlockTextures.MsgError e; BlockTextures.MsgGenerating "grass"] |},
       1%nat).
Proof.
  intros rng save_fails catalog.
  destruct (DriverFacts.first_entry_fails rng "grass" BlockTextures.grass)
    as [e Hfail].
  exists e. split; [exact Hfail|].
  apply (batch_driver_aborts_on_failure rng save_fails []
           [("dirt", BlockTextures.dirt)]%string "grass" BlockTextures.grass ∅
           (BlockTextures.initial_state ∅) e).
  - reflexivity.
  - simpl. rewrite lookup_empty. intros [? H]. discriminate H.
  - exact Hfail.
Defined.

(** With an encoder that fails on [grass.png], a run over [grass, dirt] on
    an empty directory stops at [grass]: exit status 1, no file written,
    and [dirt] is neither generated nor skipped. *)
Lemma batch_stops_at_first_failure :
  let rng := fun _ : string => BlockTextures.ramp_rng in
  let save_fails := fun p => String.eqb p (BlockTextures.output_path "grass") in
  let catalog := [("grass", BlockTextures.grass); ("dirt", BlockTextures.dirt)]%string in
  exists e st,
    BlockTextures.script rng save_fails catalog ∅ = (st, 1%nat) /\
    BlockTextures.stdout st
    = [BlockTextures.MsgError e; BlockTextures.MsgGenerating "grass"] /\
    BlockTextures.files st !! BlockTextures.output_path "dirt" = None /\
    (BlockTextures.MsgGenerating "dirt" ∉ BlockTextures.stdout st) /\
    (BlockTextures.MsgSkipping "dirt" ∉ BlockTextures.stdout st) /\
    BlockTextures.generated st = 0%nat /\ BlockTextures.skipped st = 0%nat.
Proof.
  intros rng save_fails catalog.
  destruct (DriverFacts.first_entry_fails rng "grass" BlockTextures.grass)
    as [e Hfail].
  exists e. eexists. split.
  - apply (DriverFacts.main_abort rng save_fails []
             [("dirt", BlockTextures.dirt)]%string "grass" BlockTextures.grass ∅
             (BlockTextures.initial_state ∅) e).
    + reflexivity.
    + simpl. rewrite lookup_empty. intros [? H]. discriminate H.
    + exact Hfail.
  - simpl. split; [reflexivity|]. split; [apply lookup_empty|].
    split; [|split; [|split; reflexivity]].
    + rewrite !not_elem_of_cons. repeat split; try discriminate.
      apply not_elem_of_nil.
    + rewrite !not_elem_of_cons. repeat split; try discriminate.
      apply not_elem_of_nil.
Qed.

(** C9 (as amended). An entry whose output file already exists is neither
    regenerated nor overwritten, whatever the catalog, the directory and
    the outcome of the run; and once a run has completed without an
    exception, a second run over the directory it left performs no write,
    generates nothing, skips every entry and leaves the directory as it
    was, whatever the draws and the encoder do the second time.  The
    second half needs the first run to complete: after a run that aborted,
    a second run may write. *)
Theorem batch_driver_idempotent
    (rng1 rng2 : string -> BlockTextures.randomness)
    (save_fails1 save_fails2 : string -> bool)
    (catalog : list (string * BlockTextures.config))
    (dir : gmap string (list (list BlockTextures.rgb)))
    (st1 : BlockTextures.driver_state) (r1 : option exn) :
  BlockTextures.main rng1 save_fails1 catalog dir = (st1, r1) ->
  (forall p : string, is_Some (dir !! p) ->
     BlockTextures.files st1 !! p = dir !! p /\ p ∉ BlockTextures.writes st1) /\
  (forall block_name : string,
     is_Some (dir !! BlockTextures.output_path block_name) ->
     BlockTextures.MsgGenerating block_name ∉ BlockTextures.stdout st1) /\
  (r1 = None ->
   exists st2,
     BlockTextures.main rng2 save_fails2 catalog (BlockTextures.files st1)
     = (st2, None) /\
     BlockTextures.files st2 = BlockTextures.files st1 /\
     BlockTextures.writes st2 = [] /\
     BlockTextures.generated st2 = 0%nat /\
     BlockTextures.skipped st2 = length catalog /\
     BlockTextures.stdout st2 =
       BlockTextures.MsgComplete 0 (length catalog) (length catalog)
       :: rev (map (fun entry => BlockTextures.MsgSkipping entry.1) catalog)).
Proof.
  unfold BlockTextures.main at 1.
  destruct (BlockTextures.main_loop rng1 save_fails1 catalog
              (BlockTextures.initial_state dir)) as [st r] eqn:Hrun.
  intros Hmain.
  assert (BlockTextures.files st1 = BlockTextures.files st /\
          BlockTextures.writes st1 = BlockTextures.writes st /\ r1 = r /\
          forall m, (forall g s t, m <> BlockTextures.MsgComplete g s t) ->
                    m ∉ BlockTextures.stdout st -> m ∉ BlockTextures.stdout st1)
    as (Hfiles & Hwrites & -> & Hstdout).
  { destruct r; injection Hmain as <- <-; repeat split; auto.
    intros m Hm Hout. simpl. rewrite not_elem_of_cons. auto. }
  split; [|split].
  - intros p Hp. rewrite Hfiles, Hwrites.
    destruct (DriverFacts.main_loop_keeps_files _ _ _ _ _ _ p Hrun Hp)
      as [Hkeep Hnot].
    split; [exact Hkeep|]. apply Hnot. simpl. apply not_elem_of_nil.
  - intros block_name Hp. apply Hstdout; [discriminate|].
    apply (DriverFacts.main_loop_never_regenerates _ _ _ _ _ _ _ Hrun Hp).
    simpl. apply not_elem_of_nil.
  - intros ->.
    pose proof (DriverFacts.main_loop_all_present _ _ _ _ _ Hrun) as Hall.
    rewrite <- Hfiles in Hall.
    destruct (DriverFacts.main_loop_all_skipped rng2 save_fails2 catalog
                (BlockTextures.initial_state (BlockTextures.files st1)) Hall)
      as (st2 & Hrun2 & Hf & Hw & Hg & Hs & Hout).
    unfold BlockTextures.main. rewrite Hrun2.
    eexists. split; [reflexivity|]. simpl in *.
    rewrite Hf, Hw, Hg, Hs, Hout, app_nil_r. auto.
Qed.


(** A directory that already holds [coal.png], and the catalog
    [coal, ice]: the first run skips [coal], keeps its file and writes
    [ice.png]; the second run writes nothing. *)
Lemma batch_driver_idempotent_witness :
  let rng := fun _ : string => BlockTextures.ramp_rng in
  let save_fails := fun _ : string => false in
  let catalog :=
    [("coal", BlockTextures.coal); ("ice", BlockTextures.ice)]%string in
  let dir : gmap string (list (list BlockTextures.rgb)) :=
    {[ BlockTextures.output_path "coal" := [[BlockTextures.RGB 0 0 0]] ]} in
  exists st1,
    BlockTextures.main rng save_fails catalog dir = (st1, None) /\
    BlockTextures.writes st1 = [BlockTextures.output_path "ice"] /\
    (forall p : string, is_Some (dir !! p) ->
       BlockTextures.files st1 !! p = dir !! p /\ p ∉ BlockTextures.writes st1) /\
    (forall block_name : string,
       is_Some (dir !! BlockTextures.output_path block_name) ->
       BlockTextures.MsgGenerating block_name ∉ BlockTextures.stdout st1) /\
    ((None : option exn) = None ->
     exists st2,
       BlockTextures.main rng save_fails catalog (BlockTextures.files st1)
       = (st2, None) /\
       BlockTextures.files st2 = BlockTextures.files st1 /\
       BlockTextures.writes st2 = [] /\
       BlockTextures.generated st2 = 0%nat /\
       BlockTextures.skipped st2 = length catalog /\
       BlockTextures.stdout st2 =
         BlockTextures.MsgComplete 0 (length catalog) (length catalog)
         :: rev (map (fun entry => BlockTextures.MsgSkipping entry.1) catalog)).
Proof.
  intros rng save_fails catalog dir.
  destruct (DriverFacts.coal_ice_run rng) as [img Hrun].
  eexists. split; [exact Hrun|]. split; [reflexivity|].
  exact (batch_driver_idempotent rng rng save_fails save_fails catalog dir _
           None Hrun).
Defined.

(** Without the completed first run the second half fails.  Over the
    catalog [ice] on an empty directory, a first run whose encoder fails
    aborts and leaves the directory empty; a second run over that unchanged
    directory, with an encoder that works, writes [ice.png]: one write, and
    a file set that is not the one it started from. *)
Lemma batch_rerun_after_abort_writes :
  let rng := fun _ : string => BlockTextures.ramp_rng in
  let catalog := [("ice", BlockTextures.ice)]%string in
  exists st1 st2 img,
    BlockTextures.main rng (fun _ => true) catalog ∅ = (st1, Some OSError) /\
    BlockTextures.files st1 = ∅ /\
    BlockTextures.main rng (fun _ => false) catalog (BlockTextures.files st1)
    = (st2, None) /\
    BlockTextures.writes st2 = [BlockTextures.output_path "ice"] /\
    BlockTextures.generated st2 = 1%nat /\
    BlockTextures.files st2 = <[BlockTextures.output_path "ice" := img]> ∅ /\
    BlockTextures.files st2 <> BlockTextures.files st1.
Proof.
  intros rng catalog.
  destruct (DriverFacts.ice_run rng) as [img Hrun].
  eexists. eexists. exists img.
  split; [apply DriverFacts.ice_run_encoder_fails|].
  split; [reflexivity|].
  split.
  { unfold BlockTextures.main, catalog. cbn [BlockTextures.files].
    fold (BlockTextures.initial_state ∅). rewrite Hrun. reflexivity. }
  cbn [BlockTextures.writes BlockTextures.generated BlockTextures.files].
  split; [reflexivity|]. split; [reflexivity|]. split; [reflexivity|].
  apply insert_non_empty.
Qed.

(** * Further properties of the cloud-noise script *)

Module CloudNoiseExtra.
Import CloudNoise VolumeFacts.

(** X2. At a lattice point the 3D smooth noise is the hash of that point's
    masked coordinates: the noise interpolates the hashed lattice. *)
Theorem perlin_noise_3d_lattice (i j k : Z) :
  perlin_noise_3d (IZR i) (IZR j) (IZR k)
  = hash_float (IZR ((i mod 256) + (j mod 256) * 57 + (k mod 256) * 113)).
Proof.
  unfold perlin_noise_3d. cbv zeta. rewrite !ZfloorZ.
  change 255%Z with (Z.ones 8). rewrite !Z.land_ones by lia.
  change (2 ^ 8)%Z with 256%Z.
  rewrite !Rminus_diag. lra.
Qed.

End CloudNoiseExtra.

(** * Further properties of the voxel generator and its file *)

Module VolumeExtra.
Import CloudNoise VolumeFacts.

(** Every serialised byte is a cell of the array. *)
Lemma elem_of_tobytes (size : nat) (a : ndarray3) (v : Z) :
  has_shape3 size a -> v ∈ tobytes a ->
  exists z y x,
    (z < size)%nat /\ (y < size)%nat /\ (x < size)%nat /\
    getitem3 a z y x = Some v.
Proof.
  intros [Hlen Hall] Hv. unfold tobytes in Hv.
  apply list_elem_of_In, in_concat in Hv as (row & Hrow & Hv).
  apply in_concat in Hrow as (plane & Hplane & Hrow).
  apply list_elem_of_In, list_elem_of_lookup_1 in Hplane as [z Hz].
  apply list_elem_of_In, list_elem_of_lookup_1 in Hrow as [y Hy].
  apply list_elem_of_In, list_elem_of_lookup_1 in Hv as [x Hx].
  pose proof (proj1 (Forall_lookup _ _) Hall z plane Hz) as [Hpl Hrows].
  pose proof (proj1 (Forall_lookup _ _) Hrows y row Hy) as Hrl.
  exists z, y, x.
  apply lookup_lt_Some in Hz as Hzlt. apply lookup_lt_Some in Hy as Hylt.
  apply lookup_lt_Some in Hx as Hxlt.
  simpl in Hrl. repeat split; try lia.
  unfold getitem3. rewrite Hz. simpl. rewrite Hy. simpl. exact Hx.
Qed.

Lemma wrap_uint8_byte (v : Z) : is_byte (wrap_uint8 v).
Proof. unfold is_byte, wrap_uint8. apply Z.mod_pos_bound. lia. Qed.

(** X3. The generator fails exactly on the sides 1 and 2: the progress interval
    [size^3 // 20] is then 0, and the first [idx % progress_interval]
    raises. *)
Theorem generate_3d_noise_small_sides (size : nat) :
  (1 <= size <= 2)%nat -> generate_3d_noise size = Raise ZeroDivisionError.
Proof.
  intros Hsize.
  assert (size = 1 \/ size = 2)%nat as [-> | ->] by lia; reflexivity.
Qed.

Lemma generate_3d_noise_small_sides_witness :
  generate_3d_noise 2 = Raise ZeroDivisionError.
Proof. apply (generate_3d_noise_small_sides 2). lia. Defined.

Lemma generate_3d_noise_ok (size : nat) :
  size = 0%nat \/ (3 <= size)%nat ->
  exists data,
    generate_3d_noise size = Ok data /\ has_shape3 size data /\
    (forall z y x, (z < size)%nat -> (y < size)%nat -> (x < size)%nat ->
       getitem3 data z y x = Some (voxel_value size x y z)) /\
    length (tobytes data) = (size * size * size)%nat /\
    Forall is_byte (tobytes data).
Proof.
  intros Hsize.
  assert (exists data,
            generate_3d_noise size = Ok data /\
            written size
              (fun z y x => (z < size)%nat /\ (y < size)%nat /\ (x < size)%nat)
              data) as (data & Hgen & Hsh & Hval).
  { destruct Hsize as [-> | Hbig].
    - exists []. split; [reflexivity|]. split; [split; [reflexivity|constructor]|].
      intros z y x (Hz & _). lia.
    - apply GenerateFacts.generate_3d_noise_written.
      apply CloudNoiseFacts.progress_interval_nonzero. nia. }
  exists data. split; [exact Hgen|]. split; [exact Hsh|]. split; [|split].
  - intros z y x Hz Hy Hx. rewrite Hval by auto.
    now rewrite wrap_uint8_id by apply CloudNoiseFacts.voxel_value_range.
  - now apply tobytes_length.
  - apply Forall_forall. intros v Hv.
    destruct (elem_of_tobytes size data v Hsh Hv) as (z & y & x & Hz & Hy & Hx & Hcell).
    rewrite Hval in Hcell by auto. injection Hcell as <-.
    apply wrap_uint8_byte.
Qed.

(** X4. For every other side (0, or 3 and more) the generator returns an array
    of shape [(size, size, size)] whose cell [[z, y, x]] is the value
    computed for voxel [(x, y, z)]; every byte of its serialisation lies in
    [[0, 255]]. *)
Theorem generate_3d_noise_returns (size : nat) :
  size = 0%nat \/ (3 <= size)%nat ->
  exists data,
    generate_3d_noise size = Ok data /\ has_shape3 size data /\
    (forall z y x, (z < size)%nat -> (y < size)%nat -> (x < size)%nat ->
       getitem3 data z y x = Some (voxel_value size x y z)) /\
    length (tobytes data) = (size * size * size)%nat /\
    Forall is_byte (tobytes data).
Proof. apply generate_3d_noise_ok. Qed.

Lemma generate_3d_noise_returns_witness :
  exists data,
    generate_3d_noise 3 = Ok data /\ has_shape3 3 data /\
    (forall z y x, (z < 3)%nat -> (y < 3)%nat -> (x < 3)%nat ->
       getitem3 data z y x = Some (voxel_value 3 x y z)) /\
    length (tobytes data) = (3 * 3 * 3)%nat /\
    Forall is_byte (tobytes data).
Proof. apply (generate_3d_noise_returns 3). right. lia. Defined.

(** X5. The script as a whole: on either byte order [main] returns, and the
    file it writes has 8 + 128^3 = 2,097,160 bytes, starts with ["CN3D"]
    and holds bytes only. *)
Theorem main_writes_full_volume (host : byteorder) :
  exists file,
    main host = Ok file /\
    Z.of_nat (length file) = 2097160%Z /\
    take 4 file = bytes_of_string "CN3D" /\
    Forall is_byte file.
Proof.
  destruct (generate_3d_noise_ok 128) as (data & Hgen & Hsh & _ & Hlen & Hbytes);
    [right; lia|].
  destruct (SerialiseFacts.save_binary_texture_spec host 128 data Hsh)
    as (hdr & Hpack & Hsave); [lia|].
  destruct (SerialiseFacts.struct_pack_I_spec host (Z.of_nat 128))
    as (hdr' & Hpack' & Hhdr & Hhdrb & _); [lia|].
  assert (hdr' = hdr) as -> by congruence.
  exists (bytes_of_string "CN3D" ++ hdr ++ tobytes data).
  split; [unfold main; cbv zeta; rewrite Hgen; exact Hsave|].
  split; [|split].
  - rewrite !length_app, Hhdr, Hlen, SerialiseFacts.magic_bytes. simpl length. lia.
  - rewrite SerialiseFacts.magic_bytes. reflexivity.
  - rewrite !Forall_app. split; [|split; assumption].
    rewrite SerialiseFacts.magic_bytes. unfold is_byte.
    repeat constructor; lia.
Qed.

Lemma concat_inj_uniform {A : Type} (n : nat) (l1 l2 : list (list A)) :
  Forall (fun l => length l = n) l1 -> Forall (fun l => length l = n) l2 ->
  length l1 = length l2 -> concat l1 = concat l2 -> l1 = l2.
Proof.
  intros H1. revert l2.
  induction H1 as [|a l1 Ha H1 IH]; intros [|b l2] H2 Hlen Hcat;
    simpl in *; try discriminate; [reflexivity|].
  apply Forall_cons in H2 as [Hb H2].
  apply app_inj_1 in Hcat as [-> Hcat]; [|congruence].
  f_equal. apply IH; [assumption | lia | assumption].
Qed.

Lemma struct_pack_I_inv (host : byteorder) (v : Z) (hdr : list Z) :
  struct_pack_I host v = Ok hdr ->
  length hdr = 4%nat /\
  decode_le32 (match host with LittleEndian => hdr | BigEndian => rev hdr end)
  = Some v.
Proof.
  intros Hpack. unfold struct_pack_I in Hpack.
  destruct (decide _) as [Hv|_]; [|discriminate].
  destruct (SerialiseFacts.struct_pack_I_spec host v Hv)
    as (hdr' & Hpack' & Hlen & _ & Hdec).
  unfold struct_pack_I in Hpack'.
  destruct (decide _) as [_|Hn]; [|contradiction].
  assert (hdr' = hdr) as -> by congruence. auto.
Qed.

(** X6. The file determines the volume: on a given machine two cubic arrays
    that are written to the same bytes are the same array. *)
Theorem save_binary_texture_injective (host : byteorder) (size1 size2 : nat)
    (data1 data2 : ndarray3) (file : list Z) :
  has_shape3 size1 data1 -> has_shape3 size2 data2 ->
  save_binary_texture host data1 = Ok file ->
  save_binary_texture host data2 = Ok file ->
  data1 = data2.
Proof.
  intros Hsh1 Hsh2 Hsave1 Hsave2. unfold save_binary_texture in *.
  destruct (struct_pack_I host (Z.of_nat (length data1))) as [hdr1|] eqn:Hp1;
    simpl in Hsave1; [|discriminate].
  destruct (struct_pack_I host (Z.of_nat (length data2))) as [hdr2|] eqn:Hp2;
    simpl in Hsave2; [|discriminate].
  destruct (struct_pack_I_inv _ _ _ Hp1) as [Hl1 Hd1].
  destruct (struct_pack_I_inv _ _ _ Hp2) as [Hl2 Hd2].
  assert (hdr1 ++ tobytes data1 = hdr2 ++ tobytes data2) as Heq.
  { apply (app_inv_head (bytes_of_string "CN3D")). congruence. }
  apply app_inj_1 in Heq as [-> Hpayload]; [|congruence].
  assert (length data1 = length data2) as Hlen
    by (apply Nat2Z.inj; congruence).
  assert (size1 = size2) as <-
    by (destruct Hsh1 as [<- _], Hsh2 as [<- _]; exact Hlen).
  unfold tobytes in Hpayload.
  apply (concat_inj_uniform size1); auto using has_shape3_planes.
  apply (concat_inj_uniform size1); auto using has_shape3_rows.
  rewrite !(concat_length_uniform size1) by auto using has_shape3_planes.
  now rewrite Hlen.
Qed.

Lemma save_binary_texture_injective_witness :
  save_binary_texture LittleEndian (zeros3 4)
  = Ok (bytes_of_string "CN3D" ++ [4; 0; 0; 0]%Z ++ replicate 64 0%Z) /\
  zeros3 4 = replicate 4 (replicate 4 (replicate 4 0%Z)).
Proof.
  split; [vm_compute; reflexivity|].
  apply (save_binary_texture_injective LittleEndian 4 4 (zeros3 4)
           (replicate 4 (replicate 4 (replicate 4 0%Z)))
           (bytes_of_string "CN3D" ++ [4; 0; 0; 0]%Z ++ replicate 64 0%Z)).
  - apply zeros3_shape.
  - apply zeros3_shape.
  - vm_compute. reflexivity.
  - vm_compute. reflexivity.
Defined.

End VolumeExtra.

(** * Further properties of the 2D multi-octave noise *)

Lemma for_each_ok_invariant {A S : Type} (P : S -> Prop)
    (body : A -> S -> result S) (xs : list A) (s s' : S) :
  (forall x s0 s1, P s0 -> body x s0 = Ok s1 -> P s1) ->
  P s -> for_each body xs s = Ok s' -> P s'.
Proof.
  intros Hbody. revert s. induction xs as [|x xs IH]; intros s Hs; simpl.
  - now intros [= <-].
  - destruct (body x s) as [s1|e] eqn:Hx; simpl; [|discriminate].
    apply IH. eapply Hbody; eassumption.
Qed.

(** Two loop bodies that agree on the states an invariant allows run alike. *)
Lemma for_each_ext_invariant {A S : Type} (P : S -> Prop)
    (body1 body2 : A -> S -> result S) (xs : list A) (s : S) :
  (forall x s0, x ∈ xs -> P s0 -> body1 x s0 = body2 x s0) ->
  (forall x s0 s1, P s0 -> body1 x s0 = Ok s1 -> P s1) ->
  P s -> for_each body1 xs s = for_each body2 xs s.
Proof.
  revert s. induction xs as [|x xs IH]; intros s Heq Hinv Hs; simpl;
    [reflexivity|].
  rewrite <- (Heq x s) by (assumption || apply list_elem_of_here).
  destruct (body1 x s) as [s1|e] eqn:Hx; simpl; [|reflexivity].
  apply IH; [|assumption|eapply Hinv; eassumption].
  intros x' s0 Hin. apply Heq. now apply list_elem_of_further.
Qed.

Module Noise2DExtra.
Import BlockTextures Noise2DFacts.

Lemma grid_index_bound (width gs x : nat) :
  (x < width)%nat ->
  (Z.to_nat (py_int (INR x / INR width * INR gs)) <= gs)%nat.
Proof.
  intros Hx.
  assert (0 < INR width) as Hw by (apply lt_0_INR; lia).
  assert (0 <= INR x / INR width <= 1) as [Hq0 Hq1].
  { pose proof (pos_INR x) as Hx0.
    assert (INR x <= INR width) as Hle by (apply le_INR; lia).
    split.
    - apply Rmult_le_pos; [assumption|]. left. now apply Rinv_0_lt_compat.
    - apply Rmult_le_reg_r with (r := INR width); [assumption|].
      unfold Rdiv. rewrite Rmult_assoc, Rinv_l by lra. lra. }
  pose proof (pos_INR gs) as Hgs.
  assert (IZR 0 <= INR x / INR width * INR gs <= IZR (Z.of_nat gs)) as Hr.
  { rewrite <- INR_IZR_INZ. split; nra. }
  pose proof (py_int_range _ 0 (Z.of_nat gs) ltac:(lia) Hr). lia.
Qed.

Lemma octave_sample_agree (g g' : nat -> nat -> R)
    (width height gs : nat) (amp : R) (y x : nat) :
  (x < width)%nat -> (y < height)%nat ->
  (forall r c, (r < gs + 2)%nat -> (c < gs + 2)%nat -> g r c = g' r c) ->
  octave_sample g width height gs amp y x
  = octave_sample g' width height gs amp y x.
Proof.
  intros Hx Hy Hagree. unfold octave_sample. cbv zeta.
  pose proof (grid_index_bound width gs x Hx) as Hx0.
  pose proof (grid_index_bound height gs y Hy) as Hy0.
  now rewrite !Hagree by lia.
Qed.

(** X8. For a pixel of the image, one octave reads the gradient array
    [gradients[0 .. grid_size+1, 0 .. grid_size+1]] only: its value is the
    same for any two arrays that agree there. *)
Theorem octave_sample_reads_inside (g g' : nat -> nat -> R)
    (width height gs : nat) (amp : R) (y x : nat) :
  (x < width)%nat -> (y < height)%nat ->
  (forall r c, (r < gs + 2)%nat -> (c < gs + 2)%nat -> g r c = g' r c) ->
  octave_sample g width height gs amp y x
  = octave_sample g' width height gs amp y x.
Proof. apply octave_sample_agree. Qed.

Lemma octave_sample_reads_inside_witness :
  octave_sample (fun r c => INR (r + c)) 32 32 3 1 5 7
  = octave_sample (fun r c => if (r <? 5)%nat then INR (r + c) else 0)
      32 32 3 1 5 7.
Proof.
  apply octave_sample_reads_inside; [lia | lia |].
  intros r c Hr Hc. destruct (Nat.ltb_spec r 5); [reflexivity | lia].
Defined.

Lemma zeros_shape (height width : nat) :
  has_shape2 height width (replicate height (replicate width 0)).
Proof.
  split; [apply length_replicate|]. apply Forall_replicate, length_replicate.
Qed.

(** Whenever the octave loop returns, the field has the requested shape. *)
Lemma accumulate_ok_shape (rand : nat -> nat -> nat -> R) (width height : nat)
    (scale : R) (octaves : nat) (noise : list (list R)) :
  accumulate rand width height scale octaves = Ok noise ->
  has_shape2 height width noise.
Proof.
  unfold accumulate. apply for_each_ok_invariant; [|apply zeros_shape].
  intros octave s0 s1 Hs0.
  destruct (grid_size _ _ _) as [gs|e]; simpl; [|discriminate].
  intros [= <-]. now apply imap_rows_shape.
Qed.

(** X9. The whole function reads, in each octave, the drawn array of shape
    [(grid_size + 2, grid_size + 2)] and nothing else: two sources of draws
    that agree on those arrays give the same outcome. *)
Theorem perlin_noise_2d_reads_inside (rand rand' : nat -> nat -> nat -> R)
    (width height : nat) (scale : R) (octaves : nat) :
  (forall octave gs r c,
     (octave < octaves)%nat -> grid_size width scale (2 ^ octave) = Ok gs ->
     (r < gs + 2)%nat -> (c < gs + 2)%nat ->
     rand octave r c = rand' octave r c) ->
  perlin_noise_2d rand width height scale octaves
  = perlin_noise_2d rand' width height scale octaves.
Proof.
  intros Hagree. unfold perlin_noise_2d.
  enough (accumulate rand width height scale octaves
          = accumulate rand' width height scale octaves) as -> by reflexivity.
  unfold accumulate.
  apply (for_each_ext_invariant (has_shape2 height width));
    [| | apply zeros_shape].
  - intros octave noise Hoct [Hlen Hrows].
    apply elem_of_range in Hoct.
    destruct (grid_size width scale (2 ^ octave)) as [gs|e] eqn:Hgs; simpl;
      [|reflexivity].
    f_equal. apply imap_ext. intros y row Hrow.
    apply imap_ext. intros x v Hv. f_equal.
    apply lookup_lt_Some in Hrow as Hy.
    pose proof (proj1 (Forall_lookup _ _) Hrows y row Hrow) as Hwidth.
    apply lookup_lt_Some in Hv as Hx. simpl in Hwidth.
    apply octave_sample_agree; [lia | lia |].
    intros r c Hr Hc. now rewrite (Hagree octave gs r c).
  - intros octave s0 s1 Hs0.
    destruct (grid_size _ _ _) as [gs|e]; simpl; [|discriminate].
    intros [= <-]. now apply imap_rows_shape.
Qed.

Lemma perlin_noise_2d_reads_inside_witness :
  perlin_noise_2d ramp_rand 32 32 0.3 4
  = perlin_noise_2d (fun octave r c =>
                       if (octave <? 4)%nat then ramp_rand octave r c else 7)
      32 32 0.3 4.
Proof.
  apply perlin_noise_2d_reads_inside.
  intros octave gs r c Hoct _ _ _.
  destruct (Nat.ltb_spec octave 4); [reflexivity | lia].
Defined.

Lemma zero_scale_raises (rand : nat -> nat -> nat -> R)
    (width height octaves : nat) :
  (1 <= octaves)%nat ->
  perlin_noise_2d rand width height 0 octaves = Raise ZeroDivisionError.
Proof.
  intros Hoct. destruct octaves as [|k]; [lia|].
  unfold perlin_noise_2d, accumulate.
  change (range (S k)) with (0%nat :: seq 1 k). cbn [for_each].
  assert (grid_size width 0 (2 ^ 0) = Raise ZeroDivisionError) as ->;
    [|reflexivity].
  unfold grid_size. cbv zeta.
  pose proof (pow2_below_threshold 0 ltac:(lia)) as Hfreq.
  destruct (Rle_dec _ (INR (2 ^ 0))) as [H|_]; [lra|].
  destruct (Req_dec_T (10 * 0 * INR (2 ^ 0)) 0) as [_|Hne]; [reflexivity|].
  exfalso. apply Hne. lra.
Qed.

(** X10. A zero scale makes the first octave divide by zero. *)
Theorem perlin_noise_2d_zero_scale (rand : nat -> nat -> nat -> R)
    (width height octaves : nat) :
  (1 <= octaves)%nat ->
  perlin_noise_2d rand width height 0 octaves = Raise ZeroDivisionError.
Proof. apply zero_scale_raises. Qed.

Lemma perlin_noise_2d_zero_scale_witness :
  perlin_noise_2d ramp_rand 32 32 0 4 = Raise ZeroDivisionError.
Proof. apply perlin_noise_2d_zero_scale. lia. Defined.

Lemma concat_empty_shape {A : Type} (height width : nat) (a : list (list A)) :
  has_shape2 height width a -> height = 0%nat \/ width = 0%nat -> concat a = [].
Proof.
  intros [Hlen Hrows] Hzero. destruct Hzero as [-> | ->].
  - now destruct a.
  - clear Hlen. induction Hrows as [|row a Hrow Hrows IH]; [reflexivity|].
    simpl. rewrite IH. now destruct row.
Qed.

(** X11. With an empty dimension, at most 1024 octaves and a scale of
    ordinary size (for a zero width: any non-zero scale), the octave loop
    still returns, and the minimum of the zero-size field raises
    [ValueError]. *)
Theorem perlin_noise_2d_empty_field (rand : nat -> nat -> nat -> R)
    (width height : nat) (scale : R) (octaves : nat) :
  (octaves <= 1024)%nat -> scale_in_range width scale ->
  width = 0%nat \/ height = 0%nat ->
  perlin_noise_2d rand width height scale octaves = Raise ValueError.
Proof.
  intros Hoct Hs Hzero.
  destruct (accumulate_shape rand width height scale octaves Hoct Hs)
    as (noise & Hacc & Hshape).
  unfold perlin_noise_2d. rewrite Hacc. simpl.
  unfold normalize, field_min.
  now rewrite (concat_empty_shape height width noise Hshape) by tauto.
Qed.

Lemma perlin_noise_2d_empty_field_witness :
  perlin_noise_2d ramp_rand 0 32 0.3 4 = Raise ValueError.
Proof.
  apply perlin_noise_2d_empty_field; [lia | ordinary_scale | now left].
Defined.

Lemma fold_Rmin_zeros (vs : list R) :
  Forall (fun v => v = 0) vs -> fold_left Rmin vs 0 = 0.
Proof.
  induction 1 as [|v vs -> Hvs IH]; simpl; [reflexivity|].
  now rewrite Rmin_left by lra.
Qed.

Lemma fold_Rmax_zeros (vs : list R) :
  Forall (fun v => v = 0) vs -> fold_left Rmax vs 0 = 0.
Proof.
  induction 1 as [|v vs -> Hvs IH]; simpl; [reflexivity|].
  now rewrite Rmax_left by lra.
Qed.

(** X12. With no octave the field stays zero, which is flat: every entry of the
    result is NaN, for any scale. *)
Theorem perlin_noise_2d_no_octaves (rand : nat -> nat -> nat -> R)
    (width height : nat) (scale : R) :
  (1 <= width)%nat -> (1 <= height)%nat ->
  perlin_noise_2d rand width height scale 0
  = Ok (replicate height (replicate width None)).
Proof.
  intros Hw Hh. unfold perlin_noise_2d, accumulate. simpl.
  destruct (concat_nonempty height width _ (zeros_shape height width) Hh Hw)
    as (v & vs & Hcat).
  assert (Forall (fun v => v = 0) (concat (replicate height (replicate width 0))))
    as Hzero.
  { apply Forall_concat, Forall_replicate, Forall_replicate. reflexivity. }
  rewrite Hcat in Hzero. apply Forall_cons in Hzero as [-> Hvs].
  unfold normalize, field_min, field_max. rewrite Hcat. simpl.
  rewrite fold_Rmin_zeros, fold_Rmax_zeros by assumption.
  f_equal. rewrite !fmap_replicate. do 2 f_equal.
  unfold np_divide. destruct (Req_dec_T (0 - 0) 0); [reflexivity|lra].
Qed.

Lemma perlin_noise_2d_no_octaves_witness :
  perlin_noise_2d ramp_rand 2 1 0.3 0 = Ok [[None; None]].
Proof. apply (perlin_noise_2d_no_octaves ramp_rand 2 1 0.3); lia. Defined.

Lemma fold_Rmin_elem (vs : list R) (v : R) : fold_left Rmin vs v ∈ v :: vs.
Proof.
  revert v. induction vs as [|a vs IH]; intros v; simpl; [apply list_elem_of_here|].
  specialize (IH (Rmin v a)). apply elem_of_cons in IH as [-> | Hin].
  - unfold Rmin. destruct (Rle_dec v a);
      [apply list_elem_of_here | apply list_elem_of_further, list_elem_of_here].
  - now do 2 apply list_elem_of_further.
Qed.

Lemma fold_Rmax_elem (vs : list R) (v : R) : fold_left Rmax vs v ∈ v :: vs.
Proof.
  revert v. induction vs as [|a vs IH]; intros v; simpl; [apply list_elem_of_here|].
  specialize (IH (Rmax v a)). apply elem_of_cons in IH as [-> | Hin].
  - unfold Rmax. destruct (Rle_dec v a);
      [apply list_elem_of_further, list_elem_of_here | apply list_elem_of_here].
  - now do 2 apply list_elem_of_further.
Qed.

Lemma elem_of_concat_lookup {A : Type} (ls : list (list A)) (v : A) :
  v ∈ concat ls -> exists y x row, ls !! y = Some row /\ row !! x = Some v.
Proof.
  intros Hv. apply list_elem_of_In, in_concat in Hv as (row & Hrow & Hv).
  apply list_elem_of_In, list_elem_of_lookup_1 in Hrow as [y Hy].
  apply list_elem_of_In, list_elem_of_lookup_1 in Hv as [x Hx].
  eauto.
Qed.

(** X13. When the result has one entry that is a number, the field was not flat:
    the result has the shape [(height, width)], every entry is a number of
    [[0, 1]], and both 0 and 1 occur. *)
Theorem perlin_noise_2d_normalised (rand : nat -> nat -> nat -> R)
    (width height : nat) (scale : R) (octaves : nat)
    (field : list (list float)) (y0 x0 : nat) (n0 : R) :
  perlin_noise_2d rand width height scale octaves = Ok field ->
  sample field y0 x0 = Some n0 ->
  has_shape2 height width field /\
  (forall y x, (y < height)%nat -> (x < width)%nat ->
     exists n, sample field y x = Some n /\ 0 <= n <= 1) /\
  (exists y x, (y < height)%nat /\ (x < width)%nat /\ sample field y x = Some 0) /\
  (exists y x, (y < height)%nat /\ (x < width)%nat /\ sample field y x = Some 1).
Proof.
  intros Hrun Hsome. unfold perlin_noise_2d in Hrun.
  destruct (accumulate rand width height scale octaves) as [noise|e] eqn:Hacc;
    simpl in Hrun; [|discriminate].
  pose proof (accumulate_ok_shape _ _ _ _ _ _ Hacc) as [Hlen Hrows].
  destruct (normalize_inv _ _ Hrun) as (mn & mx & Hmn & Hmx & ->).
  assert (mx - mn <> 0) as Hne.
  { rewrite sample_fmap in Hsome.
    destruct (noise !! y0) as [row|]; simpl in Hsome; [|discriminate].
    destruct (row !! x0) as [v|]; simpl in Hsome; [|discriminate].
    unfold np_divide in Hsome. now destruct (Req_dec_T (mx - mn) 0). }
  assert (forall y x row v, noise !! y = Some row -> row !! x = Some v ->
            (y < height)%nat /\ (x < width)%nat) as Hbounds.
  { intros y x row v Hy Hx.
    pose proof (proj1 (Forall_lookup _ _) Hrows y row Hy) as Hrl. simpl in Hrl.
    apply lookup_lt_Some in Hy, Hx. lia. }
  assert (forall v, v ∈ concat noise ->
            exists y x, (y < height)%nat /\ (x < width)%nat /\
              sample (fmap (M := list)
                        (fmap (M := list) (fun v => np_divide (v - mn) (mx - mn)))
                        noise) y x = Some ((v - mn) / (mx - mn))) as Hat.
  { intros v Hv. apply elem_of_concat_lookup in Hv as (y & x & row & Hy & Hx).
    destruct (Hbounds y x row v Hy Hx) as [Hylt Hxlt].
    exists y, x. split; [assumption|]. split; [assumption|].
    rewrite sample_fmap, Hy. simpl. rewrite Hx. simpl.
    unfold np_divide. now destruct (Req_dec_T (mx - mn) 0). }
  split; [|split; [|split]].
  - split; [now rewrite length_fmap|].
    apply Forall_fmap. eapply Forall_impl; [exact Hrows|].
    intros row Hrow. simpl. now rewrite length_fmap.
  - intros y x Hy Hx.
    destruct (lookup_lt_is_Some_2 noise y) as [row Hrow]; [lia|].
    pose proof (proj1 (Forall_lookup _ _) Hrows y row Hrow) as Hrl. simpl in Hrl.
    destruct (lookup_lt_is_Some_2 row x) as [v Hv]; [lia|].
    destruct (Hat v (lookup_in_concat _ _ _ _ _ Hrow Hv))
      as (y' & x' & _ & _ & Hs').
    exists ((v - mn) / (mx - mn)).
    assert (sample
              (fmap (M := list)
                 (fmap (M := list) (fun v => np_divide (v - mn) (mx - mn)))
                 noise) y x = Some ((v - mn) / (mx - mn))) as Hs.
    { rewrite sample_fmap, Hrow. simpl. rewrite Hv. simpl.
      unfold np_divide. now destruct (Req_dec_T (mx - mn) 0). }
    split; [exact Hs|]. eapply normalize_sample_range; [exact Hrun | exact Hs].
  - unfold field_min in Hmn.
    destruct (concat noise) as [|v vs] eqn:Hcat; [discriminate|].
    injection Hmn as Hmn.
    destruct (Hat mn) as (y & x & Hy & Hx & Hs).
    { rewrite <- Hmn. apply fold_Rmin_elem. }
    exists y, x. split; [assumption|]. split; [assumption|].
    rewrite Hs. f_equal. field. exact Hne.
  - unfold field_max in Hmx.
    destruct (concat noise) as [|v vs] eqn:Hcat; [discriminate|].
    injection Hmx as Hmx.
    destruct (Hat mx) as (y & x & Hy & Hx & Hs).
    { rewrite <- Hmx. apply fold_Rmax_elem. }
    exists y, x. split; [assumption|]. split; [assumption|].
    rewrite Hs. f_equal. field. exact Hne.
Qed.

Lemma perlin_noise_2d_normalised_witness :
  let field := [[Some 0; Some 1]] in
  has_shape2 1 2 field /\
  (forall y x, (y < 1)%nat -> (x < 2)%nat ->
     exists n, sample field y x = Some n /\ 0 <= n <= 1) /\
  (exists y x, (y < 1)%nat /\ (x < 2)%nat /\ sample field y x = Some 0) /\
  (exists y x, (y < 1)%nat /\ (x < 2)%nat /\ sample field y x = Some 1).
Proof.
  apply (perlin_noise_2d_normalised ramp_rand 2 1 0.3 4 [[Some 0; Some 1]]
           0 0 0).
  - apply ramp_perlin_noise_2d; [lra | lia].
  - reflexivity.
Defined.

End Noise2DExtra.

(** * Further properties of the compositors and of [generate_texture] *)

Module CompositorExtra.
Import BlockTextures CompositorFacts Noise2DFacts.

Lemma traverse_raise {A B : Type} (f : A -> result B) (xs : list A) (e : exn) :
  traverse f xs = Raise e -> exists x, x ∈ xs /\ f x = Raise e.
Proof.
  induction xs as [|x xs IH]; simpl; [discriminate|].
  destruct (f x) as [b|e'] eqn:Hx; simpl.
  - destruct (traverse f xs) as [bs|e'']; simpl; [discriminate|].
    intros [= ->]. destruct (IH eq_refl) as (x' & Hin & Hx').
    exists x'. split; [now apply list_elem_of_further | assumption].
  - intros [= ->]. exists x. split; [apply list_elem_of_here | assumption].
Qed.

(** The pixel loops fail only where a pixel of the image fails. *)
Lemma build_image_raise (height width : nat) (pixel : nat -> nat -> result rgb)
    (e : exn) :
  build_image height width pixel = Raise e ->
  exists y x, (y < height)%nat /\ (x < width)%nat /\ pixel y x = Raise e.
Proof.
  intros Hrun. unfold build_image in Hrun.
  apply traverse_raise in Hrun as (y & Hy & Hrow).
  apply traverse_raise in Hrow as (x & Hx & Hpx).
  apply elem_of_range in Hy, Hx. eauto.
Qed.

Lemma build_image_shape (height width : nat) (pixel : nat -> nat -> result rgb)
    (img : image) :
  build_image height width pixel = Ok img -> has_shape2 height width img.
Proof.
  intros Hrun. unfold build_image in Hrun.
  destruct (traverse_lookup _ _ _ Hrun) as [Hlen Hrows].
  split; [rewrite Hlen; unfold range; apply length_seq|].
  apply Forall_lookup. intros y row Hrow.
  assert (y < height)%nat as Hy
    by (apply lookup_lt_Some in Hrow; rewrite Hlen in Hrow;
        unfold range in Hrow; now rewrite length_seq in Hrow).
  destruct (Hrows y y (lookup_range _ _ Hy)) as (row' & Hrow' & Hrun').
  assert (row' = row) as -> by congruence.
  destruct (traverse_lookup _ _ _ Hrun') as [Hlen' _].
  rewrite Hlen'. unfold range. apply length_seq.
Qed.

Lemma store_pixel_valid (r g b : Z) : valid_pixel (store_pixel r g b).
Proof.
  unfold valid_pixel, store_pixel, wrap_uint8. simpl.
  pose proof (Z.mod_pos_bound r 256 ltac:(lia)).
  pose proof (Z.mod_pos_bound g 256 ltac:(lia)).
  pose proof (Z.mod_pos_bound b 256 ltac:(lia)). lia.
Qed.

(** The shape every pixel function has: three quantised channels, then the
    store. *)
Lemma quantised_pixel (cr cg cb : result Z) :
  (forall px,
     (r ← cr; g ← cg; b ← cb; Ok (store_pixel r g b)) = Ok px ->
     valid_pixel px) /\
  (forall e,
     (r ← cr; g ← cg; b ← cb; Ok (store_pixel r g b)) = Raise e ->
     cr = Raise e \/ cg = Raise e \/ cb = Raise e).
Proof.
  split.
  - intros px. destruct cr as [r|], cg as [g|], cb as [b|]; simpl;
      try discriminate.
    intros [= <-]. apply store_pixel_valid.
  - intros e. destruct cr as [r|], cg as [g|], cb as [b|]; simpl;
      try discriminate; intros [= ->]; auto.
Qed.

Lemma int_clip_raise (v : float) (e : exn) :
  int_clip v = Raise e -> e = ValueError /\ v = None.
Proof. destruct v; simpl; [discriminate|]. now intros [= <-]. Qed.

(** The image the pixel loops return has the requested shape and holds
    valid pixels, when every pixel computed is valid. *)
Lemma build_image_valid (height width : nat) (pixel : nat -> nat -> result rgb)
    (img : image) :
  (forall y x px, pixel y x = Ok px -> valid_pixel px) ->
  build_image height width pixel = Ok img ->
  has_shape2 height width img /\
  (forall y x, (y < height)%nat -> (x < width)%nat ->
     exists px, getpixel img y x = Some px /\ valid_pixel px).
Proof.
  intros Hvalid Hrun. split; [eapply build_image_shape, Hrun|].
  intros y x Hy Hx.
  destruct (build_image_pixel _ _ _ _ y x Hrun Hy Hx) as (px & Hpx & Hcomp).
  exists px. split; [assumption|]. eapply Hvalid, Hcomp.
Qed.

(** Splits the dispatch of [generate_texture] into its eight branches. *)
Ltac split_dispatch H :=
  unfold generate_texture in H; cbv zeta in H;
  repeat match type of H with
  | context [String.eqb ?a ?b] => destruct (String.eqb a b) eqn:?
  end.

(** Opens a compositor call in [H]: the noise fields it draws, then the
    pixel loops. *)
Ltac open_compositor H :=
  unfold generate_organic_pattern, generate_rocky_pattern,
    generate_grainy_pattern, generate_crystalline_pattern,
    generate_metallic_pattern, generate_ore_pattern, generate_fluid_pattern,
    lookup_ore_color in H;
  repeat match type of H with
  | context [match ore_color ?c with _ => _ end] =>
      destruct (ore_color c) eqn:?; cbn [mbind result_bind] in H;
      try discriminate H
  | context [perlin_noise_2d ?r ?w ?h ?s ?o] =>
      destruct (perlin_noise_2d r w h s o) eqn:?; cbn [mbind result_bind] in H;
      try discriminate H
  end.

(** X14. Whatever the descriptor, an image that [generate_texture] returns has
    the shape [(height, width)] and channels in [[0, 255]]. *)
Theorem generate_texture_image (rng : randomness) (block_name : string)
    (c : config) (width height : nat) (img : image) :
  generate_texture rng block_name c width height = Ok img ->
  has_shape2 height width img /\
  (forall y x, (y < height)%nat -> (x < width)%nat ->
     exists px, getpixel img y x = Some px /\ valid_pixel px).
Proof.
  intros Hrun. split_dispatch Hrun; open_compositor Hrun;
    (eapply build_image_valid; [|exact Hrun]);
    intros y x px Hpx; cbv beta zeta in Hpx;
    try match type of Hpx with
        | (if ?b then _ else _) = _ => destruct b
        end;
    eapply quantised_pixel, Hpx.
Qed.

Lemma generate_texture_image_witness :
  let img := [[RGB 0 0 0; RGB 25 25 25]] in
  has_shape2 1 2 img /\
  (forall y x, (y < 1)%nat -> (x < 2)%nat ->
     exists px, getpixel img y x = Some px /\ valid_pixel px).
Proof.
  apply (generate_texture_image ramp_rng "coal" coal 2 1).
  rewrite LawFacts.generate_texture_ore by reflexivity.
  exact RampRun.ore_run.
Defined.

Lemma for_each_raise {A S : Type} (body : A -> S -> result S) (xs : list A)
    (s : S) (e : exn) :
  for_each body xs s = Raise e -> exists x s0, x ∈ xs /\ body x s0 = Raise e.
Proof.
  revert s. induction xs as [|x xs IH]; intros s; simpl; [discriminate|].
  destruct (body x s) as [s1|e'] eqn:Hx; simpl.
  - intros Hrun. destruct (IH _ Hrun) as (x' & s0 & Hin & Hx').
    exists x', s0. split; [now apply list_elem_of_further | assumption].
  - intros [= ->]. exists x, s. split; [apply list_elem_of_here | assumption].
Qed.

Lemma perlin_noise_2d_raise_cases (rand : nat -> nat -> nat -> R)
    (width height : nat) (scale : R) (octaves : nat) (e : exn) :
  perlin_noise_2d rand width height scale octaves = Raise e ->
  (e = ZeroDivisionError /\ scale = 0 /\ (1 <= octaves)%nat) \/
  (e = ValueError /\ (width = 0%nat \/ height = 0%nat)) \/
  (e = OverflowError /\ scale <> 0 /\
   ((1024 < octaves)%nat \/ ~ scale_in_range width scale)).
Proof.
  intros Hrun. pose proof Hrun as Hnoise. unfold perlin_noise_2d in Hrun.
  destruct (accumulate rand width height scale octaves) as [noise|e'] eqn:Hacc;
    simpl in Hrun.
  - right. left.
    pose proof (Noise2DExtra.accumulate_ok_shape _ _ _ _ _ _ Hacc) as Hshape.
    unfold normalize, field_min, field_max in Hrun.
    destruct (concat noise) as [|v vs] eqn:Hcat; simpl in Hrun; [|discriminate].
    injection Hrun as <-. split; [reflexivity|].
    destruct width as [|w]; [now left|]. destruct height as [|h]; [now right|].
    destruct (concat_nonempty _ _ _ Hshape) as (v & vs & Hcat'); [lia | lia |].
    congruence.
  - injection Hrun as ->. unfold accumulate in Hacc.
    apply for_each_raise in Hacc as (octave & noise & Hin & Hbody).
    apply elem_of_range in Hin. cbv zeta in Hbody.
    destruct (grid_size width scale (2 ^ octave)) as [gs|e'] eqn:Hgs;
      simpl in Hbody; [discriminate|].
    injection Hbody as ->.
    apply grid_size_raise in Hgs as [(-> & -> & _) | (-> & Hover)].
    + left. repeat split. lia.
    + right. right. split; [reflexivity|].
      assert (scale <> 0) as Hs.
      { intros ->. rewrite Noise2DExtra.zero_scale_raises in Hnoise by lia.
        discriminate Hnoise. }
      split; [exact Hs|].
      destruct Hover as [Hk | [_ Hr]]; [left; lia | now right].
Qed.

(** X15. For a scale that is zero or of ordinary size the 2D noise raises
    in three ways only: the division by a zero scale; the minimum of a
    zero-size field; and, with more than 1024 octaves, the conversion of
    [2 ** octave] to a float. *)
Theorem perlin_noise_2d_raise (rand : nat -> nat -> nat -> R)
    (width height : nat) (scale : R) (octaves : nat) (e : exn) :
  scale = 0 \/ scale_in_range width scale ->
  perlin_noise_2d rand width height scale octaves = Raise e ->
  (e = ZeroDivisionError /\ scale = 0 /\ (1 <= octaves)%nat) \/
  (e = ValueError /\ (width = 0%nat \/ height = 0%nat)) \/
  (e = OverflowError /\ scale <> 0 /\ (1024 < octaves)%nat).
Proof.
  intros Hscale Hrun.
  apply perlin_noise_2d_raise_cases in Hrun
    as [Hzero | [Hvalue | (He & Hs & [Hoct | Hout])]]; auto.
  destruct Hscale as [Hscale | Hscale]; contradiction.
Qed.

Lemma perlin_noise_2d_raise_witness :
  (ZeroDivisionError = ZeroDivisionError /\ 0 = 0 /\ (1 <= 4)%nat) \/
  (ZeroDivisionError = ValueError /\ (32 = 0 \/ 32 = 0)%nat) \/
  (ZeroDivisionError = OverflowError /\ 0 <> 0 /\ (1024 < 4)%nat).
Proof.
  apply (perlin_noise_2d_raise ramp_rand 32 32 0 4 ZeroDivisionError).
  - now left.
  - apply Noise2DExtra.zero_scale_raises. lia.
Defined.

(** A fixed scale of the compositors is out of range for a wide image
    only. *)
Lemma fixed_scale_overflow (width : nat) (scale : R) :
  0.1 <= scale -> ~ scale_in_range width scale -> 1000 <= INR width.
Proof.
  unfold scale_in_range. intros Hs Hr. rewrite Rabs_pos_eq in Hr by lra.
  apply Rnot_lt_le in Hr. lra.
Qed.

(** Closes the goal of [generate_texture_raise_cases] when [H] says that a
    call of the 2D noise raised. *)
Ltac noise_raised H :=
  apply perlin_noise_2d_raise_cases in H
    as [(-> & Hzero & _) | [(-> & _) | (-> & Hs & [Hoct | Hr])]];
  [ first [ now (right; left) | exfalso; lra ]
  | now (right; right; left)
  | exfalso; lia
  | right; right; right; split; [reflexivity|];
    first [ left; split; assumption
          | right; refine (fixed_scale_overflow _ _ _ Hr); lra ] ].

Lemma generate_texture_raise_cases (rng : randomness) (block_name : string)
    (c : config) (width height : nat) (e : exn) :
  generate_texture rng block_name c width height = Raise e ->
  (e = KeyError /\ ore_color c = None /\
   (pattern c = "metallic"%string \/ pattern c = "ore"%string)) \/
  (e = ZeroDivisionError /\ noise_scale c = 0) \/
  e = ValueError \/
  (e = OverflowError /\
   ((noise_scale c <> 0 /\ ~ scale_in_range width (noise_scale c)) \/
    1000 <= INR width)).
Proof.
  intros Hrun. split_dispatch Hrun; open_compositor Hrun;
    repeat match goal with
    | H : String.eqb _ _ = true |- _ => apply String.eqb_eq in H
    | H : String.eqb _ _ = false |- _ => clear H
    end;
    try (injection Hrun as <-);
    try match goal with
    | H : perlin_noise_2d _ _ _ _ _ = Raise _ |- _ => noise_raised H
    end;
    try (left; auto; fail);
    right; right; left;
    apply build_image_raise in Hrun as (y & x & _ & _ & Hpx);
    cbv beta zeta in Hpx;
    try match type of Hpx with
        | (if ?b then _ else _) = _ => destruct b
        end;
    apply quantised_pixel in Hpx as [Hc | [Hc | Hc]];
    now apply int_clip_raise in Hc.
Qed.



(** X17. [KeyError] is raised exactly for a metallic or ore descriptor that lacks
    the ore colour, whatever the size and the draws: the key is read before
    any noise is computed. *)
Theorem generate_texture_key_error (rng : randomness) (block_name : string)
    (c : config) (width height : nat) :
  generate_texture rng block_name c width height = Raise KeyError <->
  ore_color c = None /\
  (pattern c = "metallic"%string \/ pattern c = "ore"%string).
Proof.
  split.
  - intros Hrun.
    destruct (generate_texture_raise_cases _ _ _ _ _ _ Hrun)
      as [(_ & Hnone & Hpat) | [(Hne & _) | [Hne | (Hne & _)]]];
      [auto | discriminate | discriminate | discriminate].
  - intros [Hnone [Hpat | Hpat]]; unfold generate_texture, lookup_ore_color;
      rewrite Hpat, Hnone; reflexivity.
Qed.

(** X18. A pattern name that is none of the seven known ones is treated as
    ["organic"]: the texture is the one of the same descriptor with that
    pattern, and the optional keys are not read. *)
Theorem generate_texture_fallback (rng : randomness) (block_name : string)
    (c : config) (width height : nat) :
  pattern c ∉ known_patterns ->
  forall ore sp gl,
    generate_texture rng block_name c width height
    = generate_texture rng block_name
        {| base_color := base_color c; variation := variation c;
           noise_scale := noise_scale c; pattern := "organic";
           ore_color := ore; sparkle := sp; glow := gl |} width height.
Proof.
  intros Hunknown ore sp gl. unfold known_patterns in Hunknown.
  rewrite !not_elem_of_cons in Hunknown.
  destruct Hunknown as (H1 & H2 & H3 & H4 & H5 & H6 & H7 & _).
  unfold generate_texture. cbv zeta.
  apply String.eqb_neq in H1, H2, H3, H4, H5, H6, H7.
  cbn [pattern base_color variation noise_scale].
  now rewrite H1, H2, H3, H4, H5, H6, H7.
Qed.

Lemma generate_texture_fallback_witness :
  generate_texture ramp_rng "glass"
    {| base_color := RGB 9 9 9; variation := 3; noise_scale := 0.3;
       pattern := "glassy"; ore_color := None; sparkle := None;
       glow := None |} 32 32
  = generate_texture ramp_rng "glass"
      {| base_color := RGB 9 9 9; variation := 3; noise_scale := 0.3;
         pattern := "organic"; ore_color := Some (RGB 1 2 3);
         sparkle := Some true; glow := Some true |} 32 32.
Proof.
  apply (generate_texture_fallback ramp_rng "glass"
           {| base_color := RGB 9 9 9; variation := 3; noise_scale := 0.3;
              pattern := "glassy"; ore_color := None; sparkle := None;
              glow := None |} 32 32).
  unfold known_patterns. cbn [pattern].
  rewrite !not_elem_of_cons. repeat split; try discriminate.
  apply not_elem_of_nil.
Defined.




(** X21. Every pixel of a crystalline texture is the base colour scaled by one
    of the tiers 0.8, 1.0 and 1.3, or by 1.8; the factor 1.8 needs the
    sparkle flag and a draw above 0.95, and a NaN sample without sparkle
    gives 0.8. *)
Theorem generate_crystalline_pattern_tiers (rng : randomness)
    (width height : nat) (base_color : rgb) (variation : Z) (noise_scale : R)
    (sparkle : bool) (img : image) (y x : nat) :
  generate_crystalline_pattern rng width height base_color variation
    noise_scale sparkle = Ok img ->
  (y < height)%nat -> (x < width)%nat ->
  exists noise brightness,
    perlin_noise_2d (noise_rand rng 0) width height noise_scale 3 = Ok noise /\
    getpixel img y x =
    Some (RGB (py_int (np_clip (IZR (chan_r base_color) * brightness) 0 255))
              (py_int (np_clip (IZR (chan_g base_color) * brightness) 0 255))
              (py_int (np_clip (IZR (chan_b base_color) * brightness) 0 255))) /\
    (brightness = 0.8 \/ brightness = 1.0 \/ brightness = 1.3 \/
     brightness = 1.8) /\
    (brightness = 1.8 -> sparkle = true /\ 0.95 < sparkle_rand rng y x) /\
    (sparkle = false -> sample noise y x = None -> brightness = 0.8).
Proof.
  intros Himg Hy Hx. unfold generate_crystalline_pattern in Himg.
  destruct (perlin_noise_2d _ width height noise_scale 3) as [noise|e] eqn:Hnoise;
    cbn [mbind result_bind] in Himg; [|discriminate].
  destruct (build_image_pixel _ _ _ _ y x Himg Hy Hx) as (px & Hpx & Hrun).
  cbv zeta in Hrun. run_pixel in Hrun. injection Hrun as <-.
  rewrite store_pixel_channels in Hpx by apply py_int_clip_range.
  exists noise. eexists. split; [reflexivity|]. split; [exact Hpx|].
  destruct sparkle; cbn [andb];
    destruct (Rlt_dec 0.95 (sparkle_rand rng y x)) as [Hdraw|Hdraw];
    destruct (sample noise y x) as [smp|]; cbn [float_gt];
    repeat match goal with
    | |- context [Rlt_dec ?a ?b] => destruct (Rlt_dec a b)
    end;
    (split; [auto|]); (split; [intros; try lra; auto|]); intros; try reflexivity;
    discriminate.
Qed.

(** The crystalline compositor on the two-pixel run: the sample 0 takes the
    tier 0.8 and the sample 1 the tier 1.3, whose blue channel is clipped. *)
Lemma crystalline_run :
  generate_crystalline_pattern ramp_rng 2 1 (RGB 100 150 200) 20 0.2 false
  = Ok [[RGB 80 120 160; RGB 130 195 255]].
Proof.
  unfold generate_crystalline_pattern.
  change (noise_rand ramp_rng 0) with ramp_rand.
  rewrite ramp_perlin_noise_2d by (lra || lia).
  cbn [mbind result_bind]. run_pixel_loops. cbn [andb].
  destruct (Rlt_dec 0.7 0) as [H|_]; [lra|].
  destruct (Rlt_dec 0.4 0) as [H|_]; [lra|].
  destruct (Rlt_dec 0.7 1) as [_|H]; [|lra].
  quantise 80%Z 120%Z 160%Z 130%Z 195%Z 260%Z. reflexivity.
Qed.

Lemma generate_crystalline_pattern_tiers_witness :
  exists noise brightness,
    perlin_noise_2d (noise_rand ramp_rng 0) 2 1 0.2 3 = Ok noise /\
    getpixel [[RGB 80 120 160; RGB 130 195 255]] 0 1 =
    Some (RGB (py_int (np_clip (IZR 100 * brightness) 0 255))
              (py_int (np_clip (IZR 150 * brightness) 0 255))
              (py_int (np_clip (IZR 200 * brightness) 0 255))) /\
    (brightness = 0.8 \/ brightness = 1.0 \/ brightness = 1.3 \/
     brightness = 1.8) /\
    (brightness = 1.8 -> false = true /\ 0.95 < sparkle_rand ramp_rng 0 1) /\
    (false = false -> sample noise 0 1 = None -> brightness = 0.8).
Proof.
  apply (generate_crystalline_pattern_tiers ramp_rng 2 1 (RGB 100 150 200) 20
           0.2 false [[RGB 80 120 160; RGB 130 195 255]] 0 1 crystalline_run);
    lia.
Defined.

End CompositorExtra.

(** * Further properties of the batch driver *)

Module DriverExtra.
Import BlockTextures.



Section Run.
Variable rng : string -> randomness.
Variable save_fails : string -> bool.

(** The bookkeeping of the loop, from any state: [new] lists the paths it
    writes, latest first. *)
Lemma main_loop_accounting (catalog : list (string * config))
    (st st' : driver_state) (r : option exn) :
  main_loop rng save_fails catalog st = (st', r) ->
  exists new,
    writes st' = new ++ writes st /\
    generated st' = (generated st + length new)%nat /\
    NoDup new /\
    Forall (fun p => files st !! p = None) new /\
    dom (files st') =@{gset string} dom (files st) ∪ list_to_set new /\
    sublist (rev new) (map (fun entry => output_path entry.1) catalog) /\
    (r = None ->
     (generated st' + skipped st'
      = generated st + skipped st + length catalog)%nat) /\
    (r <> None ->
     (generated st' + skipped st'
      < generated st + skipped st + length catalog)%nat).
Proof.
  revert st. induction catalog as [|[name c] catalog IH]; intros st; simpl.
  - intros [= <- <-]. exists []. simpl.
    repeat split; try lia; try constructor; try congruence.
    simpl. now rewrite (right_id_L ∅ (∪)).
  - destruct (decide _) as [Hex|Hnew].
    + intros Hrun. destruct (IH _ Hrun)
        as (new & Hw & Hg & Hnd & Hfresh & Hdom & Hsub & Hdone & Hfail).
      simpl in *. exists new. repeat split; try assumption.
      * now apply sublist_cons.
      * intros Hr. specialize (Hdone Hr). lia.
      * intros Hr. specialize (Hfail Hr). lia.
    + assert (files st !! output_path name = None) as Hnone
        by (destruct (files st !! output_path name) eqn:E;
            [exfalso; apply Hnew; eauto | reflexivity]).
      assert (forall st1 e, generated st1 = generated st ->
                skipped st1 = skipped st -> writes st1 = writes st ->
                files st1 = files st ->
                exists new : list string,
                  writes st1 = new ++ writes st /\
                  generated st1 = (generated st + length new)%nat /\
                  NoDup new /\
                  Forall (fun p => files st !! p = None) new /\
                  dom (files st1) =@{gset string}
                    dom (files st) ∪ list_to_set new /\
                  sublist (rev new)
                    (output_path name
                     :: map (fun entry => output_path entry.1) catalog) /\
                  ((Some e : option exn) = None ->
                   (generated st1 + skipped st1
                    = generated st + skipped st + S (length catalog))%nat) /\
                  ((Some e : option exn) <> None ->
                   (generated st1 + skipped st1
                    < generated st + skipped st + S (length catalog))%nat))
        as Hstop.
      { intros st1 e Hg Hs Hw Hf. exists []. simpl. rewrite Hf.
        repeat split; try lia; try constructor; try congruence.
        - simpl. now rewrite (right_id_L ∅ (∪)).
        - apply sublist_nil_l. }
      destruct (generate_texture _ _ _ _ _) as [texture|e].
      2:{ intros [= <- <-]. now apply Hstop. }
      destruct (save_fails _).
      { intros [= <- <-]. now apply Hstop. }
      intros Hrun. destruct (IH _ Hrun)
        as (new & Hw & Hg & Hnd & Hfresh & Hdom & Hsub & Hdone & Hfail).
      simpl in *. exists (new ++ [output_path name]).
      assert (output_path name ∉ new) as Hnotin.
      { intros Hin. rewrite Forall_forall in Hfresh.
        specialize (Hfresh _ Hin). now rewrite lookup_insert_eq in Hfresh. }
      repeat split.
      * now rewrite <- app_assoc.
      * rewrite length_app. simpl. lia.
      * apply NoDup_app. split; [assumption|]. split; [|apply NoDup_singleton].
        intros p Hp Hp'. apply list_elem_of_singleton in Hp' as ->.
        contradiction.
      * apply Forall_app. split; [|now repeat constructor].
        eapply Forall_impl; [exact Hfresh|]. intros p Hp. simpl in Hp.
        apply lookup_insert_None in Hp. tauto.
      * rewrite Hdom, dom_insert_L. apply set_eq. intros q.
        rewrite !elem_of_union, !elem_of_list_to_set, elem_of_app,
          elem_of_singleton, list_elem_of_singleton. tauto.
      * rewrite rev_app_distr. simpl. now apply sublist_skip.
      * intros Hr. specialize (Hdone Hr). lia.
      * intros Hr. specialize (Hfail Hr). lia.
Qed.

(** The loop prints nothing but "Skipping" and "Generating" lines. *)
Lemma main_loop_stdout (catalog : list (string * config))
    (st st' : driver_state) (r : option exn) (m : message) :
  main_loop rng save_fails catalog st = (st', r) ->
  m ∈ stdout st' ->
  m ∈ stdout st \/
  exists entry, entry ∈ catalog /\
    (m = MsgSkipping entry.1 \/ m = MsgGenerating entry.1).
Proof.
  revert st. induction catalog as [|[name c] catalog IH]; intros st; simpl.
  - intros [= <- <-]. auto.
  - assert (forall st1, main_loop rng save_fails catalog st1 = (st', r) ->
              (forall m', m' ∈ stdout st1 ->
                 m' ∈ stdout st \/ m' = MsgSkipping name \/
                 m' = MsgGenerating name) ->
              m ∈ stdout st' ->
              m ∈ stdout st \/
              exists entry, entry ∈ (name, c) :: catalog /\
                (m = MsgSkipping entry.1 \/ m = MsgGenerating entry.1))
      as Hstep.
    { intros st1 Hrun Hout Hm.
      destruct (IH _ Hrun Hm) as [Hin | (entry & Hin & Hcase)].
      - destruct (Hout _ Hin) as [H | H]; [auto|].
        right. exists (name, c). split; [apply list_elem_of_here | exact H].
      - right. exists entry. split; [now apply list_elem_of_further | exact Hcase]. }
    assert (forall m', m' ∈ MsgGenerating name :: stdout st ->
              m' ∈ stdout st \/ m' = MsgSkipping name \/
              m' = MsgGenerating name) as Hgen
      by (intros m' [-> | H]%elem_of_cons; auto).
    destruct (decide _) as [Hex|Hnew].
    + intros Hrun. apply (Hstep _ Hrun). simpl.
      intros m' [-> | H]%elem_of_cons; auto.
    + destruct (generate_texture _ _ _ _ _) as [texture|e].
      2:{ intros [= <- <-] Hm. simpl in Hm.
          destruct (Hgen _ Hm) as [H | H]; [auto|].
          right. exists (name, c). split; [apply list_elem_of_here | exact H]. }
      destruct (save_fails _).
      { intros [= <- <-] Hm. simpl in Hm.
        destruct (Hgen _ Hm) as [H | H]; [auto|].
        right. exists (name, c). split; [apply list_elem_of_here | exact H]. }
      intros Hrun. apply (Hstep _ Hrun). simpl. exact Hgen.
Qed.

(** A loop that leaves with an exception left at an entry that failed. *)
Lemma main_loop_abort_inv (catalog : list (string * config))
    (st st' : driver_state) (e : exn) :
  main_loop rng save_fails catalog st = (st', Some e) ->
  exists pre block_name c rest st0,
    catalog = pre ++ (block_name, c) :: rest /\
    main_loop rng save_fails pre st = (st0, None) /\
    ~ is_Some (files st0 !! output_path block_name) /\
    entry_fails rng save_fails block_name c e /\
    st' = {| files := files st0; generated := generated st0;
             skipped := skipped st0; writes := writes st0;
             stdout := MsgGenerating block_name :: stdout st0 |}.
Proof.
  revert st. induction catalog as [|[name c] catalog IH]; intros st; simpl;
    [discriminate|].
  destruct (decide _) as [Hex|Hnew].
  - intros Hrun.
    destruct (IH _ Hrun) as (pre & bn & c' & rest & st0 & -> & Hpre & H).
    exists ((name, c) :: pre), bn, c', rest, st0.
    split; [reflexivity|]. split; [|exact H].
    simpl. destruct (decide _) as [_|Hn]; [exact Hpre | contradiction].
  - destruct (generate_texture (rng name) name c 32 32) as [texture|e'] eqn:Hgen.
    2:{ intros [= <- <-]. exists [], name, c, catalog, st.
        repeat split; try assumption. now left. }
    destruct (save_fails (output_path name)) eqn:Hsave.
    { intros [= <- <-]. exists [], name, c, catalog, st.
      repeat split; try assumption. right. eauto. }
    intros Hrun.
    destruct (IH _ Hrun) as (pre & bn & c' & rest & st0 & -> & Hpre & H).
    exists ((name, c) :: pre), bn, c', rest, st0.
    split; [reflexivity|]. split; [|exact H].
    simpl. destruct (decide _) as [Hn|_]; [contradiction|].
    now rewrite Hgen, Hsave.
Qed.


End Run.

(** Checks one entry of the catalog against [well_formed]. *)
Ltac check_entry :=
  unfold well_formed, known_patterns, valid_pixel; simpl;
  repeat match goal with
  | |- _ /\ _ => split
  | |- _ <-> _ => split
  end;
  try lra; try lia;
  try (apply list_elem_of_In; simpl; auto 10; fail);
  try (intros [? H]; first [discriminate H | reflexivity]);
  try (intros [H | H]; first [discriminate H | eauto]);
  try (intros col H; first [discriminate H | injection H as <-; simpl; lia]);
  eauto.

Lemma BLOCK_TEXTURES_entries_well_formed :
  Forall (fun entry => well_formed entry.2) BLOCK_TEXTURES.
Proof.
  unfold BLOCK_TEXTURES.
  repeat (apply Forall_cons; split; [check_entry|]). constructor.
Qed.

(** X22. The shipped catalog has 38 entries with distinct names, and each of
    them is well formed: its pattern is one of the seven that
    [generate_texture] tests for, the ore colour is present exactly for
    the metallic and ore patterns, and the scale is positive. *)
Theorem BLOCK_TEXTURES_well_formed :
  length BLOCK_TEXTURES = 38%nat /\
  NoDup (map fst BLOCK_TEXTURES) /\
  Forall (fun entry => well_formed entry.2) BLOCK_TEXTURES.
Proof.
  split; [reflexivity|]. split; [|exact BLOCK_TEXTURES_entries_well_formed].
  apply (bool_decide_unpack _). vm_compute. exact I.
Qed.

(** X23. The counters and the directory after a run of [main], complete or not:
    [generated] counts the files written, no file is written twice, none of
    them was in the directory before, the directory gained exactly those
    files, they were written in catalog order, and [generated + skipped]
    is the catalog's size exactly when the run completes. *)
Theorem main_accounting (rng : string -> randomness)
    (save_fails : string -> bool) (catalog : list (string * config))
    (dir : gmap string image) (st : driver_state) (r : option exn) :
  main rng save_fails catalog dir = (st, r) ->
  generated st = length (writes st) /\
  NoDup (writes st) /\
  Forall (fun p => dir !! p = None) (writes st) /\
  dom (files st) =@{gset string} dom dir ∪ list_to_set (writes st) /\
  sublist (rev (writes st)) (map (fun entry => output_path entry.1) catalog) /\
  (r = None -> (generated st + skipped st = length catalog)%nat) /\
  (r <> None -> (generated st + skipped st < length catalog)%nat).
Proof.
  unfold main.
  destruct (main_loop rng save_fails catalog (initial_state dir)) as [st0 r0]
    eqn:Hrun.
  destruct (main_loop_accounting _ _ _ _ _ _ Hrun)
    as (new & Hw & Hg & Hnd & Hfresh & Hdom & Hsub & Hdone & Hfail).
  simpl in Hw, Hg, Hfresh, Hdom, Hdone, Hfail. rewrite app_nil_r in Hw.
  subst new.
  intros Hmain.
  assert (generated st = generated st0 /\ skipped st = skipped st0 /\
          writes st = writes st0 /\ files st = files st0 /\ r = r0)
    as (-> & -> & -> & -> & ->)
    by (destruct r0; injection Hmain as <- <-; auto).
  repeat split; assumption.
Qed.

Lemma main_accounting_witness :
  exists st,
    main (fun _ => ramp_rng) (fun _ => false) [("ice", ice)]%string ∅
    = (st, None) /\
    generated st = length (writes st) /\
    NoDup (writes st) /\
    Forall (fun p => (∅ : gmap string image) !! p = None) (writes st) /\
    dom (files st) =@{gset string}
      dom (∅ : gmap string image) ∪ list_to_set (writes st) /\
    sublist (rev (writes st))
      (map (fun entry => output_path entry.1) [("ice", ice)]%string) /\
    ((None : option exn) = None ->
     (generated st + skipped st = length [("ice", ice)]%string)%nat) /\
    ((None : option exn) <> None ->
     (generated st + skipped st < length [("ice", ice)]%string)%nat).
Proof.
  destruct (DriverFacts.ice_run (fun _ => ramp_rng)) as [img Hrun].
  assert (main (fun _ => ramp_rng) (fun _ => false) [("ice", ice)]%string ∅
          = ({| files := <[output_path "ice" := img]> ∅; generated := 1;
                skipped := 0; writes := [output_path "ice"];
                stdout := [MsgComplete 1 0 1; MsgGenerating "ice"] |}, None))
    as Hmain by (unfold main; rewrite Hrun; reflexivity).
  eexists. split; [exact Hmain|].
  exact (main_accounting _ _ _ _ _ _ Hmain).
Defined.

(** X24. When [main] leaves with an exception, the catalog splits at one entry:
    the entries before it were processed, that entry had no file and
    failed with this exception, after its "Generating" line was printed. *)
Theorem main_aborts_at_failed_entry (rng : string -> randomness)
    (save_fails : string -> bool) (catalog : list (string * config))
    (dir : gmap string image) (st : driver_state) (e : exn) :
  main rng save_fails catalog dir = (st, Some e) ->
  exists pre block_name c rest st0,
    catalog = pre ++ (block_name, c) :: rest /\
    main_loop rng save_fails pre (initial_state dir) = (st0, None) /\
    ~ is_Some (files st0 !! output_path block_name) /\
    entry_fails rng save_fails block_name c e /\
    st = {| files := files st0; generated := generated st0;
            skipped := skipped st0; writes := writes st0;
            stdout := MsgGenerating block_name :: stdout st0 |}.
Proof.
  unfold main.
  destruct (main_loop rng save_fails catalog (initial_state dir)) as [st0 [e0|]]
    eqn:Hrun; [|discriminate].
  intros [= <- <-]. exact (main_loop_abort_inv _ _ _ _ _ _ Hrun).
Qed.

(** The run over [grass, dirt] on an empty directory, with an encoder that
    fails on [grass.png]. *)
Lemma grass_run (rng : string -> randomness)
    (rest : list (string * config)) :
  exists e,
    main rng (fun p => String.eqb p (output_path "grass"))
      (("grass"%string, grass) :: rest) ∅
    = ({| files := ∅; generated := 0; skipped := 0; writes := [];
          stdout := [MsgGenerating "grass"] |}, Some e).
Proof.
  destruct (DriverFacts.first_entry_fails rng "grass" grass) as [e Hfail].
  exists e.
  apply (DriverFacts.main_abort rng _ [] rest "grass" grass ∅
           (initial_state ∅) e).
  - reflexivity.
  - simpl. rewrite lookup_empty. intros [? H]. discriminate H.
  - exact Hfail.
Qed.

Lemma main_aborts_at_failed_entry_witness :
  let rng := fun _ : string => ramp_rng in
  let save_fails := fun p => String.eqb p (output_path "grass") in
  let catalog := [("grass", grass); ("dirt", dirt)]%string in
  exists e st,
    main rng save_fails catalog ∅ = (st, Some e) /\
    exists pre block_name c rest st0,
      catalog = pre ++ (block_name, c) :: rest /\
      main_loop rng save_fails pre (initial_state ∅) = (st0, None) /\
      ~ is_Some (files st0 !! output_path block_name) /\
      entry_fails rng save_fails block_name c e /\
      st = {| files := files st0; generated := generated st0;
              skipped := skipped st0; writes := writes st0;
              stdout := MsgGenerating block_name :: stdout st0 |}.
Proof.
  intros rng save_fails catalog.
  destruct (grass_run rng [("dirt"%string, dirt)]) as [e Hmain].
  exists e. eexists. split; [exact Hmain|].
  exact (main_aborts_at_failed_entry _ _ _ _ _ _ Hmain).
Defined.






(** X27. The exit status of the script is 0 exactly when [main] returns; its
    last line then is the summary, whose two counters add up to the
    catalog's size.  Otherwise the status is 1, the last line is the error
    report, the directory is as the loop left it, and no summary was
    printed. *)
Theorem script_exit_status (rng : string -> randomness)
    (save_fails : string -> bool) (catalog : list (string * config))
    (dir : gmap string image) (st : driver_state) (code : nat) :
  script rng save_fails catalog dir = (st, code) ->
  (code = 0%nat /\ main rng save_fails catalog dir = (st, None) /\
   head (stdout st)
   = Some (MsgComplete (generated st) (skipped st) (length catalog)) /\
   (generated st + skipped st = length catalog)%nat) \/
  (code = 1%nat /\
   exists st0 e,
     main rng save_fails catalog dir = (st0, Some e) /\
     stdout st = MsgError e :: stdout st0 /\ files st = files st0 /\
     forall g s t, MsgComplete g s t ∉ stdout st).
Proof.
  unfold script.
  destruct (main rng save_fails catalog dir) as [st0 [e|]] eqn:Hmain.
  - intros [= <- <-]. right. split; [reflexivity|].
    exists st0, e. simpl. repeat split.
    intros g s t Hin. apply elem_of_cons in Hin as [Hin|Hin]; [discriminate|].
    unfold main in Hmain.
    destruct (main_loop rng save_fails catalog (initial_state dir))
      as [st1 [e1|]] eqn:Hrun; [|discriminate].
    injection Hmain as <- <-.
    destruct (main_loop_stdout _ _ _ _ _ _ _ Hrun Hin)
      as [Hinit | (entry & _ & [H | H])];
      [now apply elem_of_nil in Hinit | discriminate | discriminate].
  - intros [= <- <-]. left. split; [reflexivity|]. split; [reflexivity|].
    unfold main in Hmain.
    destruct (main_loop rng save_fails catalog (initial_state dir))
      as [st1 [e1|]] eqn:Hrun; [discriminate|].
    injection Hmain as <-. simpl. split; [reflexivity|].
    destruct (main_loop_accounting _ _ _ _ _ _ Hrun)
      as (_ & _ & _ & _ & _ & _ & _ & Hdone & _).
    now apply Hdone.
Qed.

Lemma script_exit_status_witness :
  let rng := fun _ : string => ramp_rng in
  let save_fails := fun _ : string => false in
  let catalog := [("ice", ice)]%string in
  exists st code,
    script rng save_fails catalog ∅ = (st, code) /\
    ((code = 0%nat /\ main rng save_fails catalog ∅ = (st, None) /\
      head (stdout st)
      = Some (MsgComplete (generated st) (skipped st) (length catalog)) /\
      (generated st + skipped st = length catalog)%nat) \/
     (code = 1%nat /\
      exists st0 e,
        main rng save_fails catalog ∅ = (st0, Some e) /\
        stdout st = MsgError e :: stdout st0 /\ files st = files st0 /\
        forall g s t, MsgComplete g s t ∉ stdout st)).
Proof.
  intros rng save_fails catalog.
  destruct (DriverFacts.ice_run rng) as [img Hrun].
  assert (script rng save_fails catalog ∅
          = ({| files := <[output_path "ice" := img]> ∅; generated := 1;
                skipped := 0; writes := [output_path "ice"];
                stdout := [MsgComplete 1 0 1; MsgGenerating "ice"] |}, 0%nat))
    as Hscript
    by (unfold script, main, catalog, save_fails; rewrite Hrun; reflexivity).
  eexists. eexists. split; [exact Hscript|].
  exact (script_exit_status _ _ _ _ _ _ Hscript).
Defined.

(** X28. After a run that completed, a run over the catalog extended by further
    entries skips the whole old catalog and then goes on as a run over the
    new entries alone, whatever the draws and the encoder do this time. *)
Theorem main_incremental (rng1 rng2 : string -> randomness)
    (save_fails1 save_fails2 : string -> bool)
    (catalog more : list (string * config)) (dir : gmap string image)
    (st1 : driver_state) :
  main rng1 save_fails1 catalog dir = (st1, None) ->
  main_loop rng2 save_fails2 (catalog ++ more) (initial_state (files st1)) =
  main_loop rng2 save_fails2 more
    {| files := files st1; generated := 0; skipped := length catalog;
       writes := [];
       stdout := rev (map (fun entry => MsgSkipping entry.1) catalog) |}.
Proof.
  unfold main.
  destruct (main_loop rng1 save_fails1 catalog (initial_state dir))
    as [st0 [e0|]] eqn:Hrun; [discriminate|].
  intros [= <-]. simpl.
  pose proof (DriverFacts.main_loop_all_present _ _ _ _ _ Hrun) as Hall.
  destruct (DriverFacts.main_loop_all_skipped rng2 save_fails2 catalog
              (initial_state (files st0)) Hall)
    as (st2 & Hrun2 & Hf & Hw & Hg & Hs & Hout).
  rewrite DriverFacts.main_loop_app, Hrun2.
  destruct st2 as [f2 g2 s2 w2 o2]. simpl in Hf, Hw, Hg, Hs, Hout.
  rewrite app_nil_r in Hout. now subst.
Qed.

Lemma main_incremental_witness :
  let rng := fun _ : string => ramp_rng in
  let save_fails := fun _ : string => false in
  let catalog := [("ice", ice)]%string in
  let more := [("grass", grass)]%string in
  exists st1,
    main rng save_fails catalog ∅ = (st1, None) /\
    main_loop rng save_fails (catalog ++ more) (initial_state (files st1)) =
    main_loop rng save_fails more
      {| files := files st1; generated := 0; skipped := length catalog;
         writes := [];
         stdout := rev (map (fun entry => MsgSkipping entry.1) catalog) |}.
Proof.
  intros rng save_fails catalog more.
  destruct (DriverFacts.ice_run rng) as [img Hrun].
  assert (main rng save_fails catalog ∅
          = ({| files := <[output_path "ice" := img]> ∅; generated := 1;
                skipped := 0; writes := [output_path "ice"];
                stdout := [MsgComplete 1 0 1; MsgGenerating "ice"] |}, None))
    as Hmain
    by (unfold main, catalog, save_fails; rewrite Hrun; reflexivity).
  eexists. split; [exact Hmain|].
  exact (main_incremental rng rng save_fails save_fails catalog more ∅ _ Hmain).
Defined.

End DriverExtra.
